(** * Pose-variation generator: the generation client and the bounded dispatcher

    A shallow embedding of [src/services/geminiService.ts]
    ([fileToGenerativePart], [extractImageData], [generatePosedVariation])
    and of [handleGenerate] in [src/App.tsx] (the prompt list, the shared
    queue, [processNext], the worker pool and [Promise.all]); then of the
    other functions of the service that build their request from strings
    alone, of [isGenerateDisabled], of the progress line and of the gallery
    with its [ImageCard]s.

    Conventions.
    - A JavaScript string is a [string]; its characters stand for the code
      units below 256, which covers every literal of the two source files.
    - [string | undefined] and [string | null] are [option string].
    - A thrown value is a [Thrown]; a computation that may throw returns
      [Thrown + A], [inl] being the throw.
    - A number that takes part in floating-point arithmetic is a [Number],
      an IEEE 754 binary64 value with the operations of the Standard
      Library's [SpecFloat]; counters and lengths are [nat].
    - The controls of the page are read at two moments: by [handleGenerate]
      at the click, which fixes the [Inputs] of the run, and by every
      rendering, which shows the cells as they are then; the controls stay
      active during a run, so a property of what the page shows quantifies
      over the [Inputs] shown.
    - An [async] function is cut at its [await]s: each piece between two
      suspension points is a synchronous function on the shared state, and
      the event loop is a step relation that picks which suspended task
      resumes next. *)

From Stdlib Require Import String Ascii List Arith Bool Lia ZArith QArith
  Permutation DecimalString SpecFloat PrimFloat FloatOps.
Import ListNotations.
Open Scope string_scope.
Open Scope nat_scope.
Open Scope list_scope.

Notation "a +++ b" := (String.append a b) (at level 60, right associativity).

(* ================================================================== *)
(** ** JavaScript primitives used by the sources *)
(* ================================================================== *)

(** Line feed, and the double quote of the template literals. *)
Definition nl : string := String (ascii_of_nat 10) EmptyString.
Definition dq : string := String (ascii_of_nat 34) EmptyString.

(** Truthiness of a [string | undefined | null]: defined and not empty. *)
Definition truthy (v : option string) : bool :=
  match v with
  | Some s => negb (s =? EmptyString)%string
  | None => false
  end.

(** [`${v}`]: a string is itself, [undefined] prints as its name. *)
Definition str (v : option string) : string :=
  match v with
  | Some s => s
  | None => "undefined"
  end.

(** White space of [String.prototype.trim], among the code units below 256:
    TAB, LF, VT, FF, CR, SP and NBSP. *)
Definition isWhiteSpace (c : ascii) : bool :=
  let n := nat_of_ascii c in
  ((9 <=? n) && (n <=? 13)) || (n =? 32) || (n =? 160).

Fixpoint trimStart (s : string) : string :=
  match s with
  | EmptyString => EmptyString
  | String c r => if isWhiteSpace c then trimStart r else s
  end.

Definition reverse (s : string) : string :=
  string_of_list_ascii (rev (list_ascii_of_string s)).

Definition trimEnd (s : string) : string := reverse (trimStart (reverse s)).

Definition trim (s : string) : string := trimEnd (trimStart s).

(** Line terminators, which the regular-expression dot does not match:
    LF and CR among the code units below 256. *)
Definition isLineTerminator (c : ascii) : bool :=
  let n := nat_of_ascii c in (n =? 10) || (n =? 13).

Fixpoint dotStar (s : string) : bool :=
  match s with
  | EmptyString => true
  | String c r => negb (isLineTerminator c) && dotStar r
  end.

(** Match a literal at the start of [s]; the rest of [s] on success. *)
Fixpoint stripPrefix (p s : string) : option string :=
  match p, s with
  | EmptyString, _ => Some s
  | String a p', String b s' => if Ascii.eqb a b then stripPrefix p' s' else None
  | String _ _, EmptyString => None
  end.

(** What [throw] can carry: an [Error] object with its [message], or any
    other value ([e instanceof Error] tells them apart). *)
Inductive Thrown : Type :=
| ErrorObject (message : string)
| OtherValue.

Definition Result (A : Type) : Type := (Thrown + A)%type.

(** A JavaScript Number: an IEEE 754 binary64 value, 53 bits of precision
    and exponents below 1024. *)
Definition Number : Type := spec_float.

(** [x * y] on Numbers: the exact product rounded to the nearest binary64
    value, ties to even. *)
Definition Number_mul : Number -> Number -> Number := SFmul 53 1024.

(** The Number that a length or a counter denotes. *)
Definition Number_of_nat (n : nat) : Number :=
  binary_normalize 53 1024 (Z.of_nat n) 0 false.

(** [Math.floor(x)], as the integer it denotes: the floor of a finite
    Number is exact. [NaN] and the infinities are returned unchanged by
    [Math.floor] and denote no integer. *)
Definition Math_floor (x : Number) : option Z :=
  match x with
  | S754_zero _ => Some 0%Z
  | S754_finite s m e => Some (Z.shiftl (cond_Zopp s (Zpos m)) e)
  | S754_infinity _ | S754_nan => None
  end.

(* ================================================================== *)
(** ** src/services/geminiService.ts *)
(* ================================================================== *)

Record Blob : Type := { data : string; mimeType : string }.

Module Part.
Record t : Type := mk { inlineData : option Blob; text : option string }.
End Part.

(** Modelled from the spec: the type [GenerateContentResponse] of the remote
    model's SDK, which the repository imports and does not declare. Section 6
    gives a response as an ordered list of parts plus a stop-reason code;
    [parts] is [response.candidates[0].content.parts] and [finishReason] is
    [response.candidates[0].finishReason]. *)
Record GenerateContentResponse : Type :=
  { parts : list Part.t; finishReason : string }.

(** The error taxonomy of the spec, as the [Error]s the code throws. *)
Definition InvalidInput : Thrown := ErrorObject "Invalid data URL format".

Definition GenerationRefused (reason : string) : Thrown :=
  ErrorObject ("Image generation stopped due to: " +++ reason +++ ". Check safety ratings.").

Definition NoImageProduced : Thrown :=
  ErrorObject "No image was generated. The model may have refused the request.".

(** The alternatives of [(?:png|jpeg|webp)] behind [image\/], in order. *)
Definition imageTypes : list string := ["image/png"; "image/jpeg"; "image/webp"].

(** After the anchored literal [data:], try each alternative, then the
    literal [;base64,], then the greedy dot group up to the end of the input:
    the two capture groups, [match[1]] and [match[2]]. *)
Fixpoint matchAlternatives (alts : list string) (rest : string) : option (string * string) :=
  match alts with
  | [] => None
  | m :: alts' =>
      match stripPrefix (m +++ ";base64,") rest with
      | Some payload =>
          if dotStar payload then Some (m, payload) else matchAlternatives alts' rest
      | None => matchAlternatives alts' rest
      end
  end.

(** [dataUrl.match] against the data-URL pattern of [fileToGenerativePart]:
    anchored at both ends, no flags. *)
Definition matchDataUrl (dataUrl : string) : option (string * string) :=
  match stripPrefix "data:" dataUrl with
  | Some rest => matchAlternatives imageTypes rest
  | None => None
  end.

Definition fileToGenerativePart (dataUrl : string) : Result Part.t :=
  match matchDataUrl dataUrl with
  | None => inl InvalidInput
  | Some (m1, m2) =>
      inr (Part.mk (Some {| data := m2; mimeType := m1 |}) None)
  end.

(** The [for ... of] loop of [extractImageData]: the first part whose
    [inlineData] is set decides. *)
Fixpoint extractImageData_loop (ps : list Part.t) : option string :=
  match ps with
  | [] => None
  | part :: ps' =>
      match Part.inlineData part with
      | Some b => Some ("data:" +++ mimeType b +++ ";base64," +++ data b)
      | None => extractImageData_loop ps'
      end
  end.

Definition extractImageData (response : GenerateContentResponse) : Result string :=
  match extractImageData_loop (parts response) with
  | Some uri => inr uri
  | None =>
      if negb (finishReason response =? "STOP")%string
         && negb (finishReason response =? "MAX_TOKENS")%string
      then inl (GenerationRefused (finishReason response))
      else inl NoImageProduced
  end.

(** *** The remote model and the monad of the client

    The remote model is an oracle: a request either makes the SDK call throw
    or yields a response. A client computation reads the oracle, appends
    every request it sends to a log, and may throw; the log is kept when it
    throws. *)
Definition Remote : Type := list Part.t -> Result GenerateContentResponse.

Definition Client (A : Type) : Type :=
  Remote -> list (list Part.t) -> Result A * list (list Part.t).

Definition ret {A} (a : A) : Client A := fun _ log => (inr a, log).

Definition bind {A B} (c : Client A) (k : A -> Client B) : Client B :=
  fun remote log =>
    match c remote log with
    | (inl e, log') => (inl e, log')
    | (inr a, log') => k a remote log'
    end.

Definition lift {A} (r : Result A) : Client A := fun _ log => (r, log).

Notation "x <- c ;; k" := (bind c (fun x => k))
  (at level 61, c at next level, right associativity).
Notation "' p <- c ;; k" := (bind c (fun x => let 'p := x in k))
  (at level 61, p pattern, c at next level, right associativity).

(** [ai.models.generateContent] with the image model: the one network call. *)
Definition callGeminiImageModel (ps : list Part.t) : Client GenerateContentResponse :=
  fun remote log => (remote ps, log ++ [ps]).

Module PoseGuidance.
Record t : Type :=
  mk { text : option string; referenceImage : option string; sketchImage : option string }.
End PoseGuidance.

Definition basePrompt : string :=
  "Your task is to regenerate the person from the provided primary model image." +++ nl +++
  nl +++
  "**CRITICAL INSTRUCTIONS (MUST be followed):**" +++ nl +++
  "1.  **Preserve Identity & Outfit:** The person's face, body, and clothing in the generated image MUST be 100% identical to the primary model image (the first image provided). This is the most important rule." +++ nl +++
  "2.  **Apply New Pose/Angle:** Change the person's pose and the camera angle according to the specific guidance provided below." +++ nl +++
  "3.  **Vary Background & Style:** The background should be new, diverse, and photorealistic, complementing the new pose. The overall photographic style (e.g., lighting, mood) can also be varied creatively." +++ nl.

Definition referenceGuidance : string :=
  nl +++ "**Pose Guidance:** The second image provided is a pose reference. Re-create the person from the primary model image in the exact pose shown in the reference image. The identity and clothing must come from the primary model image; ONLY the pose comes from the reference image.".

Definition sketchGuidance : string :=
  nl +++ "**Pose Guidance:** The second image provided is a sketch. Re-create the person from the primary model image following the pose and composition outlined in the sketch. The identity and clothing must come from the primary model image.".

Definition textGuidance (t : string) : string :=
  nl +++ "**Pose Guidance:** Re-create the person in this specific pose/style: " +++ dq +++ t +++ dq.

Definition refinementClause (t : string) : string :=
  nl +++ "**Refinement:** Additionally, apply the following style: " +++ dq +++ t +++ dq +++ ".".

Definition generatePosedVariation (modelImage : string) (guidance : PoseGuidance.t)
  : Client string :=
  let parts0 : list Part.t := [] in
  let prompt := basePrompt in
  p <- lift (fileToGenerativePart modelImage) ;;
  let parts1 := parts0 ++ [p] in
  '(parts2, prompt) <-
    (if truthy (PoseGuidance.referenceImage guidance) then
       r <- lift (fileToGenerativePart (str (PoseGuidance.referenceImage guidance))) ;;
       ret (parts1 ++ [r], prompt +++ referenceGuidance)
     else if truthy (PoseGuidance.sketchImage guidance) then
       s <- lift (fileToGenerativePart (str (PoseGuidance.sketchImage guidance))) ;;
       ret (parts1 ++ [s], prompt +++ sketchGuidance)
     else if truthy (PoseGuidance.text guidance) then
       ret (parts1, prompt +++ textGuidance (str (PoseGuidance.text guidance)))
     else ret (parts1, prompt)) ;;
  let prompt :=
    if (truthy (PoseGuidance.referenceImage guidance)
        || truthy (PoseGuidance.sketchImage guidance))
       && truthy (PoseGuidance.text guidance)
       && negb (trim (str (PoseGuidance.text guidance)) =? EmptyString)%string
    then prompt +++ refinementClause (str (PoseGuidance.text guidance))
    else prompt in
  let parts3 := parts2 ++ [Part.mk None (Some prompt)] in
  response <- callGeminiImageModel parts3 ;;
  lift (extractImageData response).

(** Running the client against a remote model, from an empty log. *)
Definition run {A} (c : Client A) (remote : Remote) : Result A * list (list Part.t) :=
  c remote [].

(* ================================================================== *)
(** ** src/App.tsx *)
(* ================================================================== *)

Inductive PoseGuidanceMode : Type := mode_text | mode_reference | mode_sketch.

Definition PoseGuidanceMode_eqb (a b : PoseGuidanceMode) : bool :=
  match a, b with
  | mode_text, mode_text | mode_reference, mode_reference | mode_sketch, mode_sketch => true
  | _, _ => false
  end.

Inductive Status : Type := Pending | Done | Error.

Module GeneratedImage.
Record t : Type :=
  mk { id : nat; status : Status; url : option string; error : option string }.
End GeneratedImage.

Definition RANDOM_POSES : list string :=
  [ "A full-body shot, walking confidently towards the camera.";
    "A portrait taken from a side profile.";
    "A three-quarter portrait, looking thoughtfully away.";
    "A medium shot with arms crossed, looking at the camera.";
    "A dynamic full-body shot captured mid-jump.";
    "A photo taken from a high angle, looking down.";
    "A close-up, glancing over their shoulder.";
    "A full-body shot in a crouching pose.";
    "A candid-style photo, captured in an unposed moment.";
    "A professional headshot from the chest up with a friendly smile." ].

(** The [useState] cells that the controls write, as one rendering shows
    them. [handleGenerate] closes over the values of the rendering whose
    button was clicked; the controls stay active while it waits, so a later
    rendering may show other values. *)
Record Inputs : Type :=
  { modelImage : option string;
    poseReferenceImage : option string;
    poseSketchImage : option string;
    poseGuidanceMode : PoseGuidanceMode;
    numVariations : nat;
    customPrompt : string }.

(** The [useState] values that [handleGenerate] writes. A setter takes
    effect at once: the model observes the state the pending updates lead to. *)
Record AppState : Type :=
  { generatedImages : list GeneratedImage.t;
    isLoading : bool;
    error : option string;
    progress : nat }.

(** [arr[i]] for an integer [i]: [undefined] out of range. *)
Definition at_index {A} (arr : list A) (i : Z) : option A :=
  if (i <? 0)%Z then None else nth_error arr (Z.to_nat i).

(** [RANDOM_POSES[Math.floor(r * RANDOM_POSES.length)]] for a value [r] of
    [Math.random()]: the product is the floating-point one, and an index
    that is no integer finds nothing. *)
Definition randomPose (r : Number) : option string :=
  match Math_floor (Number_mul r (Number_of_nat (length RANDOM_POSES))) with
  | Some i => at_index RANDOM_POSES i
  | None => None
  end.

(** The [prompts] array; [random i] is what the [i]-th call of
    [Math.random()] returns, and [Array.from] calls it once per element, in
    order. *)
Definition makePrompts (random : nat -> Number) (inp : Inputs) : list (option string) :=
  if negb (trim (customPrompt inp) =? EmptyString)%string
  then repeat (Some (customPrompt inp)) (numVariations inp)
  else map (fun i => randomPose (random i)) (seq 0 (numVariations inp)).

(** [[...prompts.entries()]] *)
Definition entries {A} (arr : list A) : list (nat * A) :=
  combine (seq 0 (length arr)) arr.

(** [prompts.map((_, i) => ({ id: i, status: 'pending' }))] *)
Definition pendingImages {A} (arr : list A) : list GeneratedImage.t :=
  map (fun i => GeneratedImage.mk i Pending None None) (seq 0 (length arr)).

(** What the tasks of one run share: the React state, the locals
    [completedCount] and [queue], and a history of the claims, [claimed],
    which no code reads: every [queue.shift()] appends the worker that made
    it and the index it got. *)
Record Shared : Type :=
  { app : AppState;
    completedCount : nat;
    queue : list (nat * option string);
    claimed : list (nat * nat) }.

(** Where a worker (one of the [async] arrow functions of [workers]) is
    suspended, or how its promise has settled. *)
Inductive Worker : Type :=
| AwaitGenerate (index : nat) (promptText : option string)
    (* inside [processNext], at [await generatePosedVariation(...)] *)
| AwaitProcessNext (settled : Result unit)
    (* at [await processNext()], whose promise has settled *)
| Fulfilled
| Rejected (e : Thrown).

(** [handleGenerate] at [await processQueue()], or settled. *)
Inductive Handler : Type :=
| AwaitProcessQueue
| HandlerReturned
| HandlerRejected (e : Thrown).

Record Run : Type :=
  { shared : Shared; workers : list Worker; handler : Handler }.

(** Synchronous code on the shared state that may throw. *)
Definition Sync (A : Type) : Type := Shared -> Result A * Shared.

Definition try_catch_finally {A} (body : Sync A) (catch : Thrown -> Sync A)
  (finalizer : Sync unit) : Sync A :=
  fun s =>
    let '(r1, s1) := body s in
    let '(r2, s2) := match r1 with
                     | inl e => catch e s1
                     | inr a => (inr a, s1)
                     end in
    let '(r3, s3) := finalizer s2 in
    match r3 with
    | inl e => (inl e, s3)
    | inr _ => (r2, s3)
    end.

Definition setGeneratedImages (f : list GeneratedImage.t -> list GeneratedImage.t)
  : Sync unit :=
  fun s =>
    (inr tt,
     {| app := {| generatedImages := f (generatedImages (app s));
                  isLoading := isLoading (app s);
                  error := error (app s);
                  progress := progress (app s) |};
        completedCount := completedCount s;
        queue := queue s;
        claimed := claimed s |}).

(** [completedCount++; setProgress(completedCount);] *)
Definition countCompleted : Sync unit :=
  fun s =>
    (inr tt,
     {| app := {| generatedImages := generatedImages (app s);
                  isLoading := isLoading (app s);
                  error := error (app s);
                  progress := S (completedCount s) |};
        completedCount := S (completedCount s);
        queue := queue s;
        claimed := claimed s |}).

Definition setIsLoading (b : bool) (s : Shared) : Shared :=
  {| app := {| generatedImages := generatedImages (app s);
               isLoading := b;
               error := error (app s);
               progress := progress (app s) |};
     completedCount := completedCount s;
     queue := queue s;
     claimed := claimed s |}.

(** [img => img.id === index ? { ...img, status: 'done', url } : img] *)
Definition markDone (index : nat) (u : string) (img : GeneratedImage.t) : GeneratedImage.t :=
  if GeneratedImage.id img =? index
  then GeneratedImage.mk (GeneratedImage.id img) Done (Some u) (GeneratedImage.error img)
  else img.

(** [img => img.id === index ? { ...img, status: 'error', error: message } : img] *)
Definition markError (index : nat) (message : string) (img : GeneratedImage.t)
  : GeneratedImage.t :=
  if GeneratedImage.id img =? index
  then GeneratedImage.mk (GeneratedImage.id img) Error (GeneratedImage.url img) (Some message)
  else img.

(** [e instanceof Error ? e.message : "An unknown error occurred during generation."] *)
Definition messageOf (e : Thrown) : string :=
  match e with
  | ErrorObject m => m
  | OtherValue => "An unknown error occurred during generation."
  end.

(** The argument object that [processNext] passes to [generatePosedVariation]. *)
Definition guidanceFor (inp : Inputs) (promptText : option string) : PoseGuidance.t :=
  PoseGuidance.mk
    (if PoseGuidanceMode_eqb (poseGuidanceMode inp) mode_text
     then promptText else Some (customPrompt inp))
    (if PoseGuidanceMode_eqb (poseGuidanceMode inp) mode_reference
     then poseReferenceImage inp else None)
    (if PoseGuidanceMode_eqb (poseGuidanceMode inp) mode_sketch
     then poseSketchImage inp else None).

(** [processNext] from its [await] on: [settled] is how the promise of
    [generatePosedVariation] settled. The result is how the promise of
    [processNext] itself settles. *)
Definition processNext_continue (index : nat) (settled : Result string) : Sync unit :=
  try_catch_finally
    (fun s => match settled with
              | inl e => (inl e, s)
              | inr u => setGeneratedImages (map (markDone index u)) s
              end)
    (fun e => let message := messageOf e in
              setGeneratedImages (map (markError index message)))
    countCompleted.

(** [processNext] from its start to its first suspension: either it returns
    at once, or it takes the head of the queue and calls the client. *)
Definition processNext_start (w : nat) (s : Shared) : Worker * Shared :=
  match queue s with
  | [] => (AwaitProcessNext (inr tt), s)
  | (index, promptText) :: rest =>
      (AwaitGenerate index promptText,
       {| app := app s;
          completedCount := completedCount s;
          queue := rest;
          claimed := claimed s ++ [(w, index)] |})
  end.

(** A worker from the test of its [while] to its next suspension. *)
Definition worker_loop (w : nat) (s : Shared) : Worker * Shared :=
  if 0 <? length (queue s) then processNext_start w s else (Fulfilled, s).

(** [Array(n).fill(null).map(async () => ...)]: the [n] workers start one
    after the other, each running to its first suspension. *)
Fixpoint launch (n w : nat) (s : Shared) : list Worker * Shared :=
  match n with
  | 0 => ([], s)
  | S n' =>
      let '(wk, s1) := worker_loop w s in
      let '(wks, s2) := launch n' (S w) s1 in
      (wk :: wks, s2)
  end.

Definition concurrencyLimit : nat := 5.

Inductive Started : Type :=
| Refused (s : AppState)
| Running (r : Run).

Definition setError (msg : option string) (s : AppState) : AppState :=
  {| generatedImages := generatedImages s;
     isLoading := isLoading s;
     error := msg;
     progress := progress s |}.

(** [handleGenerate] up to [await processQueue()], for a pool of [limit]
    workers (the source fixes [limit] to [concurrencyLimit]). *)
Definition handleGenerate_upto (limit : nat) (random : nat -> Number) (inp : Inputs)
  (s : AppState) : Started :=
  if negb (truthy (modelImage inp)) then
    Refused (setError (Some "Please upload a model image first.") s)
  else if PoseGuidanceMode_eqb (poseGuidanceMode inp) mode_reference
          && negb (truthy (poseReferenceImage inp)) then
    Refused (setError (Some "Please upload a reference image for pose extraction.") s)
  else if PoseGuidanceMode_eqb (poseGuidanceMode inp) mode_sketch
          && negb (truthy (poseSketchImage inp)) then
    Refused (setError (Some "Please upload a sketch for pose guidance.") s)
  else
    let prompts := makePrompts random inp in
    let s0 := {| app := {| generatedImages := pendingImages prompts;
                           isLoading := true;
                           error := None;
                           progress := 0 |};
                 completedCount := 0;
                 queue := entries prompts;
                 claimed := [] |} in
    let '(ws, s1) := launch limit 0 s0 in
    Running {| shared := s1; workers := ws; handler := AwaitProcessQueue |}.

Definition handleGenerate : (nat -> Number) -> Inputs -> AppState -> Started :=
  handleGenerate_upto concurrencyLimit.

(** *** The event loop *)

Fixpoint update {A} (l : list A) (i : nat) (x : A) : list A :=
  match l, i with
  | [], _ => []
  | _ :: t, 0 => x :: t
  | h :: t, S i' => h :: update t i' x
  end.

Definition isFulfilled (w : Worker) : bool :=
  match w with Fulfilled => true | _ => false end.

Fixpoint firstRejected (ws : list Worker) : option Thrown :=
  match ws with
  | [] => None
  | Rejected e :: _ => Some e
  | _ :: ws' => firstRejected ws'
  end.

(** What the event loop can run next: the client call of worker [w] settles,
    the remote model having behaved as [remote]; worker [w] resumes after
    [await processNext()]; [Promise.all] settles and [handleGenerate] resumes. *)
Inductive Event : Type :=
| Settle (w : nat) (remote : Remote)
| Resume (w : nat)
| Join.

Definition exec (inp : Inputs) (ev : Event) (r : Run) : option Run :=
  match ev with
  | Settle w remote =>
      match nth_error (workers r) w with
      | Some (AwaitGenerate index promptText) =>
          let settled :=
            fst (run (generatePosedVariation (str (modelImage inp))
                        (guidanceFor inp promptText)) remote) in
          let '(res, s') := processNext_continue index settled (shared r) in
          Some {| shared := s';
                  workers := update (workers r) w (AwaitProcessNext res);
                  handler := handler r |}
      | _ => None
      end
  | Resume w =>
      match nth_error (workers r) w with
      | Some (AwaitProcessNext (inr _)) =>
          let '(wk, s') := worker_loop w (shared r) in
          Some {| shared := s'; workers := update (workers r) w wk; handler := handler r |}
      | Some (AwaitProcessNext (inl e)) =>
          Some {| shared := shared r;
                  workers := update (workers r) w (Rejected e);
                  handler := handler r |}
      | _ => None
      end
  | Join =>
      match handler r with
      | AwaitProcessQueue =>
          match firstRejected (workers r) with
          | Some e =>
              Some {| shared := shared r; workers := workers r;
                      handler := HandlerRejected e |}
          | None =>
              if forallb isFulfilled (workers r)
              then Some {| shared := setIsLoading false (shared r);
                           workers := workers r;
                           handler := HandlerReturned |}
              else None
          end
      | _ => None
      end
  end.

Fixpoint execAll (inp : Inputs) (evs : list Event) (r : Run) : option Run :=
  match evs with
  | [] => Some r
  | ev :: evs' =>
      match exec inp ev r with
      | Some r' => execAll inp evs' r'
      | None => None
      end
  end.

Inductive reachable (inp : Inputs) (r0 : Run) : Run -> Prop :=
| reach_start : reachable inp r0 r0
| reach_step r ev r' :
    reachable inp r0 r -> exec inp ev r = Some r' -> reachable inp r0 r'.

(** The indices of the jobs in flight: claimed, client call not settled. *)
Fixpoint inFlight (ws : list Worker) : list nat :=
  match ws with
  | [] => []
  | AwaitGenerate index _ :: ws' => index :: inFlight ws'
  | _ :: ws' => inFlight ws'
  end.

Definition isPending (img : GeneratedImage.t) : bool :=
  match GeneratedImage.status img with Pending => true | _ => false end.

Definition countSettled (imgs : list GeneratedImage.t) : nat :=
  length (filter (fun img => negb (isPending img)) imgs).

(** What is left to do, counted in steps of the event loop. *)
Definition weight (w : Worker) : nat :=
  match w with
  | AwaitGenerate _ _ => 2
  | AwaitProcessNext _ => 1
  | Fulfilled | Rejected _ => 0
  end.

Definition measure (r : Run) : nat :=
  2 * length (queue (shared r))
  + list_sum (map weight (workers r))
  + match handler r with AwaitProcessQueue => 1 | _ => 0 end.

(* ================================================================== *)
(** ** Definitions used to state the properties *)
(* ================================================================== *)

Definition textPart (prompt : string) : Part.t := Part.mk None (Some prompt).

Definition imagePart (mime payload : string) : Part.t :=
  Part.mk (Some {| data := payload; mimeType := mime |}) None.

(** The source image as a data URL with a declared MIME type and payload. *)
Definition dataUrlOf (mime payload : string) : string :=
  "data:" +++ mime +++ ";base64," +++ payload.

Fixpoint noSemicolon (s : string) : bool :=
  match s with
  | EmptyString => true
  | String c r => negb (nat_of_ascii c =? 59) && noSemicolon r
  end.

(** Valid base64 in the sense of RFC 4648: groups of four characters of the
    standard alphabet, the last group padded with one or two [=]. *)
Definition isBase64Char (c : ascii) : bool :=
  let n := nat_of_ascii c in
  ((65 <=? n) && (n <=? 90)) || ((97 <=? n) && (n <=? 122))
  || ((48 <=? n) && (n <=? 57)) || (n =? 43) || (n =? 47).

Fixpoint isBase64Body (s : string) : bool :=
  match s with
  | EmptyString => true
  | String c r =>
      if nat_of_ascii c =? 61
      then (r =? EmptyString)%string || (r =? "=")%string
      else isBase64Char c && isBase64Body r
  end.

Definition isBase64 (s : string) : bool :=
  (String.length s mod 4 =? 0) && isBase64Body s.

(** The refinement clause that [generatePosedVariation] adds in an
    image-guidance mode: present when the text is set and not blank. *)
Definition refinementOf (t : option string) : string :=
  if truthy t && negb (trim (str t) =? EmptyString)%string
  then refinementClause (str t) else EmptyString.

(** A remote model that answers every request with one PNG. *)
Definition remoteOk : Remote :=
  fun _ => inr {| parts := [imagePart "image/png" "QQ=="]; finishReason := "STOP" |}.

(** A remote model whose SDK call throws [e]. *)
Definition remoteThrows (e : Thrown) : Remote := fun _ => inl e.

Definition examplePng : string := "data:image/png;base64,AAA=".

(** What the client returns once the remote model has answered. *)
Definition answerOf (r : Result GenerateContentResponse) : Result string :=
  match r with
  | inl e => inl e
  | inr response => extractImageData response
  end.

(** Example inputs: text mode, [n] variations of an uploaded PNG. *)
Definition exampleInputs (n : nat) (custom : string) : Inputs :=
  {| modelImage := Some examplePng; poseReferenceImage := None;
     poseSketchImage := None; poseGuidanceMode := mode_text;
     numVariations := n; customPrompt := custom |}.

(** The application before a run. *)
Definition idle : AppState :=
  {| generatedImages := []; isLoading := false; error := None; progress := 0 |}.

(** What [Math.random()] may return: a positive Number below 1, zero
    included. *)
Definition isRandomValue (x : Number) : bool :=
  match x with
  | S754_zero false => true
  | S754_finite false m e => bounded 53 1024 m e && SFltb x (Number_of_nat 1)
  | _ => false
  end.

(** A random source: the Numbers nearest to 0.7, 0.3, 0.6, 0.15 and 0.99,
    then 0.5, then zero for ever. *)
Definition exampleRandom (i : nat) : Number :=
  nth i [ S754_finite false 6305039478318694 (-53);
          S754_finite false 5404319552844595 (-54);
          S754_finite false 5404319552844595 (-53);
          S754_finite false 5404319552844595 (-55);
          S754_finite false 8917127262193582 (-53);
          S754_finite false 4503599627370496 (-53) ]
      (S754_zero false).

(** How [processNext] publishes the outcome of a client call. *)
Definition publish (i : nat) (settled : Result string)
  : GeneratedImage.t -> GeneratedImage.t :=
  match settled with
  | inl e => markError i (messageOf e)
  | inr u => markDone i u
  end.

(** A worker that has not been rejected and is not about to be. *)
Definition healthy (w : Worker) : bool :=
  match w with
  | Rejected _ | AwaitProcessNext (inl _) => false
  | _ => true
  end.

(** The invariant that ties the shared state to the suspended workers [ws],
    for the prompt list [prompts] of the run. *)
Record SharedInv (prompts : list (option string)) (ws : list Worker) (s : Shared)
  : Prop :=
  { inv_claimed : map snd (claimed s) = seq 0 (length (claimed s));
    inv_bound : length (claimed s) <= length prompts;
    inv_queue : queue s = skipn (length (claimed s)) (entries prompts);
    inv_ids : map GeneratedImage.id (generatedImages (app s)) = seq 0 (length prompts);
    inv_nodup : NoDup (inFlight ws);
    inv_inflight : forall i, In i (inFlight ws) -> i < length (claimed s);
    inv_pending : forall img, In img (generatedImages (app s)) ->
        (isPending img = true <->
         length (claimed s) <= GeneratedImage.id img
         \/ In (GeneratedImage.id img) (inFlight ws));
    inv_count : countSettled (generatedImages (app s)) = completedCount s;
    inv_total : completedCount s + length (inFlight ws) = length (claimed s);
    inv_progress : progress (app s) = completedCount s;
    inv_healthy : forallb healthy ws = true;
    inv_drained : existsb isFulfilled ws = true -> queue s = [];
    inv_prompt : forall i p, In (AwaitGenerate i p) ws -> nth_error prompts i = Some p }.

Definition HandlerInv (r : Run) : Prop :=
  match handler r with
  | AwaitProcessQueue => isLoading (app (shared r)) = true
  | HandlerReturned =>
      isLoading (app (shared r)) = false /\ forallb isFulfilled (workers r) = true
  | HandlerRejected _ => False
  end.

Definition RunInv (prompts : list (option string)) (limit : nat) (r : Run) : Prop :=
  SharedInv prompts (workers r) (shared r)
  /\ length (workers r) = limit
  /\ HandlerInv r.

(** The first worker that is suspended at an [await], if any. *)
Fixpoint findSuspended (ws : list Worker) : option nat :=
  match ws with
  | [] => None
  | AwaitGenerate _ _ :: _ | AwaitProcessNext _ :: _ => Some 0
  | _ :: ws' => option_map S (findSuspended ws')
  end.

(** An event that the event loop can run in [r], when one exists. *)
Definition nextEvent (r : Run) : Event :=
  match findSuspended (workers r) with
  | Some w =>
      match nth_error (workers r) w with
      | Some (AwaitGenerate _ _) => Settle w remoteOk
      | _ => Resume w
      end
  | None => Join
  end.

(** A schedule that drives [r] to the end of the run, in at most [fuel] steps. *)
Fixpoint drive (inp : Inputs) (fuel : nat) (r : Run) : list Event :=
  match fuel with
  | 0 => []
  | S fuel' =>
      match handler r with
      | AwaitProcessQueue =>
          match exec inp (nextEvent r) r with
          | Some r' => nextEvent r :: drive inp fuel' r'
          | None => []
          end
      | _ => []
      end
  end.

(** Is the job [i] pending in the gallery? *)
Definition pendingIn (imgs : list GeneratedImage.t) (i : nat) : bool :=
  existsb (fun img => (GeneratedImage.id img =? i) && isPending img) imgs.

(** The jobs claimed and not yet terminal, in the order of the claims. *)
Definition claimedNotTerminal (s : Shared) : list nat :=
  filter (pendingIn (generatedImages (app s))) (map snd (claimed s)).

Definition isTerminal (img : GeneratedImage.t) : Prop :=
  GeneratedImage.status img = Done \/ GeneratedImage.status img = Error.

(* ================================================================== *)
(** ** More of src/services/geminiService.ts *)
(* ================================================================== *)

(** [`\n\n**Additional Instructions:** ${instructions}`] *)
Definition additionalInstructionsClause (instructions : string) : string :=
  nl +++
  nl +++
  "**Additional Instructions:** " +++ instructions.

(** [`\n\n**Refinement:** ${instructions}`] *)
Definition refinementSuffix (instructions : string) : string :=
  nl +++
  nl +++
  "**Refinement:** " +++ instructions.

Definition extractOutfitPrompt : string :=
  "Your task is to meticulously isolate the complete outfit (all clothing items) worn by the person in the provided image." +++ nl +++
  nl +++
  "**CRITICAL REQUIREMENTS:**" +++ nl +++
  "1.  **Remove the Person:** The final image must NOT contain any part of the person (skin, hair, etc.)." +++ nl +++
  "2.  **Transparent Background:** The output MUST be a PNG image with a completely transparent background." +++ nl +++
  "3.  **Preserve the Outfit:** The clothing should be clean, complete, and retain its original colors, textures, and details. It should be presented as if on an invisible mannequin.".

Definition extractOutfitFromImage (imageUrl : string) (instructions : option string)
  : Client string :=
  p <- lift (fileToGenerativePart imageUrl) ;;
  let parts1 : list Part.t := [p] in
  let prompt := extractOutfitPrompt in
  let prompt :=
    if truthy instructions
    then prompt +++ additionalInstructionsClause (str instructions) else prompt in
  let parts2 := parts1 ++ [Part.mk None (Some prompt)] in
  response <- callGeminiImageModel parts2 ;;
  lift (extractImageData response).

(** [imageUrls.map(url => fileToGenerativePart(url))]: the first refused URL
    throws. *)
Fixpoint mapToParts (imageUrls : list string) : Result (list Part.t) :=
  match imageUrls with
  | [] => inr []
  | url :: rest =>
      match fileToGenerativePart url with
      | inl e => inl e
      | inr p =>
          match mapToParts rest with
          | inl e => inl e
          | inr ps => inr (p :: ps)
          end
      end
  end.

Definition generateStyledImage (prompt : string) (imageUrls : list string)
  (additionalInstructions : option string) : Client string :=
  parts1 <- lift (mapToParts imageUrls) ;;
  let finalPrompt := prompt in
  let finalPrompt :=
    if truthy additionalInstructions
    then finalPrompt +++ additionalInstructionsClause (str additionalInstructions)
    else finalPrompt in
  let parts2 := parts1 ++ [Part.mk None (Some finalPrompt)] in
  response <- callGeminiImageModel parts2 ;;
  lift (extractImageData response).

Definition fillMaskedPrompt (prompt : string) : string :=
  "The provided image has a transparent (or masked) area. Your task is to inpaint this area based on the following instruction: " +++ dq +++ prompt +++ dq +++ ". The result should be a seamless, photorealistic image.".

Definition fillMaskedImage (prompt maskedImageUrl : string) (instructions : option string)
  : Client string :=
  p <- lift (fileToGenerativePart maskedImageUrl) ;;
  let parts1 : list Part.t := [p] in
  let finalPrompt := fillMaskedPrompt prompt in
  let finalPrompt :=
    if truthy instructions
    then finalPrompt +++ refinementSuffix (str instructions) else finalPrompt in
  let parts2 := parts1 ++ [Part.mk None (Some finalPrompt)] in
  response <- callGeminiImageModel parts2 ;;
  lift (extractImageData response).

Definition removeObjectPrompt : string :=
  "The provided image has a transparent (or masked) area. Your task is to inpaint this area, seamlessly removing any object that might have been there. The result should be a photorealistic image where the background is naturally filled in.".

Definition removeObjectFromImage (maskedImageUrl : string) : Client string :=
  p <- lift (fileToGenerativePart maskedImageUrl) ;;
  let parts1 : list Part.t := [p] in
  let parts2 := parts1 ++ [Part.mk None (Some removeObjectPrompt)] in
  response <- callGeminiImageModel parts2 ;;
  lift (extractImageData response).

Definition swapFacesPrompt : string :=
  "Your task is to perform a face swap." +++ nl +++
  "    -   The **first image** is the target image where the face will be replaced." +++ nl +++
  "    -   The **second image** contains the source face to use." +++ nl +++
  nl +++
  "    **CRITICAL REQUIREMENTS:**" +++ nl +++
  "    1.  Take the face from the person in the second image and seamlessly blend it onto the person in the first image." +++ nl +++
  "    2.  The skin tone, lighting, and angle must be adjusted to match the target image perfectly for a photorealistic result." +++ nl +++
  "    3.  Preserve the hair, body, and clothing from the first (target) image.".

(** [targetFaceCoords] is a pair of numbers; the function never reads it. *)
Definition swapFacesInImage (imageToModify faceToUse : string)
  (targetFaceCoords : option (Q * Q)) (instructions : option string) : Client string :=
  p1 <- lift (fileToGenerativePart imageToModify) ;;
  p2 <- lift (fileToGenerativePart faceToUse) ;;
  let parts1 : list Part.t := [p1; p2] in
  let prompt := swapFacesPrompt in
  let prompt :=
    if truthy instructions
    then prompt +++ refinementSuffix (str instructions) else prompt in
  let parts2 := parts1 ++ [Part.mk None (Some prompt)] in
  response <- callGeminiImageModel parts2 ;;
  lift (extractImageData response).

Definition cloneEffectPrompt : string :=
  "Analyze the provided image and identify the main person in it. Your task is to create a " +++ dq +++ "clone effect" +++ dq +++ " image." +++ nl +++
  "    " +++ nl +++
  "    **CRITICAL REQUIREMENTS:**" +++ nl +++
  "    1.  Create multiple copies (clones) of the person within the original scene." +++ nl +++
  "    2.  Each clone should be in a slightly different but plausible position and pose." +++ nl +++
  "    3.  The clones should appear to be interacting with each other or the environment in a creative, seamless, and photorealistic way." +++ nl +++
  "    4.  The background and lighting must be consistent and realistic for the composition.".

Definition generateCloneEffectImage (imageUrl : string) (instructions : option string)
  : Client string :=
  p <- lift (fileToGenerativePart imageUrl) ;;
  let parts1 : list Part.t := [p] in
  let prompt := cloneEffectPrompt in
  let prompt :=
    if truthy instructions
    then prompt +++ refinementSuffix (str instructions) else prompt in
  let parts2 := parts1 ++ [Part.mk None (Some prompt)] in
  response <- callGeminiImageModel parts2 ;;
  lift (extractImageData response).

Definition backgroundFromConceptPrompt : string :=
  "From the provided image, extract the background scene. Your task is to remove any prominent foreground subjects (like people or specific objects) and intelligently fill in the space to create a clean, complete background image. The result should be a photorealistic scene that could be used as a backdrop.".

Definition generateBackgroundFromConcept (conceptImageUrl : string) : Client string :=
  p <- lift (fileToGenerativePart conceptImageUrl) ;;
  let parts1 : list Part.t := [p] in
  let parts2 := parts1 ++ [Part.mk None (Some backgroundFromConceptPrompt)] in
  response <- callGeminiImageModel parts2 ;;
  lift (extractImageData response).

Definition depthMapPrompt : string :=
  "Generate a high-quality, detailed grayscale depth map for this image. In the output depth map, white should represent objects closest to the camera, and black should represent objects farthest away. The result should be an image.".

Definition generateDepthMap (imageUrl : string) : Client string :=
  p <- lift (fileToGenerativePart imageUrl) ;;
  let parts1 : list Part.t := [p] in
  let parts2 := parts1 ++ [Part.mk None (Some depthMapPrompt)] in
  response <- callGeminiImageModel parts2 ;;
  lift (extractImageData response).

Definition graphicPrompt (prompt : string) : string :=
  "Create a cool, modern, minimalist vector-style graphic suitable for a T-shirt based on this theme: " +++ dq +++ prompt +++ dq +++ "." +++ nl +++
  "    " +++ nl +++
  "    **CRITICAL REQUIREMENTS:**" +++ nl +++
  "    1.  The graphic must be isolated on a completely transparent background." +++ nl +++
  "    2.  The style should be clean and suitable for printing on apparel." +++ nl +++
  "    3.  The output must be a PNG with a transparent background.".

Definition generateGraphicFromPrompt (prompt : string) : Client string :=
  let parts1 : list Part.t := [] in
  let parts2 := parts1 ++ [Part.mk None (Some (graphicPrompt prompt))] in
  response <- callGeminiImageModel parts2 ;;
  lift (extractImageData response).

Definition apparelMockupPrompt (apparelPrompt : string) : string :=
  "Create a photorealistic apparel mockup." +++ nl +++
  "    " +++ nl +++
  "    **Apparel Details:** " +++ apparelPrompt +++ "." +++ nl +++
  "    " +++ nl +++
  "    **Task:** Place the graphic from the provided image onto the apparel. The graphic should appear naturally on the fabric, with realistic lighting, shadows, and wrinkles. The background should be a simple, clean studio setting.".

Definition generateApparelMockup (designUrl apparelPrompt : string) : Client string :=
  p <- lift (fileToGenerativePart designUrl) ;;
  let parts1 : list Part.t := [p] in
  let parts2 := parts1 ++ [Part.mk None (Some (apparelMockupPrompt apparelPrompt))] in
  response <- callGeminiImageModel parts2 ;;
  lift (extractImageData response).

Definition typographicPrompt (phrase : string) : string :=
  "Create a visually stunning, intricate illustration that depicts the scene or concept described by the phrase: " +++ dq +++ phrase +++ dq +++ "." +++ nl +++
  "    " +++ nl +++
  "    **CRITICAL AND NON-NEGOTIABLE RULE:** The entire illustration MUST be constructed exclusively using the letters that appear in the phrase " +++ dq +++ phrase +++ dq +++ ". No other shapes, lines, or elements are allowed. The letters themselves should form all the objects, textures, and backgrounds in the image. The style should be creative and artistic. The background should be a solid, light color.".

Definition generateTypographicIllustration (phrase : string) : Client string :=
  let parts1 : list Part.t := [] in
  let parts2 := parts1 ++ [Part.mk None (Some (typographicPrompt phrase))] in
  response <- callGeminiImageModel parts2 ;;
  lift (extractImageData response).

(* ================================================================== *)
(** ** More of src/App.tsx and the components it renders *)
(* ================================================================== *)

(** [isGenerateDisabled], the [disabled] attribute of the Generate button,
    computed at every rendering from the cells as they are then. *)
Definition isGenerateDisabled (shown : Inputs) (s : AppState) : bool :=
  isLoading s
  || negb (truthy (modelImage shown))
  || (PoseGuidanceMode_eqb (poseGuidanceMode shown) mode_reference
      && negb (truthy (poseReferenceImage shown)))
  || (PoseGuidanceMode_eqb (poseGuidanceMode shown) mode_sketch
      && negb (truthy (poseSketchImage shown))).

(** [`${n}`] for a non-negative integer. *)
Definition decimal (n : nat) : string := NilZero.string_of_uint (Nat.to_uint n).

(** The progress line under the button, rendered while [isLoading]:
    [`Generated ${progress} of ${numVariations}`]. Both are read from the
    cells at rendering time: [shown] holds the controls as they are then,
    and the select of [numVariations] stays active during a run. *)
Definition progressLabel (shown : Inputs) (s : AppState) : option string :=
  if isLoading s
  then Some ("Generated " +++ decimal (progress s) +++ " of "
             +++ decimal (numVariations shown))
  else None.

(** What an [ImageCard] shows inside its frame. *)
Inductive CardChild : Type :=
| Spinner
| ErrorBox (message : option string)
    (* the heading "Generation Failed" and [image.error] under it *)
| Picture (src alt : string)
| DownloadButton (url : string).

(** The children of the card, in the order of the three conditional blocks
    of [ImageCard]. *)
Definition ImageCard (image : GeneratedImage.t) : list CardChild :=
  (match GeneratedImage.status image with
   | Pending => [Spinner]
   | _ => []
   end)
  ++ (match GeneratedImage.status image with
      | Error => [ErrorBox (GeneratedImage.error image)]
      | _ => []
      end)
  ++ (match GeneratedImage.status image with
      | Done =>
          if truthy (GeneratedImage.url image)
          then [Picture (str (GeneratedImage.url image))
                  ("Generated variation " +++ decimal (GeneratedImage.id image));
                DownloadButton (str (GeneratedImage.url image))]
          else []
      | _ => []
      end).

(** The gallery column: a grid of cards keyed by [image.id], or the
    placeholder when there is no image. *)
Inductive GalleryView : Type :=
| Placeholder
| Grid (cards : list (nat * list CardChild)).

Definition Gallery (s : AppState) : GalleryView :=
  if 0 <? length (generatedImages s)
  then Grid (map (fun image => (GeneratedImage.id image, ImageCard image))
               (generatedImages s))
  else Placeholder.

(* ================================================================== *)
(** ** More definitions used to state properties *)
(* ================================================================== *)

(** How the client call of a job settles when the remote model behaves as
    [remote]: the value [exec] computes for a [Settle]. *)
Definition jobOutcome (inp : Inputs) (promptText : option string) (remote : Remote)
  : Result string :=
  fst (run (generatePosedVariation (str (modelImage inp)) (guidanceFor inp promptText))
         remote).

(** The number of client calls that settle in a schedule. *)
Fixpoint settles (evs : list Event) : nat :=
  match evs with
  | [] => 0
  | Settle _ _ :: evs' => S (settles evs')
  | _ :: evs' => settles evs'
  end.

(** A data URI as [extractImageData] builds it. *)
Definition isDataUri (u : string) : Prop :=
  exists mime payload, u = "data:" +++ mime +++ ";base64," +++ payload.

(** The fields a gallery record carries, by status. *)
Definition wellFormed (img : GeneratedImage.t) : Prop :=
  match GeneratedImage.status img with
  | Pending => GeneratedImage.url img = None /\ GeneratedImage.error img = None
  | Done =>
      (exists u, GeneratedImage.url img = Some u /\ isDataUri u)
      /\ GeneratedImage.error img = None
  | Error =>
      GeneratedImage.url img = None /\ exists m, GeneratedImage.error img = Some m
  end.

(** The event [ev], run in [r], settles each job as [outcome] says. *)
Definition agrees (inp : Inputs) (outcome : nat -> Result string) (r : Run) (ev : Event)
  : Prop :=
  match ev with
  | Settle w remote =>
      forall i p, nth_error (workers r) w = Some (AwaitGenerate i p) ->
                  jobOutcome inp p remote = outcome i
  | _ => True
  end.

(** The states a run reaches when every job settles as [outcome] says, in
    whatever order. *)
Inductive reachableUnder (inp : Inputs) (outcome : nat -> Result string) (r0 : Run)
  : Run -> Prop :=
| under_start : reachableUnder inp outcome r0 r0
| under_step r ev r' :
    reachableUnder inp outcome r0 r -> agrees inp outcome r ev ->
    exec inp ev r = Some r' -> reachableUnder inp outcome r0 r'.

(** The record of job [i] once it has settled as [outcome i]. *)
Definition settledImage (outcome : nat -> Result string) (i : nat) : GeneratedImage.t :=
  publish i (outcome i) (GeneratedImage.mk i Pending None None).

Definition isSuspended (w : Worker) : bool :=
  match w with
  | AwaitGenerate _ _ | AwaitProcessNext _ => true
  | _ => false
  end.

(** The only text part of a request is its last part, behind inline images. *)
Definition imagesThenText (request : list Part.t) : Prop :=
  exists images prompt,
    request = images ++ [textPart prompt]
    /\ Forall (fun p => exists mime payload, p = imagePart mime payload) images.

(** The discipline every function of the service keeps: at most one request,
    whose only text part comes last behind inline images; no request means
    [InvalidInput]; a request means that the result is what the call threw or
    what extraction makes of the response. *)
Definition disciplined (c : Client string) : Prop :=
  forall remote,
    length (snd (run c remote)) <= 1
    /\ Forall imagesThenText (snd (run c remote))
    /\ (snd (run c remote) = [] -> fst (run c remote) = inl InvalidInput)
    /\ (forall request, snd (run c remote) = [request] ->
        fst (run c remote) = answerOf (remote request)).

(** A clause that is added when the optional argument is a non-empty string. *)
Definition whenSet (clause : string -> string) (v : option string) : string :=
  if truthy v then clause (str v) else EmptyString.

(* ================================================================== *)
(** ** Properties of the generation client *)
(* ================================================================== *)

Section Strings.

Lemma append_nil_r (s : string) : s +++ EmptyString = s.
Proof. induction s as [|c s IH]; simpl; [reflexivity | now rewrite IH]. Qed.

Lemma append_assoc (a b c : string) : (a +++ b) +++ c = a +++ b +++ c.
Proof. induction a as [|x a IH]; simpl; [reflexivity | now rewrite IH]. Qed.

Lemma append_inj_l (a x y : string) : a +++ x = a +++ y -> x = y.
Proof.
  induction a as [|c a IH]; simpl; intros H; [exact H|].
  injection H as H. auto.
Qed.

Lemma length_append (a b : string) :
  String.length (a +++ b) = String.length a + String.length b.
Proof. induction a as [|c a IH]; simpl; [reflexivity | now rewrite IH]. Qed.

Lemma append_inj_r (a b t : string) : a +++ t = b +++ t -> a = b.
Proof.
  revert b. induction a as [|c a IH]; intros [|d b] H; cbn [String.append] in H.
  - reflexivity.
  - apply (f_equal String.length) in H. cbn [String.length] in H.
    rewrite length_append in H. lia.
  - apply (f_equal String.length) in H. cbn [String.length] in H.
    rewrite length_append in H. lia.
  - injection H as -> H. f_equal. now apply IH.
Qed.

Lemma stripPrefix_append (p s : string) : stripPrefix p (p +++ s) = Some s.
Proof.
  induction p as [|c p IH]; simpl; [reflexivity|].
  now rewrite Ascii.eqb_refl.
Qed.

Lemma stripPrefix_inv (p s r : string) : stripPrefix p s = Some r -> s = p +++ r.
Proof.
  revert s; induction p as [|c p IH]; intros s H; simpl in *.
  - now injection H.
  - destruct s as [|d s]; [discriminate|].
    destruct (Ascii.eqb c d) eqn:E; [|discriminate].
    apply Ascii.eqb_eq in E; subst d. now rewrite (IH s H).
Qed.

(** A literal free of semicolons, followed by a semicolon, matches at the
    start of [m ; ...] only when it is [m], if [m] has no semicolon either. *)
Lemma stripPrefix_delimited (a m x y r : string) :
  noSemicolon a = true -> noSemicolon m = true ->
  stripPrefix (a +++ String ";" x) (m +++ String ";" y) = Some r -> a = m.
Proof.
  revert m; induction a as [|c a IH]; intros m Ha Hm H.
  - destruct m as [|d m]; [reflexivity|].
    cbn [stripPrefix String.append] in H.
    destruct (Ascii.eqb ";" d) eqn:E; [|discriminate].
    apply Ascii.eqb_eq in E; subst d. discriminate.
  - cbn [noSemicolon] in Ha. apply andb_true_iff in Ha as [Hc Ha].
    destruct m as [|d m]; cbn [stripPrefix String.append] in H.
    + destruct (Ascii.eqb c ";") eqn:E; [|discriminate].
      apply Ascii.eqb_eq in E; subst c. discriminate.
    + cbn [noSemicolon] in Hm. apply andb_true_iff in Hm as [_ Hm].
      destruct (Ascii.eqb c d) eqn:E; [|discriminate].
      apply Ascii.eqb_eq in E; subst d. f_equal. eauto.
Qed.

End Strings.

Section DataUrl.

Lemma matchAlternatives_sound alts rest m p :
  matchAlternatives alts rest = Some (m, p) ->
  In m alts /\ rest = m +++ ";base64," +++ p /\ dotStar p = true.
Proof.
  induction alts as [|a alts IH]; simpl; [discriminate|].
  destruct (stripPrefix (a +++ ";base64,") rest) as [payload|] eqn:E.
  - destruct (dotStar payload) eqn:D.
    + intros H; injection H as <- <-.
      apply stripPrefix_inv in E. rewrite append_assoc in E. auto.
    + intros H. destruct (IH H) as (? & ? & ?). auto.
  - intros H. destruct (IH H) as (? & ? & ?). auto.
Qed.

Lemma matchDataUrl_sound u m p :
  matchDataUrl u = Some (m, p) ->
  In m imageTypes /\ u = dataUrlOf m p /\ dotStar p = true.
Proof.
  unfold matchDataUrl, dataUrlOf.
  destruct (stripPrefix "data:" u) as [rest|] eqn:E; [|discriminate].
  intros H. apply matchAlternatives_sound in H as (Hin & -> & Hd).
  apply stripPrefix_inv in E. auto.
Qed.

Lemma matchDataUrl_complete m p :
  In m imageTypes -> dotStar p = true -> matchDataUrl (dataUrlOf m p) = Some (m, p).
Proof.
  intros Hin Hd. unfold matchDataUrl, dataUrlOf.
  rewrite stripPrefix_append.
  assert (E : stripPrefix (m +++ ";base64,") (m +++ ";base64," +++ p) = Some p).
  { rewrite <- append_assoc. apply stripPrefix_append. }
  simpl in Hin. destruct Hin as [<-|[<-|[<-|[]]]];
    cbn [imageTypes matchAlternatives].
  - rewrite E, Hd. reflexivity.
  - change (stripPrefix ("image/png" +++ ";base64,") ("image/jpeg" +++ ";base64," +++ p))
      with (@None string).
    rewrite E, Hd. reflexivity.
  - change (stripPrefix ("image/png" +++ ";base64,") ("image/webp" +++ ";base64," +++ p))
      with (@None string).
    change (stripPrefix ("image/jpeg" +++ ";base64,") ("image/webp" +++ ";base64," +++ p))
      with (@None string).
    rewrite E, Hd. reflexivity.
Qed.

(** [fileToGenerativePart] accepts exactly the data URLs of a supported image
    type whose payload has no line terminator, whatever the payload is. *)
Lemma fileToGenerativePart_accepts u part :
  fileToGenerativePart u = inr part <->
  exists m p, In m imageTypes /\ dotStar p = true /\ u = dataUrlOf m p
              /\ part = imagePart m p.
Proof.
  unfold fileToGenerativePart. split.
  - destruct (matchDataUrl u) as [[m p]|] eqn:E; [|discriminate].
    intros H; injection H as <-.
    apply matchDataUrl_sound in E as (? & ? & ?). exists m, p. auto.
  - intros (m & p & Hin & Hd & -> & ->).
    now rewrite (matchDataUrl_complete m p Hin Hd).
Qed.

Lemma fileToGenerativePart_rejects u :
  (forall m p, In m imageTypes -> dotStar p = true -> u <> dataUrlOf m p) ->
  fileToGenerativePart u = inl InvalidInput.
Proof.
  intros H. unfold fileToGenerativePart.
  destruct (matchDataUrl u) as [[m p]|] eqn:E; [|reflexivity].
  apply matchDataUrl_sound in E as (Hin & Hu & Hd).
  exfalso. exact (H m p Hin Hd Hu).
Qed.

Lemma noSemicolon_imageTypes a : In a imageTypes -> noSemicolon a = true.
Proof. intros [<-|[<-|[<-|[]]]]; reflexivity. Qed.

(** A declared type without semicolon that is not one of the three supported
    ones is refused, whatever the payload. *)
Lemma fileToGenerativePart_unsupported mime payload :
  noSemicolon mime = true -> ~ In mime imageTypes ->
  fileToGenerativePart (dataUrlOf mime payload) = inl InvalidInput.
Proof.
  intros Hs Hn. unfold fileToGenerativePart.
  destruct (matchDataUrl (dataUrlOf mime payload)) as [[m p]|] eqn:E; [|reflexivity].
  exfalso. apply Hn.
  unfold matchDataUrl, dataUrlOf in E. rewrite stripPrefix_append in E.
  assert (G : forall alts, (forall a, In a alts -> In a imageTypes) ->
            matchAlternatives alts (mime +++ ";base64," +++ payload) = Some (m, p) ->
            In mime imageTypes).
  { induction alts as [|a alts IH]; cbn [matchAlternatives]; intros Hal H; [discriminate|].
    destruct (stripPrefix (a +++ ";base64,") (mime +++ ";base64," +++ payload))
      as [r|] eqn:S.
    - assert (a = mime) as <-.
      { apply (stripPrefix_delimited a mime "base64," ("base64," +++ payload) r);
          [apply noSemicolon_imageTypes, Hal; left; reflexivity | exact Hs | exact S]. }
      apply Hal; left; reflexivity.
    - apply IH; [intros b Hb; apply Hal; right; exact Hb | exact H]. }
  apply (G imageTypes); auto.
Qed.

End DataUrl.

Section Client.

Variables (modelImage : string) (guidance : PoseGuidance.t) (remote : Remote).

Let theText := PoseGuidance.text guidance.
Let theReference := PoseGuidance.referenceImage guidance.
Let theSketch := PoseGuidance.sketchImage guidance.

Lemma generate_model_rejected e :
  fileToGenerativePart modelImage = inl e ->
  run (generatePosedVariation modelImage guidance) remote = (inl e, []).
Proof.
  intros H. cbv [run generatePosedVariation bind lift]. now rewrite H.
Qed.

Lemma generate_reference p :
  fileToGenerativePart modelImage = inr p ->
  truthy theReference = true ->
  match fileToGenerativePart (str theReference) with
  | inl e => run (generatePosedVariation modelImage guidance) remote = (inl e, [])
  | inr q =>
      let request :=
        [p; q; textPart (basePrompt +++ referenceGuidance +++ refinementOf theText)] in
      run (generatePosedVariation modelImage guidance) remote
      = (answerOf (remote request), [request])
  end.
Proof.
  subst theReference theText. intros Hp Hr.
  cbv [run generatePosedVariation bind lift ret callGeminiImageModel refinementOf].
  rewrite Hp, Hr.
  destruct (fileToGenerativePart (str (PoseGuidance.referenceImage guidance)))
    as [e|q]; [reflexivity|].
  cbn [orb andb app answerOf textPart].
  destruct (truthy (PoseGuidance.text guidance)
            && negb (trim (str (PoseGuidance.text guidance)) =? EmptyString)%string).
  - rewrite append_assoc. destruct (remote _); reflexivity.
  - rewrite append_nil_r. destruct (remote _); reflexivity.
Qed.

Lemma generate_sketch p :
  fileToGenerativePart modelImage = inr p ->
  truthy theReference = false ->
  truthy theSketch = true ->
  match fileToGenerativePart (str theSketch) with
  | inl e => run (generatePosedVariation modelImage guidance) remote = (inl e, [])
  | inr q =>
      let request :=
        [p; q; textPart (basePrompt +++ sketchGuidance +++ refinementOf theText)] in
      run (generatePosedVariation modelImage guidance) remote
      = (answerOf (remote request), [request])
  end.
Proof.
  subst theReference theSketch theText. intros Hp Hr Hs.
  cbv [run generatePosedVariation bind lift ret callGeminiImageModel refinementOf].
  rewrite Hp, Hr, Hs.
  destruct (fileToGenerativePart (str (PoseGuidance.sketchImage guidance)))
    as [e|q]; [reflexivity|].
  cbn [orb andb app answerOf textPart].
  destruct (truthy (PoseGuidance.text guidance)
            && negb (trim (str (PoseGuidance.text guidance)) =? EmptyString)%string).
  - rewrite append_assoc. destruct (remote _); reflexivity.
  - rewrite append_nil_r. destruct (remote _); reflexivity.
Qed.

Lemma generate_text p :
  fileToGenerativePart modelImage = inr p ->
  truthy theReference = false ->
  truthy theSketch = false ->
  let request :=
    [p; textPart (basePrompt +++
                  (if truthy theText then textGuidance (str theText) else EmptyString))] in
  run (generatePosedVariation modelImage guidance) remote
  = (answerOf (remote request), [request]).
Proof.
  subst theReference theSketch theText. intros Hp Hr Hs.
  cbv [run generatePosedVariation bind lift ret callGeminiImageModel].
  rewrite Hp, Hr, Hs.
  cbn [orb andb app answerOf textPart].
  destruct (truthy (PoseGuidance.text guidance)).
  - destruct (remote _); reflexivity.
  - rewrite append_nil_r. destruct (remote _); reflexivity.
Qed.

End Client.

Section ClientClaims.

Lemma extractImageData_loop_first before part after b :
  Forall (fun q => Part.inlineData q = None) before ->
  Part.inlineData part = Some b ->
  extractImageData_loop (before ++ part :: after)
  = Some ("data:" +++ mimeType b +++ ";base64," +++ data b).
Proof.
  intros Hb Hp. induction Hb as [|q before Hq _ IH]; simpl.
  - now rewrite Hp.
  - now rewrite Hq.
Qed.

Lemma extractImageData_loop_none ps :
  Forall (fun q => Part.inlineData q = None) ps -> extractImageData_loop ps = None.
Proof.
  induction 1 as [|q ps Hq _ IH]; simpl; [reflexivity | now rewrite Hq].
Qed.

(** C8. Extraction returns the first part that holds inline image data, as
    the data URI [data:<mime>;base64,<payload>]. When no part holds inline
    data and the stop reason is neither STOP nor MAX_TOKENS, it throws the
    [GenerationRefused] error, whose message spells the stop reason out, so
    that two such failures with the same error have the same stop reason;
    otherwise it throws the [NoImageProduced] error, which is a different
    one. *)
Theorem C8_extraction (response : GenerateContentResponse) :
  let refused reason :=
    ErrorObject ("Image generation stopped due to: " +++ reason
                 +++ ". Check safety ratings.") in
  let noImage :=
    ErrorObject "No image was generated. The model may have refused the request." in
  (forall before part after b,
      parts response = before ++ part :: after ->
      Forall (fun q => Part.inlineData q = None) before ->
      Part.inlineData part = Some b ->
      extractImageData response
      = inr ("data:" +++ mimeType b +++ ";base64," +++ data b))
  /\ (Forall (fun q => Part.inlineData q = None) (parts response) ->
      (finishReason response <> "STOP" -> finishReason response <> "MAX_TOKENS" ->
       extractImageData response = inl (refused (finishReason response))
       /\ refused (finishReason response) = GenerationRefused (finishReason response)
       /\ refused (finishReason response) <> noImage
       /\ forall response',
            Forall (fun q => Part.inlineData q = None) (parts response') ->
            extractImageData response' = extractImageData response ->
            finishReason response' = finishReason response)
      /\ (finishReason response = "STOP" \/ finishReason response = "MAX_TOKENS" ->
          extractImageData response = inl noImage /\ noImage = NoImageProduced)).
Proof.
  intros refused noImage. unfold extractImageData. split.
  - intros before part after b -> Hb Hp.
    now rewrite (extractImageData_loop_first before part after b Hb Hp).
  - intros Hn. rewrite (extractImageData_loop_none _ Hn). split.
    + intros H1 H2. apply String.eqb_neq in H1, H2. rewrite H1, H2. cbn [negb andb].
      split; [reflexivity|]. split; [reflexivity|]. split; [discriminate|].
      intros response' Hn'. rewrite (extractImageData_loop_none _ Hn').
      destruct (negb (finishReason response' =? "STOP")%string
                && negb (finishReason response' =? "MAX_TOKENS")%string);
        [|discriminate].
      intros E. injection E as E. unfold GenerationRefused in E.
      now apply append_inj_r in E.
    + intros [H|H]; rewrite H; split; reflexivity.
Qed.

(** C8 on three responses: an image after a text part, a refusal for SAFETY,
    and no image with STOP. *)
Lemma C8_extraction_witness :
  extractImageData
    {| parts := [textPart "Here is the image."; imagePart "image/png" "AAA=";
                 imagePart "image/jpeg" "BBB="];
       finishReason := "STOP" |}
  = inr "data:image/png;base64,AAA="
  /\ extractImageData {| parts := [textPart "I cannot."]; finishReason := "SAFETY" |}
     = inl (ErrorObject "Image generation stopped due to: SAFETY. Check safety ratings.")
  /\ extractImageData {| parts := []; finishReason := "STOP" |}
     = inl (ErrorObject "No image was generated. The model may have refused the request.").
Proof.
  split; [|split].
  - apply (proj1 (C8_extraction _)
             [textPart "Here is the image."] (imagePart "image/png" "AAA=")
             [imagePart "image/jpeg" "BBB="] {| data := "AAA="; mimeType := "image/png" |});
      [reflexivity | repeat constructor | reflexivity].
  - destruct (proj2 (C8_extraction
                        {| parts := [textPart "I cannot."]; finishReason := "SAFETY" |}))
      as (H & _); [repeat constructor|].
    destruct H as (H & _); [discriminate | discriminate |]. exact H.
  - destruct (proj2 (C8_extraction {| parts := []; finishReason := "STOP" |}))
      as (_ & H); [constructor|].
    destruct H as (H & _); [left; reflexivity|]. exact H.
Defined.

(** C9, as stated, fails: a PNG data URL whose payload is not base64 is
    accepted, the request is sent and the call succeeds. *)
Lemma C9_counterexample :
  isBase64 "!!!" = false
  /\ run (generatePosedVariation (dataUrlOf "image/png" "!!!")
            (PoseGuidance.mk None None None)) remoteOk
     = (inr "data:image/png;base64,QQ==",
        [[imagePart "image/png" "!!!"; textPart basePrompt]]).
Proof. split; reflexivity. Qed.

(** C9, amended. A source image that is not a data URL of type image/png,
    image/jpeg or image/webp with a payload free of line terminators makes the
    client throw [InvalidInput] with no request sent; so does, in particular,
    every data URL that declares another type. The payload is not looked at
    otherwise: any such URL of a supported type is accepted. *)
Theorem C9_invalid_source_image (modelImage : string) (guidance : PoseGuidance.t)
  (remote : Remote) :
  ((forall m p, In m imageTypes -> dotStar p = true -> modelImage <> dataUrlOf m p) ->
   run (generatePosedVariation modelImage guidance) remote = (inl InvalidInput, []))
  /\ (forall mime payload,
        modelImage = dataUrlOf mime payload ->
        noSemicolon mime = true -> ~ In mime imageTypes ->
        run (generatePosedVariation modelImage guidance) remote = (inl InvalidInput, []))
  /\ (forall mime payload,
        modelImage = dataUrlOf mime payload ->
        In mime imageTypes -> dotStar payload = true ->
        fileToGenerativePart modelImage = inr (imagePart mime payload)).
Proof.
  split; [|split].
  - intros H. apply generate_model_rejected, fileToGenerativePart_rejects, H.
  - intros mime payload -> Hs Hn.
    apply generate_model_rejected, fileToGenerativePart_unsupported; assumption.
  - intros mime payload -> Hin Hd.
    apply fileToGenerativePart_accepts. exists mime, payload. auto.
Qed.

(** C9 on a GIF data URL, refused, and on a WebP data URL whose payload is
    not base64, accepted. *)
Lemma C9_invalid_source_image_witness :
  run (generatePosedVariation (dataUrlOf "image/gif" "AAA=")
         (PoseGuidance.mk (Some "a side profile") None None)) remoteOk
  = (inl InvalidInput, [])
  /\ fileToGenerativePart (dataUrlOf "image/webp" "not base64")
     = inr (imagePart "image/webp" "not base64").
Proof.
  split.
  - apply (proj1 (proj2 (C9_invalid_source_image _ _ _)) "image/gif" "AAA=");
      [reflexivity | reflexivity |].
    simpl. intros [H|[H|[H|[]]]]; discriminate H.
  - apply (proj2 (proj2 (C9_invalid_source_image _
                           (PoseGuidance.mk None None None) remoteOk))
             "image/webp" "not base64");
      [reflexivity | simpl; auto | reflexivity].
Defined.

(** An instruction that holds one space is set and blank: in reference
    mode nothing is appended to the fixed guidance text. *)
Example blank_instruction_adds_nothing :
  snd (run (generatePosedVariation examplePng
              (PoseGuidance.mk (Some " ") (Some examplePng) None)) remoteOk)
  = [[imagePart "image/png" "AAA="; imagePart "image/png" "AAA=";
      textPart (basePrompt +++ referenceGuidance)]]
  /\ basePrompt +++ referenceGuidance
     <> basePrompt +++ referenceGuidance +++ refinementClause " ".
Proof.
  split; [reflexivity|].
  intros H. apply append_inj_l in H.
  rewrite <- (append_nil_r referenceGuidance) in H at 1.
  apply append_inj_l in H. discriminate H.
Qed.

Lemma refinementOf_spelled (t : option string) :
  refinementOf t
  = match t with
    | Some c =>
        if (trim c =? EmptyString)%string then EmptyString
        else nl +++ "**Refinement:** Additionally, apply the following style: "
             +++ dq +++ c +++ dq +++ "."
    | None => EmptyString
    end.
Proof.
  unfold refinementOf. destruct t as [c|]; [|reflexivity]. cbn [str].
  destruct (trim c =? EmptyString)%string eqn:E.
  - now rewrite andb_false_r.
  - destruct c as [|a c]; [discriminate E | reflexivity].
Qed.

(** C6. In every call whose images are accepted, the one request sent is:
    the source model image; then, iff the reference or the sketch is set,
    exactly one guidance image (the reference if set, else the sketch); then
    exactly one text part, last. With a guidance image, the text is the fixed
    template, the fixed guidance of that image and then, when the custom
    instruction is not blank (not empty once trimmed), the instruction
    between quotes as a separate refinement clause; a blank instruction adds
    nothing. Without a guidance image the text carries the instruction in the
    pose-guidance clause and no refinement clause. *)
Theorem C6_parts_order (modelImage : string) (guidance : PoseGuidance.t)
  (remote : Remote) (p : Part.t) :
  fileToGenerativePart modelImage = inr p ->
  let t := PoseGuidance.text guidance in
  let r := PoseGuidance.referenceImage guidance in
  let s := PoseGuidance.sketchImage guidance in
  let sent := snd (run (generatePosedVariation modelImage guidance) remote) in
  let clause c :=
    nl +++ "**Refinement:** Additionally, apply the following style: "
    +++ dq +++ c +++ dq +++ "." in
  let refinement :=
    match t with
    | Some c => if (trim c =? EmptyString)%string then EmptyString else clause c
    | None => EmptyString
    end in
  let referenceText :=
    nl +++ "**Pose Guidance:** The second image provided is a pose reference. Re-create the person from the primary model image in the exact pose shown in the reference image. The identity and clothing must come from the primary model image; ONLY the pose comes from the reference image." in
  let sketchText :=
    nl +++ "**Pose Guidance:** The second image provided is a sketch. Re-create the person from the primary model image following the pose and composition outlined in the sketch. The identity and clothing must come from the primary model image." in
  (exists mime payload, p = imagePart mime payload)
  /\ (truthy r = true -> forall q, fileToGenerativePart (str r) = inr q ->
      (exists mime payload, q = imagePart mime payload)
      /\ sent = [[p; q; textPart (basePrompt +++ referenceText +++ refinement)]])
  /\ (truthy r = false -> truthy s = true ->
      forall q, fileToGenerativePart (str s) = inr q ->
      (exists mime payload, q = imagePart mime payload)
      /\ sent = [[p; q; textPart (basePrompt +++ sketchText +++ refinement)]])
  /\ (truthy r = false -> truthy s = false ->
      sent = [[p; textPart
                    (basePrompt +++
                     (if truthy t
                      then nl +++ "**Pose Guidance:** Re-create the person in this specific pose/style: "
                           +++ dq +++ str t +++ dq
                      else EmptyString))]])
  /\ (forall c, t = Some c -> trim c <> EmptyString ->
      refinement = clause c /\ refinement <> EmptyString)
  /\ (forall c, t = Some c -> trim c = EmptyString -> refinement = EmptyString).
Proof.
  intros Hp t r s sent clause refinement referenceText sketchText.
  subst sent.
  assert (R : refinementOf t = refinement) by apply refinementOf_spelled.
  assert (Himg : forall u q, fileToGenerativePart u = inr q ->
                 exists mime payload, q = imagePart mime payload).
  { intros u q H. apply fileToGenerativePart_accepts in H as (m & x & _ & _ & _ & ->).
    eauto. }
  split; [eauto|]. split; [|split; [|split; [|split]]].
  - intros Hr q Hq. split; [eauto|].
    pose proof (generate_reference modelImage guidance remote p Hp Hr) as G.
    fold r in G. rewrite Hq in G. cbv zeta in G. rewrite G. fold t. now rewrite R.
  - intros Hr Hs q Hq. split; [eauto|].
    pose proof (generate_sketch modelImage guidance remote p Hp Hr Hs) as G.
    fold s in G. rewrite Hq in G. cbv zeta in G. rewrite G. fold t. now rewrite R.
  - intros Hr Hs.
    pose proof (generate_text modelImage guidance remote p Hp Hr Hs) as G.
    cbv zeta in G. now rewrite G.
  - intros c Hc Hn. subst refinement. rewrite Hc.
    rewrite (proj2 (String.eqb_neq _ _) Hn). split; [reflexivity | discriminate].
  - intros c Hc Hn. subst refinement. rewrite Hc, Hn. reflexivity.
Qed.

(** C6 on a sketch with the instruction [soft light]. *)
Lemma C6_parts_order_witness :
  snd (run (generatePosedVariation examplePng
              (PoseGuidance.mk (Some "soft light") None (Some examplePng))) remoteOk)
  = [[imagePart "image/png" "AAA="; imagePart "image/png" "AAA=";
      textPart (basePrompt +++ nl
                +++ "**Pose Guidance:** The second image provided is a sketch. Re-create the person from the primary model image following the pose and composition outlined in the sketch. The identity and clothing must come from the primary model image."
                +++ nl +++ "**Refinement:** Additionally, apply the following style: "
                +++ dq +++ "soft light" +++ dq +++ ".")]].
Proof.
  apply (proj1 (proj2 (proj2 (C6_parts_order examplePng
            (PoseGuidance.mk (Some "soft light") None (Some examplePng)) remoteOk
            (imagePart "image/png" "AAA=") eq_refl))) eq_refl eq_refl
            (imagePart "image/png" "AAA=") eq_refl).
Defined.

End ClientClaims.

Section ReferenceOverSketch.

Lemma fixed_guidance_is_not_text_guidance fixed tail x rest :
  fixed = referenceGuidance \/ fixed = sketchGuidance ->
  basePrompt +++ fixed +++ tail <> basePrompt +++ textGuidance x +++ rest.
Proof.
  intros Hf H. apply append_inj_l in H.
  destruct Hf as [-> | ->]; cbv in H; discriminate H.
Qed.

(** C10. When the reference image is set, a sketch supplied with it changes
    nothing: the call behaves as without the sketch, the request holds the
    model image, the reference image and the reference-mode text. Whenever a
    guidance image is set, the text of every request is the fixed template,
    the fixed guidance of that image and the optional refinement clause, so
    [guidance.text] never fills the pose-guidance clause. *)
Theorem C10_reference_over_sketch (modelImage : string) (guidance : PoseGuidance.t)
  (remote : Remote) :
  let t := PoseGuidance.text guidance in
  let r := PoseGuidance.referenceImage guidance in
  let s := PoseGuidance.sketchImage guidance in
  let sent := snd (run (generatePosedVariation modelImage guidance) remote) in
  (truthy r = true ->
   run (generatePosedVariation modelImage guidance) remote
   = run (generatePosedVariation modelImage (PoseGuidance.mk t r None)) remote
   /\ forall p q, fileToGenerativePart modelImage = inr p ->
                  fileToGenerativePart (str r) = inr q ->
                  sent = [[p; q; textPart (basePrompt +++ referenceGuidance
                                           +++ refinementOf t)]])
  /\ (truthy r || truthy s = true ->
      forall request, In request sent ->
      exists p q fixed,
        (fixed = referenceGuidance \/ fixed = sketchGuidance)
        /\ request = [p; q; textPart (basePrompt +++ fixed +++ refinementOf t)]
        /\ forall x rest,
            basePrompt +++ fixed +++ refinementOf t
            <> basePrompt +++ textGuidance x +++ rest).
Proof.
  intros t r s sent. subst sent. split.
  - intros Hr. split.
    + subst t r s.
      cbv [run generatePosedVariation bind lift ret callGeminiImageModel].
      cbn [PoseGuidance.text PoseGuidance.referenceImage PoseGuidance.sketchImage].
      rewrite Hr. reflexivity.
    + intros p q Hp Hq.
      pose proof (generate_reference modelImage guidance remote p Hp Hr) as G.
      fold r in G. rewrite Hq in G. cbv zeta in G. now rewrite G.
  - intros Hrs request Hin.
    destruct (fileToGenerativePart modelImage) as [e|p] eqn:Hp.
    { rewrite (generate_model_rejected modelImage guidance remote e Hp) in Hin.
      destruct Hin. }
    destruct (truthy r) eqn:Hr.
    + pose proof (generate_reference modelImage guidance remote p Hp Hr) as G.
      fold r in G. destruct (fileToGenerativePart (str r)) as [e|q].
      * rewrite G in Hin. destruct Hin.
      * cbv zeta in G. rewrite G in Hin. destruct Hin as [<-|[]].
        exists p, q, referenceGuidance. split; [auto|]. split; [reflexivity|].
        intros x rest. apply fixed_guidance_is_not_text_guidance; auto.
    + cbn [orb] in Hrs.
      pose proof (generate_sketch modelImage guidance remote p Hp Hr Hrs) as G.
      fold s in G. destruct (fileToGenerativePart (str s)) as [e|q].
      * rewrite G in Hin. destruct Hin.
      * cbv zeta in G. rewrite G in Hin. destruct Hin as [<-|[]].
        exists p, q, sketchGuidance. split; [auto|]. split; [reflexivity|].
        intros x rest. apply fixed_guidance_is_not_text_guidance; auto.
Qed.

(** C10 on a call that supplies both a reference image and a sketch. *)
Lemma C10_reference_over_sketch_witness :
  snd (run (generatePosedVariation examplePng
              (PoseGuidance.mk (Some "arms crossed") (Some examplePng)
                 (Some (dataUrlOf "image/jpeg" "BBB=")))) remoteOk)
  = [[imagePart "image/png" "AAA="; imagePart "image/png" "AAA=";
      textPart (basePrompt +++ referenceGuidance +++ refinementClause "arms crossed")]].
Proof.
  apply (proj2 (proj1 (C10_reference_over_sketch examplePng
            (PoseGuidance.mk (Some "arms crossed") (Some examplePng)
               (Some (dataUrlOf "image/jpeg" "BBB="))) remoteOk) eq_refl)
           (imagePart "image/png" "AAA=") (imagePart "image/png" "AAA=")
           eq_refl eq_refl).
Defined.

End ReferenceOverSketch.

(* ================================================================== *)
(** ** Properties of the dispatcher *)
(* ================================================================== *)

Section Lists.

Context {A : Type}.

Lemma update_length (l : list A) i x : length (update l i x) = length l.
Proof.
  revert i; induction l as [|h t IH]; intros [|i]; simpl; auto.
Qed.

Lemma nth_error_update_split (l : list A) i x :
  nth_error l i = Some x ->
  exists pre post, l = pre ++ x :: post /\ length pre = i
                   /\ forall y, update l i y = pre ++ y :: post.
Proof.
  revert i; induction l as [|h t IH]; intros [|i] H; simpl in H; try discriminate.
  - injection H as ->. exists [], t. auto.
  - destruct (IH i H) as (pre & post & -> & <- & Hu).
    exists (h :: pre), post. repeat split; auto.
    intros y. simpl. now rewrite Hu.
Qed.

Lemma nth_error_update_same (l : list A) i x y :
  nth_error l i = Some y -> nth_error (update l i x) i = Some x.
Proof.
  revert i; induction l as [|h t IH]; intros [|i] H; simpl in *; try discriminate; auto.
Qed.

Lemma skipn_cons_inv (l : list A) m x rest :
  skipn m l = x :: rest -> nth_error l m = Some x /\ rest = skipn (S m) l.
Proof.
  revert m; induction l as [|h t IH]; intros [|m] H; simpl in *; try discriminate.
  - injection H as -> ->. auto.
  - apply IH in H. exact H.
Qed.

Lemma entries_nth (arr : list A) i x :
  nth_error (entries arr) i = Some x -> fst x = i /\ nth_error arr i = Some (snd x).
Proof.
  unfold entries.
  assert (G : forall (l : list A) a i x,
             nth_error (combine (seq a (length l)) l) i = Some x ->
             fst x = a + i /\ nth_error l i = Some (snd x)).
  { clear. induction l as [|h t IH]; intros a [|i] x H; simpl in H; try discriminate.
    - injection H as <-. simpl. split; [lia | reflexivity].
    - apply IH in H as [H1 H2]. simpl. split; [lia | exact H2]. }
  intros H. apply G in H. exact H.
Qed.

Lemma entries_length (arr : list A) : length (entries arr) = length arr.
Proof.
  unfold entries. rewrite length_combine, length_seq. apply Nat.min_id.
Qed.

End Lists.

Section InFlight.

Lemma inFlight_app a b : inFlight (a ++ b) = inFlight a ++ inFlight b.
Proof.
  induction a as [|[i p| |  |] a IH]; simpl; auto. now rewrite IH.
Qed.

Lemma inFlight_length ws : length (inFlight ws) <= length ws.
Proof.
  induction ws as [|[i p| | |] ws IH]; simpl; lia.
Qed.

Lemma inFlight_In ws i : In i (inFlight ws) <-> exists p, In (AwaitGenerate i p) ws.
Proof.
  induction ws as [|w ws IH]; simpl.
  - split; [tauto | intros [? []]].
  - destruct w as [j q| | |]; simpl; rewrite ?IH.
    + split.
      * intros [->|[p H]]; eauto.
      * intros [p [H|H]]; [injection H as -> _; auto | eauto].
    + split; [intros [p H]; eauto | intros [p [H|H]]; [discriminate | eauto]].
    + split; [intros [p H]; eauto | intros [p [H|H]]; [discriminate | eauto]].
    + split; [intros [p H]; eauto | intros [p [H|H]]; [discriminate | eauto]].
Qed.

Lemma inFlight_fulfilled ws : forallb isFulfilled ws = true -> inFlight ws = [].
Proof.
  induction ws as [|[i p| | |] ws IH]; simpl; auto; discriminate.
Qed.

End InFlight.

Section Invariant.

Variable prompts : list (option string).

Lemma shared_inv_remove pre x post s :
  inFlight [x] = [] ->
  SharedInv prompts (pre ++ x :: post) s -> SharedInv prompts (pre ++ post) s.
Proof.
  intros Hx [Hc Hb Hq Hi Hn Hf Hp Hcnt Ht Hpr Hh Hd Hpm].
  assert (E : inFlight (pre ++ x :: post) = inFlight (pre ++ post)).
  { change (x :: post) with ([x] ++ post).
    now rewrite !inFlight_app, Hx. }
  rewrite E in *.
  constructor; auto.
  - rewrite forallb_app in *. cbn [forallb] in Hh.
    apply andb_true_iff in Hh as [H1 H2]. apply andb_true_iff in H2 as [_ H2].
    now rewrite H1, H2.
  - intros H. apply Hd. rewrite existsb_app in *. cbn [existsb].
    apply orb_true_iff in H as [H|H]; rewrite H;
      [reflexivity | now rewrite !orb_true_r].
  - intros i p H. apply Hpm. apply in_app_iff in H. apply in_app_iff. simpl. tauto.
Qed.

Lemma shared_inv_insert_fulfilled pre post s :
  queue s = [] ->
  SharedInv prompts (pre ++ post) s -> SharedInv prompts (pre ++ Fulfilled :: post) s.
Proof.
  intros Q [Hc Hb Hq Hi Hn Hf Hp Hcnt Ht Hpr Hh Hd Hpm].
  assert (E : inFlight (pre ++ Fulfilled :: post) = inFlight (pre ++ post)).
  { change (Fulfilled :: post) with ([Fulfilled] ++ post).
    now rewrite !inFlight_app. }
  constructor; rewrite ?E; auto.
  - rewrite forallb_app in *. cbn [forallb healthy]. exact Hh.
  - intros i p H. apply Hpm. apply in_app_iff in H. apply in_app_iff.
    destruct H as [H|[H|H]]; [auto | discriminate | auto].
Qed.

Lemma worker_loop_inv pre post w s wk s' :
  SharedInv prompts (pre ++ post) s ->
  worker_loop w s = (wk, s') ->
  SharedInv prompts (pre ++ wk :: post) s' /\ app s' = app s
  /\ completedCount s' = completedCount s.
Proof.
  intros I. unfold worker_loop, processNext_start.
  destruct (queue s) as [|[i p] rest] eqn:Q; cbn [length Nat.ltb Nat.leb].
  { intros H; injection H as <- <-.
    split; [now apply shared_inv_insert_fulfilled | auto]. }
  intros H; injection H as <- <-. split; [|auto].
  destruct I as [Hc Hb Hq Hi Hn Hf Hp Hcnt Ht Hpr Hh Hd Hpm].
  rewrite Q in Hq. symmetry in Hq.
  apply skipn_cons_inv in Hq as [Hnth Hrest].
  apply entries_nth in Hnth as [Hi' Hp']. cbn [fst snd] in Hi', Hp'. subst i.
  set (m := length (claimed s)) in *.
  assert (Hm : m < length prompts) by (apply nth_error_Some; congruence).
  assert (E : inFlight (pre ++ AwaitGenerate m p :: post)
              = inFlight pre ++ m :: inFlight post).
  { change (AwaitGenerate m p :: post) with ([AwaitGenerate m p] ++ post).
    now rewrite !inFlight_app. }
  assert (L : length (claimed s ++ [(w, m)]) = S m).
  { rewrite length_app. simpl. fold m. lia. }
  rewrite inFlight_app in Hn, Hf, Hp, Ht.
  constructor; cbn [claimed queue app completedCount]; rewrite ?L, ?E; auto.
  - rewrite map_app, seq_S, Hc. reflexivity.
  - apply (NoDup_Add (a := m) (l := inFlight pre ++ inFlight post)).
    + apply Add_app.
    + split; [exact Hn|]. intros H. apply Hf in H. lia.
  - intros j Hj. apply in_app_iff in Hj. cbn [In] in Hj.
    assert (In j (inFlight pre ++ inFlight post) \/ j = m) as [H| ->].
    { rewrite in_app_iff. destruct Hj as [H|[H|H]]; auto. }
    + apply Hf in H. lia.
    + lia.
  - intros img Himg. rewrite (Hp img Himg). rewrite !in_app_iff. cbn [In].
    destruct (Nat.eq_dec (GeneratedImage.id img) m) as [e|n].
    + split; intros _; [right; right; left; auto | left; lia].
    + split.
      * intros [H|[H|H]]; [left; lia | auto | auto].
      * intros [H|[H|[H|H]]]; [left; lia | auto | exfalso; auto | auto].
  - rewrite length_app in *. simpl. lia.
  - rewrite forallb_app in *. cbn [forallb healthy]. exact Hh.
  - rewrite existsb_app in *. cbn [existsb isFulfilled orb]. intros H.
    apply Hd in H. rewrite Q in H. discriminate.
  - intros i q H. apply in_app_iff in H. destruct H as [H|[H|H]].
    + apply Hpm, in_app_iff; auto.
    + injection H as <- <-. exact Hp'.
    + apply Hpm, in_app_iff; auto.
Qed.

Lemma map_unmarked (f : GeneratedImage.t -> GeneratedImage.t) i imgs :
  (forall img, GeneratedImage.id img <> i -> f img = img) ->
  ~ In i (map GeneratedImage.id imgs) ->
  map f imgs = imgs.
Proof.
  intros Hf. induction imgs as [|h t IH]; simpl; intros H; [reflexivity|].
  rewrite Hf by tauto. rewrite IH by tauto. reflexivity.
Qed.

Lemma countSettled_mark (f : GeneratedImage.t -> GeneratedImage.t) i imgs :
  (forall img, GeneratedImage.id img <> i -> f img = img) ->
  (forall img, GeneratedImage.id img = i -> isPending (f img) = false) ->
  NoDup (map GeneratedImage.id imgs) ->
  (exists img, In img imgs /\ GeneratedImage.id img = i /\ isPending img = true) ->
  countSettled (map f imgs) = S (countSettled imgs).
Proof.
  intros Hf Hg. unfold countSettled.
  induction imgs as [|h t IH]; simpl; intros Hnd (img & Hin & Hid & Hpend).
  { destruct Hin. }
  apply NoDup_cons_iff in Hnd as [Hnot Hnd'].
  destruct (Nat.eq_dec (GeneratedImage.id h) i) as [e|n].
  - assert (img = h) as ->.
    { destruct Hin as [H|H]; [auto|]. exfalso. apply Hnot. rewrite e, <- Hid.
      now apply in_map. }
    rewrite Hpend, (Hg h e). cbn [negb length].
    rewrite (map_unmarked f i t Hf); [reflexivity | now rewrite <- e].
  - rewrite (Hf h n). destruct Hin as [H|H]; [congruence|].
    destruct (negb (isPending h)); cbn [length]; rewrite IH; eauto.
Qed.

Lemma mark_inv pre post i p (f : GeneratedImage.t -> GeneratedImage.t) s :
  (forall img, GeneratedImage.id img <> i -> f img = img) ->
  (forall img, GeneratedImage.id img = i ->
               GeneratedImage.id (f img) = i /\ isPending (f img) = false) ->
  SharedInv prompts (pre ++ AwaitGenerate i p :: post) s ->
  SharedInv prompts (pre ++ AwaitProcessNext (inr tt) :: post)
    {| app := {| generatedImages := map f (generatedImages (app s));
                 isLoading := isLoading (app s);
                 error := error (app s);
                 progress := S (completedCount s) |};
       completedCount := S (completedCount s);
       queue := queue s;
       claimed := claimed s |}.
Proof.
  intros Hf Hg [Hc Hb Hq Hi Hn Hfl Hp Hcnt Ht Hpr Hh Hd Hpm].
  assert (E1 : inFlight (pre ++ AwaitGenerate i p :: post)
               = inFlight pre ++ i :: inFlight post).
  { change (AwaitGenerate i p :: post) with ([AwaitGenerate i p] ++ post).
    now rewrite !inFlight_app. }
  assert (E2 : inFlight (pre ++ AwaitProcessNext (inr tt) :: post)
               = inFlight pre ++ inFlight post).
  { change (AwaitProcessNext (inr tt) :: post)
      with ([AwaitProcessNext (inr tt)] ++ post).
    now rewrite !inFlight_app. }
  rewrite E1 in *.
  assert (Hlt : i < length (claimed s)).
  { apply Hfl, in_app_iff. right; left; reflexivity. }
  assert (Hout : ~ In i (inFlight pre ++ inFlight post)) by now apply NoDup_remove_2.
  assert (Hid : forall img, GeneratedImage.id (f img) = GeneratedImage.id img).
  { intros img. destruct (Nat.eq_dec (GeneratedImage.id img) i) as [e|n].
    - rewrite e. now apply Hg.
    - now rewrite Hf. }
  constructor; cbn [claimed queue app completedCount generatedImages progress];
    rewrite ?E2; auto.
  - rewrite map_map. rewrite <- Hi. apply map_ext. exact Hid.
  - now apply NoDup_remove_1 in Hn.
  - intros j Hj. apply Hfl. apply in_app_iff in Hj. apply in_app_iff.
    destruct Hj; [left | right; right]; assumption.
  - intros img' Hin. apply in_map_iff in Hin as (img & <- & Hin).
    destruct (Nat.eq_dec (GeneratedImage.id img) i) as [e|n].
    + destruct (Hg img e) as [-> ->]. split; [discriminate|].
      intros [H|H]; [lia | contradiction].
    + rewrite (Hf img n), (Hp img Hin), !in_app_iff. cbn [In].
      split.
      * intros [H|[H|[H|H]]]; auto. congruence.
      * intros [H|[H|H]]; auto.
  - rewrite <- Hcnt. apply (countSettled_mark f i).
    + exact Hf.
    + intros img e. now apply Hg.
    + rewrite Hi. apply seq_NoDup.
    + assert (Hin : In i (map GeneratedImage.id (generatedImages (app s)))).
      { rewrite Hi. apply in_seq. lia. }
      apply in_map_iff in Hin as (img & Hid' & Hin).
      exists img. repeat split; auto.
      apply (Hp img Hin). right. rewrite Hid'. apply in_app_iff.
      right; left; reflexivity.
  - rewrite length_app in *. cbn [length] in Ht. lia.
  - rewrite forallb_app in *. exact Hh.
  - rewrite existsb_app in *. exact Hd.
  - intros j q H. apply Hpm. apply in_app_iff in H. apply in_app_iff.
    destruct H as [H|[H|H]]; [auto | discriminate | right; right; exact H].
Qed.

Lemma markDone_spec i u :
  (forall img, GeneratedImage.id img <> i -> markDone i u img = img)
  /\ (forall img, GeneratedImage.id img = i ->
        GeneratedImage.id (markDone i u img) = i /\ isPending (markDone i u img) = false).
Proof.
  unfold markDone. split; intros img H.
  - apply Nat.eqb_neq in H. now rewrite H.
  - rewrite (proj2 (Nat.eqb_eq _ _) H). auto.
Qed.

Lemma markError_spec i msg :
  (forall img, GeneratedImage.id img <> i -> markError i msg img = img)
  /\ (forall img, GeneratedImage.id img = i ->
        GeneratedImage.id (markError i msg img) = i
        /\ isPending (markError i msg img) = false).
Proof.
  unfold markError. split; intros img H.
  - apply Nat.eqb_neq in H. now rewrite H.
  - rewrite (proj2 (Nat.eqb_eq _ _) H). auto.
Qed.

(** The [try / catch / finally] of [processNext] catches everything: its
    promise is fulfilled whatever the client did. *)
Lemma processNext_continue_eq i settled s :
  processNext_continue i settled s
  = (inr tt,
     {| app := {| generatedImages := map (publish i settled) (generatedImages (app s));
                  isLoading := isLoading (app s);
                  error := error (app s);
                  progress := S (completedCount s) |};
        completedCount := S (completedCount s);
        queue := queue s;
        claimed := claimed s |}).
Proof. destruct settled; reflexivity. Qed.

Lemma processNext_continue_inv pre post i p settled s res s' :
  SharedInv prompts (pre ++ AwaitGenerate i p :: post) s ->
  processNext_continue i settled s = (res, s') ->
  res = inr tt /\ SharedInv prompts (pre ++ AwaitProcessNext (inr tt) :: post) s'.
Proof.
  intros I. rewrite processNext_continue_eq. intros H; injection H as <- <-.
  split; [reflexivity|].
  destruct settled as [e|u]; cbn [publish].
  - apply mark_inv with (i := i) (p := p); auto; apply markError_spec.
  - apply mark_inv with (i := i) (p := p); auto; apply markDone_spec.
Qed.

Lemma shared_inv_setIsLoading b ws s :
  SharedInv prompts ws s -> SharedInv prompts ws (setIsLoading b s).
Proof. intros [? ? ? ? ? ? ? ? ? ? ? ? ?]. constructor; assumption. Qed.

End Invariant.

Section Run.

Variables (inp : Inputs) (prompts : list (option string)) (limit : nat).

Lemma launch_inv n : forall w pre s ws s',
  SharedInv prompts pre s -> launch n w s = (ws, s') ->
  SharedInv prompts (pre ++ ws) s' /\ length ws = n /\ app s' = app s
  /\ completedCount s' = completedCount s.
Proof.
  induction n as [|n IH]; intros w pre s ws s' I; cbn [launch].
  - intros H; injection H as <- <-. rewrite app_nil_r. auto.
  - destruct (worker_loop w s) as [wk s1] eqn:W.
    destruct (launch n (S w) s1) as [wks s2] eqn:L.
    intros H; injection H as <- <-.
    rewrite <- (app_nil_r pre) in I.
    destruct (worker_loop_inv prompts pre [] w s wk s1 I W) as (I1 & A1 & C1).
    destruct (IH (S w) (pre ++ [wk]) s1 wks s2 I1 L) as (I2 & Hl & A2 & C2).
    rewrite <- app_assoc in I2. cbn [app] in I2.
    split; [exact I2|]. split; [simpl; lia|]. split; congruence.
Qed.

Lemma forallb_nth_error {A} (f : A -> bool) l i x :
  forallb f l = true -> nth_error l i = Some x -> f x = true.
Proof.
  intros H Hn. rewrite forallb_forall in H. apply H. eapply nth_error_In; eauto.
Qed.

Lemma healthy_firstRejected ws : forallb healthy ws = true -> firstRejected ws = None.
Proof.
  induction ws as [|[i p|r| |e] ws IH]; simpl; intros H; auto; try discriminate.
  apply andb_true_iff in H as [_ H]. auto.
Qed.

Lemma exec_inv ev r r' :
  RunInv prompts limit r -> exec inp ev r = Some r' -> RunInv prompts limit r'.
Proof.
  intros (I & Hlen & Hh). destruct ev as [w remote|w|]; cbn [exec].
  - destruct (nth_error (workers r) w) as [[i p|x| |e]|] eqn:Hn; try discriminate.
    rewrite processNext_continue_eq. intros H; injection H as <-.
    destruct (nth_error_update_split _ _ _ Hn) as (pre & post & Hw & _ & Hu).
    rewrite Hw in I. unfold RunInv, HandlerInv. cbn [workers shared handler].
    rewrite update_length, Hu. split; [|split; [exact Hlen|]].
    + eapply (proj2 (processNext_continue_inv prompts pre post i p _ (shared r) _ _ I
                      (processNext_continue_eq i _ (shared r)))).
    + unfold HandlerInv in Hh. cbn [app isLoading].
      destruct (handler r); auto.
      destruct Hh as [_ Hf]. apply (forallb_nth_error _ _ _ _ Hf) in Hn. discriminate.
  - destruct (nth_error (workers r) w) as [[i p|[e|u]| |e]|] eqn:Hn; try discriminate.
    + apply (forallb_nth_error _ _ _ _ (inv_healthy _ _ _ I)) in Hn. discriminate.
    + destruct (worker_loop w (shared r)) as [wk s'] eqn:W.
      intros H; injection H as <-.
      destruct (nth_error_update_split _ _ _ Hn) as (pre & post & Hw & _ & Hu).
      rewrite Hw in I. apply shared_inv_remove in I; [|reflexivity].
      destruct (worker_loop_inv prompts pre post w (shared r) wk s' I W) as (I' & A' & _).
      unfold RunInv, HandlerInv. cbn [workers shared handler].
      rewrite update_length, Hu, A'. split; [exact I'|split; [exact Hlen|]].
      unfold HandlerInv in Hh. destruct (handler r); auto.
      destruct Hh as [_ Hf]. apply (forallb_nth_error _ _ _ _ Hf) in Hn. discriminate.
  - unfold HandlerInv in Hh. destruct (handler r) eqn:Hd; try discriminate.
    rewrite (healthy_firstRejected _ (inv_healthy _ _ _ I)).
    destruct (forallb isFulfilled (workers r)) eqn:Hf; [|discriminate].
    intros H; injection H as <-.
    unfold RunInv, HandlerInv. cbn [workers shared handler].
    split; [now apply shared_inv_setIsLoading | auto].
Qed.

Lemma reachable_inv r0 r :
  RunInv prompts limit r0 -> reachable inp r0 r -> RunInv prompts limit r.
Proof.
  intros I0 H. induction H as [|r ev r' _ IH He]; [exact I0 | eauto using exec_inv].
Qed.

Lemma reachable_trans r0 r1 r2 :
  reachable inp r0 r1 -> reachable inp r1 r2 -> reachable inp r0 r2.
Proof.
  intros H1 H2. induction H2 as [|r ev r' _ IH He]; [exact H1|].
  exact (reach_step inp r0 r ev r' IH He).
Qed.

Lemma weight_split pre x post :
  list_sum (map weight (pre ++ x :: post))
  = list_sum (map weight pre) + weight x + list_sum (map weight post).
Proof.
  rewrite map_app, list_sum_app. simpl. lia.
Qed.

(** Every step of the event loop uses up some of what is left to do. *)
Lemma exec_measure ev r r' : exec inp ev r = Some r' -> measure r' < measure r.
Proof.
  unfold measure. destruct ev as [w remote|w|]; cbn [exec].
  - destruct (nth_error (workers r) w) as [[i p|x| |e]|] eqn:Hn; try discriminate.
    rewrite processNext_continue_eq. intros H; injection H as <-.
    destruct (nth_error_update_split _ _ _ Hn) as (pre & post & Hw & _ & Hu).
    cbn [workers shared handler queue]. rewrite Hu, Hw, !weight_split.
    cbn [weight]. lia.
  - destruct (nth_error (workers r) w) as [[i p|[e|u]| |e]|] eqn:Hn; try discriminate.
    + intros H; injection H as <-.
      destruct (nth_error_update_split _ _ _ Hn) as (pre & post & Hw & _ & Hu).
      cbn [workers shared handler]. rewrite Hu, Hw, !weight_split.
      cbn [weight]. lia.
    + destruct (worker_loop w (shared r)) as [wk s'] eqn:W.
      intros H; injection H as <-.
      destruct (nth_error_update_split _ _ _ Hn) as (pre & post & Hw & _ & Hu).
      cbn [workers shared handler]. rewrite Hu, Hw, !weight_split.
      unfold worker_loop, processNext_start in W.
      destruct (queue (shared r)) as [|[i p] rest] eqn:Q;
        cbn [length Nat.ltb Nat.leb] in W;
        injection W as <- <-; cbn [weight queue length]; rewrite ?Q;
        cbn [length]; lia.
  - destruct (handler r); try discriminate.
    destruct (firstRejected (workers r)).
    + intros H; injection H as <-. cbn [workers shared handler]. lia.
    + destruct (forallb isFulfilled (workers r)); [|discriminate].
      intros H; injection H as <-. cbn [workers shared handler setIsLoading queue]. lia.
Qed.

Lemma findSuspended_Some ws w :
  findSuspended ws = Some w ->
  (exists i p, nth_error ws w = Some (AwaitGenerate i p))
  \/ (exists x, nth_error ws w = Some (AwaitProcessNext x)).
Proof.
  revert w; induction ws as [|[i p|x| |e] ws IH]; intros w; cbn [findSuspended].
  - discriminate.
  - intros H; injection H as <-. left; exists i, p; reflexivity.
  - intros H; injection H as <-. right; exists x; reflexivity.
  - destruct (findSuspended ws) as [v|]; [|discriminate].
    intros H; injection H as <-. exact (IH v eq_refl).
  - destruct (findSuspended ws) as [v|]; [|discriminate].
    intros H; injection H as <-. exact (IH v eq_refl).
Qed.

Lemma findSuspended_None ws :
  findSuspended ws = None -> firstRejected ws = None -> forallb isFulfilled ws = true.
Proof.
  induction ws as [|[i p|x| |e] ws IH]; cbn [findSuspended firstRejected forallb isFulfilled];
    try discriminate; auto.
  destruct (findSuspended ws); [discriminate|]. auto.
Qed.

(** While [handleGenerate] waits, the event loop always has something to run
    (provided the remote model answers). *)
Lemma exec_progress r :
  handler r = AwaitProcessQueue -> exists r', exec inp (nextEvent r) r = Some r'.
Proof.
  intros Hh. unfold nextEvent.
  destruct (findSuspended (workers r)) as [w|] eqn:F.
  - apply findSuspended_Some in F as [(i & p & Hn)|(x & Hn)]; rewrite Hn; cbn [exec];
      rewrite Hn.
    + rewrite processNext_continue_eq. eauto.
    + destruct x as [e|u]; [eauto|].
      destruct (worker_loop w (shared r)). eauto.
  - cbn [exec]. rewrite Hh.
    destruct (firstRejected (workers r)) eqn:R; [eauto|].
    rewrite (findSuspended_None _ F R). eauto.
Qed.

Lemma reachable_step_left r r1 r2 ev :
  exec inp ev r = Some r1 -> reachable inp r1 r2 -> reachable inp r r2.
Proof.
  intros He H. apply (reachable_trans r r1 r2); [|exact H].
  exact (reach_step inp r r ev r1 (reach_start inp r) He).
Qed.

Lemma execAll_reachable evs : forall r r',
  execAll inp evs r = Some r' -> reachable inp r r'.
Proof.
  induction evs as [|ev evs IH]; intros r r'; cbn [execAll].
  - intros H; injection H as <-. constructor.
  - destruct (exec inp ev r) as [r1|] eqn:He; [|discriminate].
    intros H. exact (reachable_step_left r r1 r' ev He (IH r1 r' H)).
Qed.

(** Any state can be driven to the end of the run in [measure] steps. *)
Lemma drive_completes fuel : forall r,
  measure r <= fuel ->
  exists r', execAll inp (drive inp fuel r) r = Some r'
             /\ handler r' <> AwaitProcessQueue /\ reachable inp r r'.
Proof.
  induction fuel as [|fuel IH]; intros r Hm; cbn [drive].
  - exists r. split; [reflexivity|]. split; [|constructor].
    unfold measure in Hm. intros E. rewrite E in Hm. lia.
  - destruct (handler r) eqn:Hh.
    + destruct (exec_progress r Hh) as [r1 He]. rewrite He.
      pose proof (exec_measure _ _ _ He) as Hlt.
      destruct (IH r1 ltac:(lia)) as (r' & Hx & Hf & Hr).
      exists r'. cbn [execAll]. rewrite He.
      split; [exact Hx|]. split; [exact Hf | eapply reachable_step_left; eauto].
    + exists r. split; [reflexivity|]. split; [congruence | constructor].
    + exists r. split; [reflexivity|]. split; [congruence | constructor].
Qed.

End Run.

Section Start.

Lemma makePrompts_length random inp :
  length (makePrompts random inp) = numVariations inp.
Proof.
  unfold makePrompts.
  destruct (negb (trim (customPrompt inp) =? EmptyString)%string).
  - apply repeat_length.
  - now rewrite length_map, length_seq.
Qed.

Lemma countSettled_pending l :
  countSettled (map (fun i => GeneratedImage.mk i Pending None None) l) = 0.
Proof. induction l as [|i l IH]; [reflexivity | exact IH]. Qed.

Lemma initial_inv (prompts : list (option string)) :
  SharedInv prompts []
    {| app := {| generatedImages := pendingImages prompts;
                 isLoading := true; error := None; progress := 0 |};
       completedCount := 0;
       queue := entries prompts;
       claimed := [] |}.
Proof.
  constructor; cbn [claimed queue app completedCount generatedImages progress
                    length inFlight map seq skipn forallb existsb]; auto.
  - lia.
  - unfold pendingImages. rewrite map_map. cbn [GeneratedImage.id]. apply map_id.
  - constructor.
  - intros i [].
  - intros img H. unfold pendingImages in H. apply in_map_iff in H as (i & <- & _).
    cbn. split; [intros _; left; lia | reflexivity].
  - apply countSettled_pending.
  - discriminate.
  - intros i p [].
Qed.

(** What [launch] returns: one suspended worker per entry it could take, in
    order, then workers that found the queue empty and returned. *)
Lemma launch_workers n : forall w s,
  fst (launch n w s)
  = map (fun e => AwaitGenerate (fst e) (snd e)) (firstn n (queue s))
    ++ repeat Fulfilled (n - length (queue s)).
Proof.
  induction n as [|n IH]; intros w s; cbn [launch]; [reflexivity|].
  unfold worker_loop, processNext_start.
  destruct (queue s) as [|[i p] rest] eqn:Q; cbn [length Nat.ltb Nat.leb].
  - specialize (IH (S w) s). destruct (launch n (S w) s) as [wks s2].
    cbn [fst] in *. rewrite IH, Q, firstn_nil. cbn [map app length].
    rewrite Nat.sub_0_r. reflexivity.
  - match goal with |- context [launch n (S w) ?s1] =>
      specialize (IH (S w) s1); destruct (launch n (S w) s1) as [wks s2] end.
    cbn [fst queue] in *. rewrite IH. reflexivity.
Qed.

Lemma worker_loop_claimants (P : nat -> Prop) w s wk s' :
  worker_loop w s = (wk, s') -> P w ->
  Forall (fun c => P (fst c)) (claimed s) -> Forall (fun c => P (fst c)) (claimed s').
Proof.
  unfold worker_loop, processNext_start.
  destruct (queue s) as [|[i p] rest]; cbn [length Nat.ltb Nat.leb];
    intros H Hw Hc; injection H as <- <-; [exact Hc|].
  cbn [claimed]. apply Forall_app. split; [exact Hc|].
  constructor; [exact Hw | constructor].
Qed.

Lemma launch_claimants n : forall w s ws s',
  launch n w s = (ws, s') ->
  Forall (fun c => fst c < w + n) (claimed s) ->
  Forall (fun c => fst c < w + n) (claimed s').
Proof.
  induction n as [|n IH]; intros w s ws s'; cbn [launch].
  - intros H; injection H as <- <-. auto.
  - destruct (worker_loop w s) as [wk s1] eqn:W.
    destruct (launch n (S w) s1) as [wks s2] eqn:L.
    intros H Hc; injection H as <- <-.
    replace (w + S n) with (S w + n) in * by lia.
    apply (IH (S w) s1 wks s2 L).
    apply (worker_loop_claimants (fun v => v < S w + n) w s wk s1 W); [lia | exact Hc].
Qed.

Variables (limit : nat) (random : nat -> Number) (inp : Inputs) (st : AppState) (r0 : Run).

Hypothesis started : handleGenerate_upto limit random inp st = Running r0.

Let prompts := makePrompts random inp.

Lemma start_guards :
  truthy (modelImage inp) = true
  /\ (poseGuidanceMode inp = mode_reference -> truthy (poseReferenceImage inp) = true)
  /\ (poseGuidanceMode inp = mode_sketch -> truthy (poseSketchImage inp) = true).
Proof.
  revert started. unfold handleGenerate_upto.
  destruct (truthy (modelImage inp)); cbn [negb]; [|discriminate].
  destruct (poseGuidanceMode inp); cbn [PoseGuidanceMode_eqb andb];
    destruct (truthy (poseReferenceImage inp)); cbn [negb];
    destruct (truthy (poseSketchImage inp)); cbn [negb]; try discriminate;
    intros _; repeat split; intros; congruence.
Qed.

Lemma start_run :
  r0 = {| shared := snd (launch limit 0
                           {| app := {| generatedImages := pendingImages prompts;
                                        isLoading := true; error := None;
                                        progress := 0 |};
                              completedCount := 0;
                              queue := entries prompts;
                              claimed := [] |});
          workers := fst (launch limit 0
                            {| app := {| generatedImages := pendingImages prompts;
                                         isLoading := true; error := None;
                                         progress := 0 |};
                               completedCount := 0;
                               queue := entries prompts;
                               claimed := [] |});
          handler := AwaitProcessQueue |}.
Proof.
  revert started. unfold handleGenerate_upto. fold prompts.
  destruct (negb (truthy (modelImage inp))); [discriminate|].
  destruct (_ && _); [discriminate|].
  destruct (_ && _); [discriminate|].
  destruct (launch limit 0 _) as [ws s1].
  intros H; injection H as <-. reflexivity.
Qed.

Lemma start_inv : RunInv prompts limit r0.
Proof.
  rewrite start_run.
  destruct (launch limit 0 _) as [ws s1] eqn:L.
  destruct (launch_inv prompts limit 0 [] _ ws s1 (initial_inv prompts) L)
    as (I & Hl & Ha & _).
  unfold RunInv, HandlerInv. cbn [shared workers handler fst snd app] in *.
  rewrite Ha. auto.
Qed.

Lemma start_workers :
  workers r0
  = map (fun e => AwaitGenerate (fst e) (snd e)) (firstn limit (entries prompts))
    ++ repeat Fulfilled (limit - length prompts).
Proof.
  rewrite start_run. cbn [workers]. rewrite launch_workers.
  cbn [queue]. now rewrite entries_length.
Qed.

Lemma start_claimants : Forall (fun c => fst c < limit) (claimed (shared r0)).
Proof.
  rewrite start_run. cbn [shared].
  destruct (launch limit 0 _) as [ws s1] eqn:L. cbn [snd].
  apply (launch_claimants limit 0 _ ws s1 L). constructor.
Qed.

End Start.

Section Gallery.

Variables (inp : Inputs) (prompts : list (option string)) (limit : nat).

Lemma publish_terminal i settled img :
  GeneratedImage.id img = i ->
  isTerminal (publish i settled img)
  /\ GeneratedImage.id (publish i settled img) = GeneratedImage.id img.
Proof.
  intros H. apply Nat.eqb_eq in H.
  destruct settled; cbn [publish]; unfold markError, markDone, isTerminal;
    rewrite H; cbn; auto.
Qed.

Lemma publish_other i settled img :
  GeneratedImage.id img <> i -> publish i settled img = img.
Proof.
  intros H. apply Nat.eqb_neq in H.
  destruct settled; cbn [publish]; unfold markError, markDone; now rewrite H.
Qed.

(** A step of the event loop rewrites the gallery image by image: an image
    is left as it is, or goes from pending to a terminal status. *)
Lemma exec_gallery ev r r' :
  RunInv prompts limit r -> exec inp ev r = Some r' ->
  exists f,
    generatedImages (app (shared r')) = map f (generatedImages (app (shared r)))
    /\ forall img, In img (generatedImages (app (shared r))) ->
         f img = img
         \/ (isPending img = true /\ isTerminal (f img)
             /\ GeneratedImage.id (f img) = GeneratedImage.id img).
Proof.
  intros (I & _ & _). destruct ev as [w remote|w|]; cbn [exec].
  - destruct (nth_error (workers r) w) as [[i p|x| |e]|] eqn:Hn; try discriminate.
    rewrite processNext_continue_eq. intros H; injection H as <-.
    cbn [shared app generatedImages].
    eexists; split; [reflexivity|].
    intros img Hin. destruct (Nat.eq_dec (GeneratedImage.id img) i) as [e|n].
    + right. split; [|now apply publish_terminal].
      apply (inv_pending _ _ _ I img Hin). right.
      rewrite e. apply inFlight_In. exists p. eapply nth_error_In; eauto.
    + left. now apply publish_other.
  - destruct (nth_error (workers r) w) as [[i p|[e|u]| |e]|] eqn:Hn; try discriminate.
    + intros H; injection H as <-. exists (fun img => img).
      cbn [shared]. rewrite map_id. auto.
    + destruct (worker_loop w (shared r)) as [wk s'] eqn:W.
      intros H; injection H as <-. exists (fun img => img).
      cbn [shared]. rewrite map_id.
      unfold worker_loop, processNext_start in W.
      destruct (queue (shared r)) as [|[i p] rest]; cbn [length Nat.ltb Nat.leb] in W;
        injection W as <- <-; auto.
  - destruct (handler r); try discriminate.
    destruct (firstRejected (workers r)).
    + intros H; injection H as <-. exists (fun img => img).
      cbn [shared]. rewrite map_id. auto.
    + destruct (forallb isFulfilled (workers r)); [|discriminate].
      intros H; injection H as <-. exists (fun img => img).
      cbn [shared setIsLoading app generatedImages]. rewrite map_id. auto.
Qed.

Lemma exec_settled_stays ev r r' k img :
  RunInv prompts limit r -> exec inp ev r = Some r' ->
  nth_error (generatedImages (app (shared r))) k = Some img ->
  isPending img = false ->
  nth_error (generatedImages (app (shared r'))) k = Some img.
Proof.
  intros I He Hk Hp. destruct (exec_gallery ev r r' I He) as (f & -> & Hf).
  rewrite nth_error_map, Hk. cbn [option_map]. f_equal.
  destruct (Hf img (nth_error_In _ _ Hk)) as [H|[H _]]; [exact H | congruence].
Qed.

Lemma reachable_settled_stays r r' k img :
  RunInv prompts limit r -> reachable inp r r' ->
  nth_error (generatedImages (app (shared r))) k = Some img ->
  isPending img = false ->
  nth_error (generatedImages (app (shared r'))) k = Some img.
Proof.
  intros I H Hk Hp. induction H as [|r1 ev r2 Hr IH He]; [exact Hk|].
  apply (exec_settled_stays ev r1 r2 k img);
    [exact (reachable_inv inp prompts limit r r1 I Hr) | exact He | exact IH | exact Hp].
Qed.

(** The image of job [i] sits at position [i] of the gallery. *)
Lemma image_position imgs n img :
  map GeneratedImage.id imgs = seq 0 n -> In img imgs ->
  nth_error imgs (GeneratedImage.id img) = Some img.
Proof.
  intros Hi Hin. apply In_nth_error in Hin as [k Hk].
  assert (E : nth_error (seq 0 n) k = Some (GeneratedImage.id img)).
  { rewrite <- Hi, nth_error_map, Hk. reflexivity. }
  assert (Hlt : k < n).
  { rewrite <- (length_seq n 0). apply nth_error_Some. congruence. }
  apply (nth_error_nth _ _ 0) in E. rewrite seq_nth in E by exact Hlt.
  simpl in E. now rewrite <- E.
Qed.

Lemma image_exists imgs n i :
  map GeneratedImage.id imgs = seq 0 n -> i < n ->
  exists img, In img imgs /\ GeneratedImage.id img = i.
Proof.
  intros Hi Hlt.
  assert (H : In i (map GeneratedImage.id imgs)) by (rewrite Hi; apply in_seq; lia).
  apply in_map_iff in H as (img & ? & ?). eauto.
Qed.

Lemma pendingIn_spec imgs i :
  pendingIn imgs i = true <->
  exists img, In img imgs /\ GeneratedImage.id img = i /\ isPending img = true.
Proof.
  unfold pendingIn. rewrite existsb_exists. split.
  - intros (img & Hin & H). apply andb_true_iff in H as [H1 H2].
    apply Nat.eqb_eq in H1. eauto.
  - intros (img & Hin & H1 & H2). exists img. split; [exact Hin|].
    apply Nat.eqb_eq in H1. now rewrite H1, H2.
Qed.

(** The jobs claimed and not yet terminal are the jobs the workers hold. *)
Lemma claimedNotTerminal_inFlight ws s :
  SharedInv prompts ws s ->
  forall i, In i (claimedNotTerminal s) <-> In i (inFlight ws).
Proof.
  intros I i. unfold claimedNotTerminal.
  rewrite filter_In, (inv_claimed _ _ _ I), in_seq, pendingIn_spec. split.
  - intros (Hlt & img & Hin & <- & Hp).
    apply (inv_pending _ _ _ I img Hin) in Hp as [H|H]; [lia | exact H].
  - intros H. pose proof (inv_inflight _ _ _ I i H) as Hlt.
    split; [lia|].
    destruct (image_exists _ _ i (inv_ids _ _ _ I)) as (img & Hin & Hid).
    { pose proof (inv_bound _ _ _ I). lia. }
    exists img. repeat split; auto.
    apply (inv_pending _ _ _ I img Hin). right. now rewrite Hid.
Qed.

Lemma claimedNotTerminal_length ws s :
  SharedInv prompts ws s ->
  length (claimedNotTerminal s) = length (inFlight ws).
Proof.
  intros I. apply Permutation_length, NoDup_Permutation.
  - unfold claimedNotTerminal. rewrite (inv_claimed _ _ _ I).
    apply NoDup_filter, seq_NoDup.
  - exact (inv_nodup _ _ _ I).
  - now apply claimedNotTerminal_inFlight.
Qed.

Lemma inFlight_bound ws s :
  SharedInv prompts ws s -> length (inFlight ws) <= length prompts.
Proof.
  intros I. rewrite <- (length_seq (length prompts) 0).
  apply NoDup_incl_length; [exact (inv_nodup _ _ _ I)|].
  intros i H. apply in_seq. pose proof (inv_inflight _ _ _ I i H).
  pose proof (inv_bound _ _ _ I). lia.
Qed.

Lemma exec_claimants ev r r' :
  length (workers r) = limit ->
  exec inp ev r = Some r' ->
  Forall (fun c => fst c < limit) (claimed (shared r)) ->
  Forall (fun c => fst c < limit) (claimed (shared r')).
Proof.
  intros Hl. destruct ev as [w remote|w|]; cbn [exec].
  - destruct (nth_error (workers r) w) as [[i p|x| |e]|] eqn:Hn; try discriminate.
    rewrite processNext_continue_eq. intros H; injection H as <-. auto.
  - destruct (nth_error (workers r) w) as [[i p|[e|u]| |e]|] eqn:Hn; try discriminate.
    + intros H; injection H as <-. auto.
    + destruct (worker_loop w (shared r)) as [wk s'] eqn:W.
      intros H; injection H as <-. cbn [shared].
      apply (worker_loop_claimants (fun v => v < limit) w (shared r) wk s' W).
      rewrite <- Hl. apply nth_error_Some. congruence.
  - destruct (handler r); try discriminate.
    destruct (firstRejected (workers r)).
    + intros H; injection H as <-. auto.
    + destruct (forallb isFulfilled (workers r)); [|discriminate].
      intros H; injection H as <-. auto.
Qed.

Lemma reachable_claimants r0 r :
  RunInv prompts limit r0 -> reachable inp r0 r ->
  Forall (fun c => fst c < limit) (claimed (shared r0)) ->
  Forall (fun c => fst c < limit) (claimed (shared r)).
Proof.
  intros I0 H Hc. induction H as [|r1 ev r2 Hr IH He]; [exact Hc|].
  apply (exec_claimants ev r1 r2); [|exact He | exact IH].
  exact (proj1 (proj2 (reachable_inv inp prompts limit r0 r1 I0 Hr))).
Qed.

(** Where the run ends: every job claimed, none in flight, all terminal. *)
Lemma returned_facts r :
  1 <= limit -> RunInv prompts limit r -> handler r = HandlerReturned ->
  length (claimed (shared r)) = length prompts
  /\ length (generatedImages (app (shared r))) = length prompts
  /\ Forall isTerminal (generatedImages (app (shared r)))
  /\ completedCount (shared r) = length prompts
  /\ progress (app (shared r)) = length prompts
  /\ isLoading (app (shared r)) = false.
Proof.
  intros Hk (I & Hl & Hh) Hr. unfold HandlerInv in Hh. rewrite Hr in Hh.
  destruct Hh as [Hload Hf].
  assert (Hq : queue (shared r) = []).
  { apply (inv_drained _ _ _ I).
    destruct (workers r) as [|w ws]; [simpl in Hl; lia|].
    cbn [forallb] in Hf. apply andb_true_iff in Hf as [Hw _].
    cbn [existsb]. now rewrite Hw. }
  assert (Hm : length (claimed (shared r)) = length prompts).
  { pose proof (inv_bound _ _ _ I) as Hb.
    pose proof (inv_queue _ _ _ I) as Hs. rewrite Hq in Hs.
    apply (f_equal (@length _)) in Hs.
    rewrite length_skipn, entries_length in Hs. simpl in Hs. lia. }
  pose proof (inFlight_fulfilled _ Hf) as Hin.
  pose proof (inv_total _ _ _ I) as Ht. rewrite Hin in Ht. simpl in Ht.
  split; [exact Hm|]. split.
  { rewrite <- (length_map GeneratedImage.id), (inv_ids _ _ _ I). apply length_seq. }
  split.
  { apply Forall_forall. intros img Himg.
    assert (Hid : GeneratedImage.id img < length prompts).
    { assert (H : In (GeneratedImage.id img)
                    (map GeneratedImage.id (generatedImages (app (shared r)))))
        by now apply in_map.
      rewrite (inv_ids _ _ _ I) in H. apply in_seq in H. lia. }
    pose proof (inv_pending _ _ _ I img Himg) as Hp. rewrite Hin, Hm in Hp.
    unfold isTerminal, isPending in *.
    destruct (GeneratedImage.status img); auto.
    exfalso. destruct (proj1 Hp eq_refl) as [H|[]]. lia. }
  split; [lia|]. split; [|exact Hload].
  rewrite (inv_progress _ _ _ I). lia.
Qed.

End Gallery.

Section DispatcherClaims.

Lemma NoDup_map_snd_inj {A B} (l : list (A * B)) a1 a2 b :
  NoDup (map snd l) -> In (a1, b) l -> In (a2, b) l -> a1 = a2.
Proof.
  induction l as [|[a c] l IH]; cbn [map snd]; intros Hn H1 H2; [destruct H1|].
  apply NoDup_cons_iff in Hn as [Hnot Hn].
  destruct H1 as [H1|H1], H2 as [H2|H2].
  - congruence.
  - injection H1 as -> ->. exfalso. apply Hnot.
    change b with (snd (a2, b)). now apply in_map.
  - injection H2 as -> ->. exfalso. apply Hnot.
    change b with (snd (a1, b)). now apply in_map.
  - eauto.
Qed.

Lemma Forall2_map_r {A} (R : A -> A -> Prop) (f : A -> A) l :
  (forall x, In x l -> R x (f x)) -> Forall2 R l (map f l).
Proof.
  induction l as [|x l IH]; intros H; cbn [map]; constructor.
  - apply H. now left.
  - apply IH. intros y Hy. apply H. now right.
Qed.

Lemma isPending_status img : isPending img = true <-> GeneratedImage.status img = Pending.
Proof.
  unfold isPending. destruct (GeneratedImage.status img); split; congruence.
Qed.

(** C1. For every number of jobs N >= 1 and every pool of K >= 1 workers, a
    run never fails: no worker and no handler is ever rejected. When
    [handleGenerate] has returned there are exactly N jobs, each Done or
    Error and none Pending, the completed counter is N and [isLoading] is
    false. The run does end: while the handler waits the event loop can
    always take a step, every step uses up a bounded measure, and from every
    state a schedule leads to the return of the handler. *)
Theorem C1_run_completes (limit : nat) (random : nat -> Number) (inp : Inputs)
  (st : AppState) (r0 : Run) :
  1 <= numVariations inp -> 1 <= limit ->
  handleGenerate_upto limit random inp st = Running r0 ->
  forall r, reachable inp r0 r ->
    (forall e, handler r <> HandlerRejected e)
    /\ (forall e, ~ In (Rejected e) (workers r))
    /\ (handler r = HandlerReturned ->
        length (generatedImages (app (shared r))) = numVariations inp
        /\ Forall isTerminal (generatedImages (app (shared r)))
        /\ Forall (fun img => GeneratedImage.status img <> Pending)
             (generatedImages (app (shared r)))
        /\ completedCount (shared r) = numVariations inp
        /\ isLoading (app (shared r)) = false)
    /\ (handler r = AwaitProcessQueue -> exists ev r', exec inp ev r = Some r')
    /\ (forall ev r', exec inp ev r = Some r' -> measure r' < measure r)
    /\ (exists evs r', execAll inp evs r = Some r' /\ handler r' = HandlerReturned).
Proof.
  intros _ Hk Hs r Hr.
  pose proof (start_inv limit random inp st r0 Hs) as I0.
  pose proof (reachable_inv inp _ limit r0 r I0 Hr) as I.
  split; [|split; [|split; [|split; [|split]]]].
  - intros e He. destruct I as (_ & _ & Hh). unfold HandlerInv in Hh.
    now rewrite He in Hh.
  - intros e Hin. destruct I as (I & _ & _).
    pose proof (inv_healthy _ _ _ I) as Hh. rewrite forallb_forall in Hh.
    apply Hh in Hin. discriminate.
  - intros Hret.
    destruct (returned_facts _ limit r Hk I Hret) as (_ & Hlen & Hterm & Hc & _ & Hl).
    rewrite makePrompts_length in *.
    split; [exact Hlen|]. split; [exact Hterm|]. split; [|auto].
    eapply Forall_impl; [|exact Hterm].
    intros img [H|H]; rewrite H; discriminate.
  - intros Hw. exists (nextEvent r). now apply exec_progress.
  - intros ev r'. apply exec_measure.
  - destruct (drive_completes inp (measure r) r (le_n _)) as (r' & Hx & Hf & Hr').
    exists (drive inp (measure r) r), r'. split; [exact Hx|].
    pose proof (reachable_inv inp _ limit r r' I Hr') as (_ & _ & Hh).
    unfold HandlerInv in Hh. destruct (handler r'); [congruence | reflexivity | destruct Hh].
Qed.

(** C2. The claims taken from the queue are the indices 0, 1, 2, ... in that
    order, each made by one of the K workers: no index is claimed twice, hence
    none by two workers, and when the run has ended the claims are exactly the
    indices of [0, N), each once. *)
Theorem C2_claims_partition (limit : nat) (random : nat -> Number) (inp : Inputs)
  (st : AppState) (r0 : Run) :
  1 <= limit ->
  handleGenerate_upto limit random inp st = Running r0 ->
  forall r, reachable inp r0 r ->
    let log := claimed (shared r) in
    map snd log = seq 0 (length log)
    /\ length log <= numVariations inp
    /\ NoDup (map snd log)
    /\ (forall w1 w2 i, In (w1, i) log -> In (w2, i) log -> w1 = w2)
    /\ Forall (fun c => fst c < limit) log
    /\ queue (shared r)
       = skipn (length log) (entries (makePrompts random inp))
    /\ (handler r = HandlerReturned ->
        map snd log = seq 0 (numVariations inp)
        /\ forall i, i < numVariations inp -> count_occ Nat.eq_dec (map snd log) i = 1).
Proof.
  intros Hk Hs r Hr log.
  pose proof (start_inv limit random inp st r0 Hs) as I0.
  pose proof (reachable_inv inp _ limit r0 r I0 Hr) as I.
  destruct I as (I & Hl & Hh).
  pose proof (inv_claimed _ _ _ I) as Hc. fold log in Hc.
  assert (Hnd : NoDup (map snd log)) by (rewrite Hc; apply seq_NoDup).
  split; [exact Hc|]. split.
  { pose proof (inv_bound _ _ _ I) as Hb. now rewrite makePrompts_length in Hb. }
  split; [exact Hnd|]. split.
  { intros w1 w2 i. now apply NoDup_map_snd_inj. }
  split.
  { apply (reachable_claimants inp _ limit r0 r I0 Hr).
    exact (start_claimants limit random inp st r0 Hs). }
  split; [exact (inv_queue _ _ _ I)|].
  intros Hret.
  destruct (returned_facts _ limit r Hk (conj I (conj Hl Hh)) Hret) as (Hm & _).
  rewrite makePrompts_length in Hm. fold log in Hm.
  assert (E : map snd log = seq 0 (numVariations inp)) by (rewrite Hc, Hm; reflexivity).
  split; [exact E|].
  intros i Hi. apply NoDup_count_occ'; [exact Hnd|].
  rewrite E. apply in_seq. lia.
Qed.

(** C3, as stated, fails: with one job the source still starts its five
    workers, not min(5, 1) = 1; four of them return at once. *)
Lemma C3_counterexample :
  exists r0,
    handleGenerate (fun _ => S754_zero false) (exampleInputs 1 "a side profile") idle
    = Running r0
    /\ workers r0
       = [AwaitGenerate 0 (Some "a side profile");
          Fulfilled; Fulfilled; Fulfilled; Fulfilled]
    /\ length (workers r0) <> Nat.min concurrencyLimit 1.
Proof.
  eexists. split; [reflexivity|]. split; [reflexivity|]. discriminate.
Qed.

(** C3, amended. The dispatcher starts exactly K workers. At the start
    min(K, N) of them hold a job and the other K - min(K, N) have returned
    without one. At every point of the run the jobs in flight (claimed, not
    yet terminal) are the jobs the workers hold, and there are at most
    min(K, N) of them, hence never more than K. *)
Theorem C3_bounded_pool (limit : nat) (random : nat -> Number) (inp : Inputs)
  (st : AppState) (r0 : Run) :
  handleGenerate_upto limit random inp st = Running r0 ->
  length (workers r0) = limit
  /\ length (inFlight (workers r0)) = Nat.min limit (numVariations inp)
  /\ length (filter isFulfilled (workers r0))
     = limit - Nat.min limit (numVariations inp)
  /\ forall r, reachable inp r0 r ->
       length (workers r) = limit
       /\ (forall i, In i (claimedNotTerminal (shared r)) <-> In i (inFlight (workers r)))
       /\ length (claimedNotTerminal (shared r)) = length (inFlight (workers r))
       /\ length (claimedNotTerminal (shared r)) <= Nat.min limit (numVariations inp)
       /\ length (claimedNotTerminal (shared r)) <= limit.
Proof.
  intros Hs.
  pose proof (start_inv limit random inp st r0 Hs) as I0.
  pose proof (start_workers limit random inp st r0 Hs) as Hw.
  set (prompts := makePrompts random inp) in *.
  assert (HN : length prompts = numVariations inp) by apply makePrompts_length.
  split; [exact (proj1 (proj2 I0))|]. split; [|split].
  - rewrite Hw, inFlight_app.
    assert (E1 : forall l : list (nat * option string),
               inFlight (map (fun e => AwaitGenerate (fst e) (snd e)) l) = map fst l).
    { induction l as [|e l IH]; cbn; [reflexivity | now rewrite IH]. }
    assert (E2 : forall n, inFlight (repeat Fulfilled n) = []).
    { induction n as [|n IH]; cbn; auto. }
    rewrite E1, E2, app_nil_r, length_map, length_firstn, entries_length, HN.
    reflexivity.
  - rewrite Hw, filter_app, length_app.
    assert (E1 : forall l : list (nat * option string),
               filter isFulfilled (map (fun e => AwaitGenerate (fst e) (snd e)) l) = []).
    { induction l as [|e l IH]; cbn; auto. }
    assert (E2 : forall n, filter isFulfilled (repeat Fulfilled n) = repeat Fulfilled n).
    { induction n as [|n IH]; cbn; [reflexivity | now rewrite IH]. }
    rewrite E1, E2, repeat_length, HN. cbn [length]. lia.
  - intros r Hr.
    pose proof (reachable_inv inp _ limit r0 r I0 Hr) as (I & Hl & _).
    pose proof (claimedNotTerminal_length _ _ _ I) as Hc.
    pose proof (inFlight_bound _ _ _ I) as Hb.
    pose proof (inFlight_length (workers r)) as Hle.
    split; [exact Hl|]. split; [exact (claimedNotTerminal_inFlight prompts _ _ I)|].
    split; [exact Hc|]. fold prompts in Hb. lia.
Qed.

(** C3 on three jobs and a pool of two workers, after the first call has
    settled and its worker has taken the third job. *)
Lemma C3_bounded_pool_witness :
  exists r0 r,
    handleGenerate_upto 2 exampleRandom (exampleInputs 3 "a side profile") idle
    = Running r0
    /\ execAll (exampleInputs 3 "a side profile") [Settle 0 remoteOk; Resume 0] r0
       = Some r
    /\ length (workers r0) = 2
    /\ length (claimedNotTerminal (shared r)) <= 2.
Proof.
  eexists. eexists. split; [reflexivity|].
  match goal with |- execAll ?inp ?evs ?r0 = Some ?r /\ _ =>
    assert (E : execAll inp evs r0 = Some r) by (vm_compute; reflexivity);
    destruct (C3_bounded_pool 2 exampleRandom inp idle r0 eq_refl) as (H1 & _ & _ & H4);
    destruct (H4 r (execAll_reachable inp evs r0 r E)) as (_ & _ & _ & _ & H5)
  end.
  split; [exact E|]. split; [exact H1 | exact H5].
Defined.

Lemma Forall2_gallery_step (f : GeneratedImage.t -> GeneratedImage.t) imgs :
  (forall img, In img imgs ->
     f img = img
     \/ (isPending img = true /\ isTerminal (f img)
         /\ GeneratedImage.id (f img) = GeneratedImage.id img)) ->
  Forall2 (fun a b => b = a
                      \/ (GeneratedImage.status a = Pending /\ isTerminal b
                          /\ GeneratedImage.id b = GeneratedImage.id a))
    imgs (map f imgs).
Proof.
  intros H. apply Forall2_map_r. intros img Hin.
  destruct (H img Hin) as [E|(Hp & Ht & Hi)]; [left; exact E|].
  right. apply isPending_status in Hp. auto.
Qed.

(** C4. At every suspension point of a run the completed counter (and the
    progress shown) is the number of jobs that are not Pending, and the job
    ids are 0, 1, ..., N-1 in order. A step of the event loop leaves a job as
    it is or moves it from Pending to Done or Error; a job that is not
    Pending is never touched again. *)
Theorem C4_counter_and_transitions (limit : nat) (random : nat -> Number) (inp : Inputs)
  (st : AppState) (r0 : Run) :
  handleGenerate_upto limit random inp st = Running r0 ->
  forall r, reachable inp r0 r ->
    let imgs := generatedImages (app (shared r)) in
    completedCount (shared r) = countSettled imgs
    /\ progress (app (shared r)) = countSettled imgs
    /\ map GeneratedImage.id imgs = seq 0 (numVariations inp)
    /\ NoDup (map GeneratedImage.id imgs)
    /\ forall ev r', exec inp ev r = Some r' ->
         Forall2 (fun a b => b = a
                             \/ (GeneratedImage.status a = Pending /\ isTerminal b
                                 /\ GeneratedImage.id b = GeneratedImage.id a))
           imgs (generatedImages (app (shared r')))
         /\ forall k img, nth_error imgs k = Some img ->
                          GeneratedImage.status img <> Pending ->
                          nth_error (generatedImages (app (shared r'))) k = Some img.
Proof.
  intros Hs r Hr imgs.
  pose proof (start_inv limit random inp st r0 Hs) as I0.
  pose proof (reachable_inv inp _ limit r0 r I0 Hr) as I.
  pose proof I as (J & _ & _).
  pose proof (inv_ids _ _ _ J) as Hi. rewrite makePrompts_length in Hi. fold imgs in Hi.
  split; [symmetry; exact (inv_count _ _ _ J)|]. split.
  { rewrite (inv_progress _ _ _ J). symmetry; exact (inv_count _ _ _ J). }
  split; [exact Hi|]. split; [rewrite Hi; apply seq_NoDup|].
  intros ev r' He. split.
  - destruct (exec_gallery inp _ limit ev r r' I He) as (f & -> & Hf).
    now apply Forall2_gallery_step.
  - intros k img Hk Hp.
    apply (exec_settled_stays inp _ limit ev r r' k img I He Hk).
    destruct (isPending img) eqn:E; [|reflexivity].
    apply isPending_status in E. contradiction.
Qed.

Lemma nth_error_update_other {A} (l : list A) i j x :
  i <> j -> nth_error (update l i x) j = nth_error l j.
Proof.
  revert i j; induction l as [|h t IH]; intros [|i] [|j] H; cbn; auto; try lia.
Qed.

Lemma image_id_at imgs n k img :
  map GeneratedImage.id imgs = seq 0 n -> nth_error imgs k = Some img ->
  GeneratedImage.id img = k.
Proof.
  intros Hi Hk.
  pose proof (image_position imgs n img Hi (nth_error_In _ _ Hk)) as Hp.
  assert (Hnd : NoDup imgs).
  { apply (NoDup_map_inv GeneratedImage.id). rewrite Hi. apply seq_NoDup. }
  apply (proj1 (NoDup_nth_error imgs) Hnd).
  - apply nth_error_Some. congruence.
  - congruence.
Qed.

Lemma messageOf_client_errors reason :
  messageOf InvalidInput <> EmptyString
  /\ messageOf (GenerationRefused reason) <> EmptyString
  /\ messageOf NoImageProduced <> EmptyString.
Proof. repeat split; discriminate. Qed.

(** C5, as stated, fails: when the SDK call throws an [Error] whose message
    is empty, the job ends in Error with the empty message. *)
Lemma C5_counterexample :
  exists r0 r',
    handleGenerate (fun _ => S754_zero false) (exampleInputs 1 "a side profile") idle = Running r0
    /\ workers r0
       = [AwaitGenerate 0 (Some "a side profile");
          Fulfilled; Fulfilled; Fulfilled; Fulfilled]
    /\ fst (run (generatePosedVariation examplePng
                   (guidanceFor (exampleInputs 1 "a side profile")
                      (Some "a side profile")))
              (remoteThrows (ErrorObject EmptyString)))
       = inl (ErrorObject EmptyString)
    /\ exec (exampleInputs 1 "a side profile")
         (Settle 0 (remoteThrows (ErrorObject EmptyString))) r0
       = Some r'
    /\ generatedImages (app (shared r'))
       = [GeneratedImage.mk 0 Error None (Some EmptyString)].
Proof.
  eexists. eexists. split; [reflexivity|]. split; [reflexivity|].
  split; [reflexivity|]. split; reflexivity.
Qed.

(** C5, amended. When the client call of a job throws, the job ends in
    Error carrying the message of the thrown [Error], or a fixed text when the
    thrown value is not an [Error]; that message is not empty unless the
    thrown [Error] has an empty message, and never empty for the errors the
    client raises itself. Nothing escapes: the worker goes on, no worker and
    no handler is ever rejected. The other jobs, the queue and the other
    workers are untouched, the failed job keeps its status and message, and
    the run can still be driven to its end with every job terminal. *)
Theorem C5_failure_isolated (limit : nat) (random : nat -> Number) (inp : Inputs)
  (st : AppState) (r0 : Run) :
  1 <= limit ->
  handleGenerate_upto limit random inp st = Running r0 ->
  forall r w i p remote e,
    reachable inp r0 r ->
    nth_error (workers r) w = Some (AwaitGenerate i p) ->
    fst (run (generatePosedVariation (str (modelImage inp)) (guidanceFor inp p)) remote)
    = inl e ->
    exists r' img,
      exec inp (Settle w remote) r = Some r'
      /\ nth_error (generatedImages (app (shared r'))) i = Some img
      /\ GeneratedImage.id img = i
      /\ GeneratedImage.status img = Error
      /\ GeneratedImage.error img = Some (messageOf e)
      /\ ((e = OtherValue \/ exists m, e = ErrorObject m /\ m <> EmptyString) ->
          messageOf e <> EmptyString)
      /\ (forall reason, e = InvalidInput \/ e = GenerationRefused reason
                         \/ e = NoImageProduced -> messageOf e <> EmptyString)
      /\ (forall k, k <> i ->
            nth_error (generatedImages (app (shared r'))) k
            = nth_error (generatedImages (app (shared r))) k)
      /\ queue (shared r') = queue (shared r)
      /\ claimed (shared r') = claimed (shared r)
      /\ nth_error (workers r') w = Some (AwaitProcessNext (inr tt))
      /\ (forall v, v <> w -> nth_error (workers r') v = nth_error (workers r) v)
      /\ handler r' = handler r
      /\ (forall r'', reachable inp r' r'' ->
            (forall x, handler r'' <> HandlerRejected x)
            /\ (forall x, ~ In (Rejected x) (workers r''))
            /\ nth_error (generatedImages (app (shared r''))) i = Some img)
      /\ (exists evs rf,
            execAll inp evs r' = Some rf /\ handler rf = HandlerReturned
            /\ Forall isTerminal (generatedImages (app (shared rf)))).
Proof.
  intros Hk Hs r w i p remote e Hr Hn He.
  pose proof (start_inv limit random inp st r0 Hs) as I0.
  pose proof (reachable_inv inp _ limit r0 r I0 Hr) as I.
  pose proof I as (J & _ & _).
  set (prompts := makePrompts random inp) in *.
  assert (Hx : exec inp (Settle w remote) r
               = Some {| shared := snd (processNext_continue i (inl e) (shared r));
                         workers := update (workers r) w (AwaitProcessNext (inr tt));
                         handler := handler r |}).
  { cbn [exec]. rewrite Hn, He, !processNext_continue_eq. reflexivity. }
  set (r' := {| shared := snd (processNext_continue i (inl e) (shared r));
                workers := update (workers r) w (AwaitProcessNext (inr tt));
                handler := handler r |}) in *.
  pose proof (exec_inv inp _ limit _ r r' I Hx) as I'.
  assert (Hi : i < length prompts).
  { assert (In i (inFlight (workers r))).
    { apply inFlight_In. exists p. eapply nth_error_In; eauto. }
    pose proof (inv_inflight _ _ _ J i H). pose proof (inv_bound _ _ _ J). lia. }
  destruct (image_exists _ _ i (inv_ids _ _ _ J) Hi) as (img0 & Hin0 & Hid0).
  pose proof (image_position _ _ img0 (inv_ids _ _ _ J) Hin0) as Hpos. rewrite Hid0 in Hpos.
  assert (Himgs : generatedImages (app (shared r'))
                  = map (markError i (messageOf e)) (generatedImages (app (shared r)))).
  { subst r'. cbn [shared]. rewrite processNext_continue_eq. reflexivity. }
  set (img := markError i (messageOf e) img0).
  assert (Himg : nth_error (generatedImages (app (shared r'))) i = Some img).
  { rewrite Himgs, nth_error_map, Hpos. reflexivity. }
  assert (Hshape : img = GeneratedImage.mk i Error (GeneratedImage.url img0)
                           (Some (messageOf e))).
  { subst img. unfold markError. rewrite Hid0, Nat.eqb_refl. reflexivity. }
  exists r', img.
  split; [exact Hx|]. split; [exact Himg|].
  split; [now rewrite Hshape|]. split; [now rewrite Hshape|].
  split; [now rewrite Hshape|]. split.
  { intros [E|(m & E & Hm)]; rewrite E; cbn [messageOf]; [discriminate | exact Hm]. }
  split.
  { intros reason [E|[E|E]]; rewrite E; apply (messageOf_client_errors reason). }
  split.
  { intros k Hki. rewrite Himgs, nth_error_map.
    destruct (nth_error (generatedImages (app (shared r))) k) as [a|] eqn:Ea;
      [|reflexivity].
    cbn [option_map]. f_equal.
    apply (proj1 (markError_spec i (messageOf e))).
    rewrite (image_id_at _ _ k a (inv_ids _ _ _ J) Ea). exact Hki. }
  split; [subst r'; cbn [shared]; now rewrite processNext_continue_eq|].
  split; [subst r'; cbn [shared]; now rewrite processNext_continue_eq|].
  split; [exact (nth_error_update_same _ _ _ _ Hn)|].
  split; [intros v Hv; apply nth_error_update_other; congruence|].
  split; [reflexivity|]. split.
  - intros r'' Hr''.
    pose proof (reachable_inv inp _ limit r' r'' I' Hr'') as (J'' & _ & Hh'').
    split; [|split].
    + intros x Hxx. unfold HandlerInv in Hh''. now rewrite Hxx in Hh''.
    + intros x Hin. pose proof (inv_healthy _ _ _ J'') as Hh.
      rewrite forallb_forall in Hh. apply Hh in Hin. discriminate.
    + apply (reachable_settled_stays inp _ limit r' r'' i img I' Hr'' Himg).
      now rewrite Hshape.
  - destruct (drive_completes inp (measure r') r' (le_n _)) as (rf & Hd & Hf & Hrf).
    pose proof (reachable_inv inp _ limit r' rf I' Hrf) as If.
    assert (Hret : handler rf = HandlerReturned).
    { destruct If as (_ & _ & Hh). unfold HandlerInv in Hh.
      destruct (handler rf); [congruence | reflexivity | destruct Hh]. }
    exists (drive inp (measure r') r'), rf.
    split; [exact Hd|]. split; [exact Hret|].
    exact (proj1 (proj2 (proj2 (returned_facts _ limit rf Hk If Hret)))).
Qed.

(** *** Floating-point rounding of the product that selects a pose

    [SFmul] shifts the exact product to 53 bits and rounds it to nearest,
    ties to even. The shift keeps the quotient and the last bit shifted out,
    so the rounded mantissa exceeds the exact one by at most half a unit in
    the last place; times ten, a value below 1 stays below 10. *)
Section Rounding.
Open Scope Z_scope.

Lemma iter_pos_nat {A} (f : A -> A) p x :
  iter_pos f p x = Nat.iter (Pos.to_nat p) f x.
Proof.
  revert x. induction p as [p IH|p IH|]; intros x; cbn [iter_pos].
  - rewrite !IH, Pos2Nat.inj_xI.
    replace (S (2 * Pos.to_nat p)) with (Pos.to_nat p + S (Pos.to_nat p))%nat by lia.
    rewrite Nat.iter_add. now rewrite Nat.iter_succ_r.
  - rewrite !IH, Pos2Nat.inj_xO.
    replace (2 * Pos.to_nat p)%nat with (Pos.to_nat p + Pos.to_nat p)%nat by lia.
    now rewrite Nat.iter_add.
  - reflexivity.
Qed.

Lemma shr_nat mrs e n :
  shr mrs e n = (Nat.iter (Z.to_nat n) shr_1 mrs, e + Z.max 0 n).
Proof.
  destruct n as [|p|p]; cbn [shr Z.to_nat Nat.iter].
  - now rewrite Z.add_0_r.
  - rewrite iter_pos_nat. reflexivity.
  - now rewrite Z.add_0_r.
Qed.

Lemma shr_1_nonneg m r s :
  0 <= m ->
  shr_m (shr_1 {| shr_m := m; shr_r := r; shr_s := s |}) = m / 2
  /\ shr_r (shr_1 {| shr_m := m; shr_r := r; shr_s := s |}) = Z.odd m.
Proof.
  intros Hm. destruct m as [|[p|p|]|p]; try lia; cbn [shr_1 shr_m shr_r Z.odd]; split;
    try reflexivity.
  - rewrite Pos2Z.inj_xI. apply Z.div_unique with 1; lia.
  - rewrite Pos2Z.inj_xO. apply Z.div_unique with 0; lia.
Qed.

Lemma shr_iter M k :
  0 <= M ->
  let mrs := Nat.iter k shr_1 {| shr_m := M; shr_r := false; shr_s := false |} in
  shr_m mrs = M / 2 ^ Z.of_nat k
  /\ (shr_r mrs = true -> 2 * shr_m mrs * 2 ^ Z.of_nat k + 2 ^ Z.of_nat k <= 2 * M).
Proof.
  intros HM. induction k as [|k IH]; cbn zeta in *.
  - cbn [Nat.iter shr_m shr_r Z.of_nat Z.pow]. rewrite Z.div_1_r.
    split; [reflexivity | discriminate].
  - destruct IH as (IHm & _). change (Nat.iter (S k) shr_1 ?x) with (shr_1 (Nat.iter k shr_1 x)).
    destruct (Nat.iter k shr_1 _) as [m r s] eqn:E. cbn [shr_m] in IHm.
    assert (Hp : 0 < 2 ^ Z.of_nat k) by (apply Z.pow_pos_nonneg; lia).
    assert (Hm : 0 <= m) by (subst m; apply Z.div_pos; lia).
    destruct (shr_1_nonneg m r s Hm) as (-> & ->).
    rewrite Nat2Z.inj_succ, Z.pow_succ_r by lia.
    split.
    + subst m. rewrite Z.div_div by lia. f_equal. lia.
    + intros Ho. rewrite Zodd_mod in Ho. apply Z.eqb_eq in Ho.
      pose proof (Z.div_mod m 2 ltac:(lia)) as D.
      pose proof (Z.mul_div_le M (2 ^ Z.of_nat k) Hp) as L. rewrite <- IHm in L.
      nia.
Qed.

Lemma round_nearest_even_bound mrs :
  0 <= shr_m mrs ->
  shr_m mrs <= round_nearest_even (shr_m mrs) (loc_of_shr_record mrs)
  /\ round_nearest_even (shr_m mrs) (loc_of_shr_record mrs)
     <= shr_m mrs + (if shr_r mrs then 1 else 0).
Proof.
  destruct mrs as [m [|] [|]]; cbn [shr_m shr_r loc_of_shr_record round_nearest_even];
    try destruct (Z.even m); lia.
Qed.

Lemma digits2_pos_bounds p :
  2 ^ (Zpos (digits2_pos p) - 1) <= Zpos p < 2 ^ Zpos (digits2_pos p).
Proof.
  induction p as [p IH|p IH|]; cbn [digits2_pos].
  - rewrite Pos2Z.inj_succ, (Pos2Z.inj_xI p).
    replace (Z.succ (Zpos (digits2_pos p)) - 1) with (Z.succ (Zpos (digits2_pos p) - 1)) by lia.
    rewrite !Z.pow_succ_r by lia. lia.
  - rewrite Pos2Z.inj_succ, (Pos2Z.inj_xO p).
    replace (Z.succ (Zpos (digits2_pos p)) - 1) with (Z.succ (Zpos (digits2_pos p) - 1)) by lia.
    rewrite !Z.pow_succ_r by lia. lia.
  - cbn. lia.
Qed.

Lemma Zdigits2_le m b :
  0 <= m -> 0 <= b -> m < 2 ^ b -> Zdigits2 m <= b.
Proof.
  intros Hm Hb H. destruct m as [|p|p]; cbn [Zdigits2]; [lia| |lia].
  destruct (Z.le_gt_cases (Zpos (digits2_pos p)) b) as [L|G]; [exact L|].
  pose proof (digits2_pos_bounds p) as (B & _).
  pose proof (Z.pow_le_mono_r 2 b (Zpos (digits2_pos p) - 1) ltac:(lia) ltac:(lia)). lia.
Qed.

Lemma Zdigits2_ge p b :
  0 <= b -> 2 ^ b <= Zpos p -> b < Zpos (digits2_pos p).
Proof.
  intros Hb H.
  destruct (Z.le_gt_cases (Zpos (digits2_pos p)) b) as [L|G]; [|lia].
  pose proof (digits2_pos_bounds p) as (_ & B).
  pose proof (Z.pow_le_mono_r 2 (Zpos (digits2_pos p)) b ltac:(lia) L). lia.
Qed.

Lemma binary_round_aux_floor P s :
  102 <= s -> 2 ^ 52 <= Zpos P -> Zpos P + 2 ^ (s - 50) < 10 * 2 ^ s ->
  exists k,
    Math_floor (binary_round_aux 53 1024 false (Zpos P) (- s) loc_Exact) = Some k
    /\ 0 <= k < 10.
Proof.
  intros Hs Hlo Hhi.
  unfold binary_round_aux, shr_fexp. cbn [shr_record_of_loc]. rewrite shr_nat.
  set (d := Zdigits2 (Zpos P)).
  set (n := fexp 53 1024 (d + - s) - - s).
  assert (P50 : 0 < 2 ^ (s - 50)) by (apply Z.pow_pos_nonneg; lia).
  assert (Es : 2 ^ s = 2 ^ (s - 50) * 2 ^ 50) by (rewrite <- Z.pow_add_r by lia; f_equal; lia).
  assert (Hd1 : 53 <= d).
  { unfold d. cbn [Zdigits2]. pose proof (Zdigits2_ge P 52 ltac:(lia) Hlo). lia. }
  assert (Hd2 : d <= s + 4).
  { apply Zdigits2_le; [lia | lia |].
    replace (s + 4) with (s - 50 + 54) by lia. rewrite Z.pow_add_r by lia.
    change (2 ^ 50) with 1125899906842624 in Es. change (2 ^ 54) with 18014398509481984. lia. }
  assert (Hn : 0 <= n <= s - 49) by (unfold n, fexp, emin; lia).
  replace (Z.max 0 n) with n by lia.
  destruct (shr_iter (Zpos P) (Z.to_nat n) ltac:(lia)) as (Hm1 & Hr1).
  rewrite Z2Nat.id in Hm1, Hr1 by lia.
  set (mrs := Nat.iter (Z.to_nat n) shr_1 _) in *.
  assert (Pn : 0 < 2 ^ n) by (apply Z.pow_pos_nonneg; lia).
  assert (H1 : 0 <= shr_m mrs) by (rewrite Hm1; apply Z.div_pos; lia).
  destruct (round_nearest_even_bound mrs H1) as (Hlo2 & Hhi2).
  set (m2 := round_nearest_even (shr_m mrs) (loc_of_shr_record mrs)) in *.
  set (t := s - n).
  assert (Pt : 0 < 2 ^ (t - 49)) by (apply Z.pow_pos_nonneg; lia).
  assert (Et : 2 ^ (s - 50) * 2 = 2 ^ n * 2 ^ (t - 49)).
  { rewrite <- Z.pow_add_r by lia. rewrite Z.mul_comm, <- Z.pow_succ_r by lia.
    f_equal. lia. }
  assert (Hm2 : m2 < 10 * 2 ^ t).
  { assert (B : 2 * m2 * 2 ^ n <= 2 * Zpos P + 2 ^ n).
    { pose proof (Z.mul_div_le (Zpos P) (2 ^ n) Pn) as L. rewrite <- Hm1 in L.
      destruct (shr_r mrs); [specialize (Hr1 eq_refl)|]; nia. }
    assert (T : 2 ^ t = 2 ^ (t - 49) * 2 ^ 49)
      by (rewrite <- Z.pow_add_r by lia; f_equal; lia).
    assert (S' : 2 ^ s = 2 ^ n * 2 ^ t) by (rewrite <- Z.pow_add_r by lia; f_equal; lia).
    assert (N : 2 ^ n <= 2 * 2 ^ (s - 50)).
    { rewrite Z.mul_comm, Et. nia. }
    apply (Z.mul_lt_mono_pos_r (2 ^ n)); [exact Pn|]. nia. }
  replace (- s + n) with (- t) by (unfold t; lia).
  rewrite shr_nat.
  set (d2 := Zdigits2 m2).
  assert (Hd3 : d2 <= t + 4).
  { apply Zdigits2_le; [lia | unfold t; lia |].
    rewrite Z.pow_add_r by (unfold t; lia). change (2 ^ 4) with 16. 
    assert (0 < 2 ^ t) by (apply Z.pow_pos_nonneg; unfold t; lia). lia. }
  assert (Hd4 : 0 <= d2).
  { unfold d2. destruct m2; cbn [Zdigits2]; lia. }
  set (n2 := fexp 53 1024 (d2 + - t) - - t).
  assert (Hn2 : n2 <= t - 49) by (unfold n2, fexp, emin; lia).
  set (j := Z.max 0 n2).
  assert (Hj : 0 <= j <= t - 49) by (unfold j, t; lia).
  destruct (shr_iter m2 (Z.to_nat n2) ltac:(lia)) as (Hm3 & _).
  replace (Z.of_nat (Z.to_nat n2)) with j in Hm3 by (unfold j; lia).
  set (mrs2 := Nat.iter (Z.to_nat n2) shr_1 _) in *.
  assert (Pj : 0 < 2 ^ j) by (apply Z.pow_pos_nonneg; lia).
  assert (Ptj : 0 < 2 ^ (t - j)) by (apply Z.pow_pos_nonneg; lia).
  assert (Etj : 2 ^ t = 2 ^ (t - j) * 2 ^ j)
    by (rewrite <- Z.pow_add_r by lia; f_equal; lia).
  assert (H3 : 0 <= shr_m mrs2 < 10 * 2 ^ (t - j)).
  { rewrite Hm3. split; [apply Z.div_pos; lia|].
    apply Z.div_lt_upper_bound; [exact Pj|]. lia. }
  destruct (shr_m mrs2) as [|q|q] eqn:E3; [| |lia].
  - exists 0. cbn [Math_floor]. split; [reflexivity | lia].
  - replace (- t + j <=? 1024 - 53) with true by (symmetry; apply Z.leb_le; lia).
    cbn [Math_floor cond_Zopp]. eexists. split; [reflexivity|].
    rewrite Z.shiftl_div_pow2 by lia.
    replace (- (- t + j)) with (t - j) by lia.
    split; [apply Z.div_pos; lia|].
    apply Z.div_lt_upper_bound; lia.
Qed.

Lemma random_value_bounds m e :
  isRandomValue (S754_finite false m e) = true ->
  Zpos m < 2 ^ 53 /\ - 1074 <= e <= - 53.
Proof.
  unfold isRandomValue. intros H. apply andb_prop in H as (Hb & Hlt).
  unfold bounded, canonical_mantissa, fexp, emin in Hb.
  apply andb_prop in Hb as (Hc & _). apply Z.eqb_eq in Hc.
  pose proof (digits2_pos_bounds m) as (D1 & D2).
  set (d := Zpos (digits2_pos m)) in *.
  assert (Hd : d <= 53) by lia.
  assert (He : - 1074 <= e) by lia.
  split.
  { pose proof (Z.pow_le_mono_r 2 d 53 ltac:(lia) Hd). lia. }
  split; [exact He|].
  change (Number_of_nat 1) with (S754_finite false 4503599627370496 (- 52)) in Hlt.
  unfold SFltb, SFcompare in Hlt.
  destruct (Z.compare_spec e (- 52)) as [E|E|E]; [|lia|discriminate Hlt].
  exfalso. rewrite Pos.compare_cont_spec in Hlt.
  destruct (Pos.compare_spec m 4503599627370496) as [C|C|C];
    cbn [Pos.switch_Eq] in Hlt; try discriminate Hlt.
  assert (d = 53) by (clear C D1 D2 Hlt; lia).
  replace (d - 1) with 52 in D1 by (clear C D1 D2 Hlt; lia).
  change (2 ^ 52) with 4503599627370496 in D1.
  apply Pos2Z.pos_lt_pos in C. clear - D1 C. lia.
Qed.

(** For every value of [Math.random()], [Math.floor] of its product with
    ten is an integer from 0 to 9. *)
Lemma product_floor x :
  isRandomValue x = true ->
  exists k, Math_floor (Number_mul x (Number_of_nat 10)) = Some k /\ 0 <= k < 10.
Proof.
  intros H. destruct x as [[|]|s'| |[|] m e]; try discriminate H.
  - exists 0. split; [reflexivity | lia].
  - destruct (random_value_bounds m e H) as (Hm & He1 & He2).
    change (Number_of_nat 10) with (S754_finite false 5629499534213120 (- 49)).
    unfold Number_mul, SFmul. cbn [xorb].
    replace (e + - 49) with (- (49 - e)) by lia.
    apply binary_round_aux_floor; [lia | |].
    + rewrite Pos2Z.inj_mul. change (2 ^ 52) with 4503599627370496. lia.
    + rewrite Pos2Z.inj_mul.
      replace (49 - e - 50) with (- 53 - e + 52) by lia.
      replace (49 - e) with (- 53 - e + 102) by lia.
      rewrite !Z.pow_add_r by lia.
      assert (0 < 2 ^ (- 53 - e)) by (apply Z.pow_pos_nonneg; lia).
      change (2 ^ 53) with 9007199254740992 in Hm.
      change (2 ^ 52) with 4503599627370496.
      change (2 ^ 102) with 5070602400912917605986812821504. nia.
Qed.

End Rounding.

(** The kernel's primitive binary64 numbers agree with [Number_mul] on the
    product that selects a pose at the Number nearest to 0.7: it is 7
    exactly, where the product of the rationals stays below 7. *)
Example primitive_product_agrees :
  Prim2SF 0x1.6666666666666p-1%float = S754_finite false 6305039478318694 (-53)
  /\ Prim2SF 10%float = Number_of_nat 10
  /\ Prim2SF (0x1.6666666666666p-1 * 10)%float
     = Number_mul (S754_finite false 6305039478318694 (-53)) (Number_of_nat 10)
  /\ (0x1.6666666666666p-1 * 10 =? 7)%float = true
  /\ (6305039478318694 * 10 < 7 * 2 ^ 53)%Z.
Proof. repeat split; vm_compute; reflexivity. Qed.

Lemma randomPose_in (x : Number) :
  isRandomValue x = true ->
  exists k pose,
    Math_floor (Number_mul x (Number_of_nat 10)) = Some k
    /\ (0 <= k < 10)%Z
    /\ nth_error RANDOM_POSES (Z.to_nat k) = Some pose
    /\ randomPose x = Some pose
    /\ In pose RANDOM_POSES.
Proof.
  intros H. destruct (product_floor x H) as (k & Hk & Hk0 & Hk1).
  destruct (nth_error RANDOM_POSES (Z.to_nat k)) as [pose|] eqn:E.
  - exists k, pose. split; [exact Hk|]. split; [lia|]. split; [exact E|].
    split; [|eapply nth_error_In; exact E].
    unfold randomPose. change (length RANDOM_POSES) with 10. rewrite Hk.
    unfold at_index. now rewrite (proj2 (Z.ltb_ge k 0) Hk0).
  - apply nth_error_None in E. cbn [length RANDOM_POSES] in E. lia.
Qed.

Lemma RANDOM_POSES_truthy pose : In pose RANDOM_POSES -> truthy (Some pose) = true.
Proof.
  intros H. repeat (destruct H as [<-|H]; [reflexivity|]). destruct H.
Qed.

Lemma guidanceFor_text inp p :
  poseGuidanceMode inp = mode_text -> guidanceFor inp p = PoseGuidance.mk p None None.
Proof. intros H. unfold guidanceFor. now rewrite H. Qed.

Lemma text_mode_request modelImage t remote part :
  truthy (Some t) = true ->
  fileToGenerativePart modelImage = inr part ->
  snd (run (generatePosedVariation modelImage (PoseGuidance.mk (Some t) None None)) remote)
  = [[part; textPart (basePrompt +++ textGuidance t)]].
Proof.
  intros Ht Hp.
  pose proof (generate_text modelImage (PoseGuidance.mk (Some t) None None) remote part
                Hp eq_refl eq_refl) as G.
  cbn [PoseGuidance.text] in G. rewrite Ht in G. cbv zeta in G. now rewrite G.
Qed.

(** C7. In text mode, when the custom instruction is not blank every job
    carries exactly that text and sends it, between quotes, in the
    pose-guidance clause of its request. When it is empty or blank, job [i]
    carries entry [k] of the ten-entry catalog, [k] being [Math.floor] of
    the floating-point product of the [i]-th value of [Math.random()] with
    ten: always an integer from 0 to 9, hence always a member of the
    catalog, chosen from that one value alone, so that equal values give
    equal poses and nothing is removed from the catalog between jobs. *)
Theorem C7_text_mode_prompts (limit : nat) (random : nat -> Number) (inp : Inputs)
  (st : AppState) (r0 : Run) :
  poseGuidanceMode inp = mode_text ->
  handleGenerate_upto limit random inp st = Running r0 ->
  let prompts := makePrompts random inp in
  let sent p remote :=
    snd (run (generatePosedVariation (str (modelImage inp)) (guidanceFor inp p)) remote) in
  let request part pose :=
    [[part;
      textPart (basePrompt +++ nl
                +++ "**Pose Guidance:** Re-create the person in this specific pose/style: "
                +++ dq +++ pose +++ dq)]] in
  length prompts = numVariations inp
  /\ (forall r w i p, reachable inp r0 r ->
        nth_error (workers r) w = Some (AwaitGenerate i p) ->
        nth_error prompts i = Some p)
  /\ (trim (customPrompt inp) <> EmptyString ->
      forall i, i < numVariations inp ->
        nth_error prompts i = Some (Some (customPrompt inp))
        /\ guidanceFor inp (Some (customPrompt inp))
           = PoseGuidance.mk (Some (customPrompt inp)) None None
        /\ forall remote part,
             fileToGenerativePart (str (modelImage inp)) = inr part ->
             sent (Some (customPrompt inp)) remote = request part (customPrompt inp))
  /\ (trim (customPrompt inp) = EmptyString ->
      (forall i, isRandomValue (random i) = true) ->
      length RANDOM_POSES = 10
      /\ (forall i j, i < numVariations inp -> j < numVariations inp ->
            random i = random j -> nth_error prompts i = nth_error prompts j)
      /\ forall i, i < numVariations inp ->
           exists k pose,
             Math_floor (Number_mul (random i) (Number_of_nat 10)) = Some k
             /\ (0 <= k < 10)%Z
             /\ nth_error RANDOM_POSES (Z.to_nat k) = Some pose
             /\ nth_error prompts i = Some (Some pose)
             /\ In pose RANDOM_POSES
             /\ guidanceFor inp (Some pose) = PoseGuidance.mk (Some pose) None None
             /\ forall remote part,
                  fileToGenerativePart (str (modelImage inp)) = inr part ->
                  sent (Some pose) remote = request part pose).
Proof.
  intros Hmode Hs prompts sent request.
  split; [apply makePrompts_length|]. split.
  { intros r w i p Hr Hn.
    pose proof (start_inv limit random inp st r0 Hs) as I0.
    pose proof (reachable_inv inp _ limit r0 r I0 Hr) as (J & _ & _).
    apply (inv_prompt _ _ _ J). eapply nth_error_In; eauto. }
  split.
  - intros Hc i Hi. subst prompts sent request. unfold makePrompts.
    rewrite (proj2 (String.eqb_neq _ _) Hc). cbn [negb].
    split; [|split].
    + apply nth_error_repeat. exact Hi.
    + now apply guidanceFor_text.
    + intros remote part Hp. rewrite (guidanceFor_text inp _ Hmode).
      apply text_mode_request; [|exact Hp].
      cbn [truthy]. destruct (customPrompt inp); [now elim Hc | reflexivity].
  - intros Hc Hrand. subst prompts sent request. unfold makePrompts.
    rewrite Hc. cbn [String.eqb negb].
    split; [reflexivity|]. split.
    + intros i j Hi Hj E.
      rewrite !nth_error_map, !nth_error_seq.
      rewrite (proj2 (Nat.ltb_lt _ _) Hi), (proj2 (Nat.ltb_lt _ _) Hj).
      cbn [option_map Nat.add]. now rewrite E.
    + intros i Hi.
      destruct (randomPose_in (random i) (Hrand i)) as (k & pose & Hk & Hk1 & Hn & Hp & Hin).
      exists k, pose.
      split; [exact Hk|]. split; [exact Hk1|]. split; [exact Hn|].
      split; [|split; [exact Hin|split]].
      * rewrite nth_error_map, nth_error_seq, (proj2 (Nat.ltb_lt _ _) Hi).
        cbn [option_map Nat.add]. now rewrite Hp.
      * now apply guidanceFor_text.
      * intros remote part Hpart. rewrite (guidanceFor_text inp _ Hmode).
        apply text_mode_request; [|exact Hpart].
        now apply RANDOM_POSES_truthy.
Qed.

Lemma exampleRandom_values i : isRandomValue (exampleRandom i) = true.
Proof.
  unfold exampleRandom. do 6 (destruct i as [|i]; [reflexivity|]).
  now destruct i.
Qed.

(** C1 on three jobs and a pool of two workers, at the end of the schedule
    that [drive] builds. *)
Lemma C1_run_completes_witness :
  exists r0 r,
    handleGenerate_upto 2 exampleRandom (exampleInputs 3 EmptyString) idle = Running r0
    /\ execAll (exampleInputs 3 EmptyString)
         (drive (exampleInputs 3 EmptyString) (measure r0) r0) r0 = Some r
    /\ handler r = HandlerReturned
    /\ completedCount (shared r) = 3
    /\ isLoading (app (shared r)) = false.
Proof.
  eexists. eexists. split; [reflexivity|].
  match goal with |- execAll ?inp ?evs ?r0 = Some ?r /\ _ =>
    assert (E : execAll inp evs r0 = Some r) by (vm_compute; reflexivity);
    destruct (C1_run_completes 2 exampleRandom inp idle r0
                ltac:(cbn; lia) ltac:(lia) eq_refl r
                (execAll_reachable inp evs r0 r E)) as (_ & _ & H & _)
  end.
  split; [exact E|]. split; [reflexivity|].
  destruct (H eq_refl) as (_ & _ & _ & Hc & Hl). split; [exact Hc | exact Hl].
Defined.

(** C2 on the same run. *)
Lemma C2_claims_partition_witness :
  exists r0 r,
    handleGenerate_upto 2 exampleRandom (exampleInputs 3 EmptyString) idle = Running r0
    /\ execAll (exampleInputs 3 EmptyString)
         (drive (exampleInputs 3 EmptyString) (measure r0) r0) r0 = Some r
    /\ handler r = HandlerReturned
    /\ map snd (claimed (shared r)) = [0; 1; 2].
Proof.
  eexists. eexists. split; [reflexivity|].
  match goal with |- execAll ?inp ?evs ?r0 = Some ?r /\ _ =>
    assert (E : execAll inp evs r0 = Some r) by (vm_compute; reflexivity);
    destruct (C2_claims_partition 2 exampleRandom inp idle r0
                ltac:(lia) eq_refl r (execAll_reachable inp evs r0 r E))
      as (_ & _ & _ & _ & _ & _ & H)
  end.
  split; [exact E|]. split; [reflexivity|].
  exact (proj1 (H eq_refl)).
Defined.

(** C4 on three jobs and a pool of two workers, after the second call has
    settled. *)
Lemma C4_counter_and_transitions_witness :
  exists r0 r,
    handleGenerate_upto 2 exampleRandom (exampleInputs 3 EmptyString) idle = Running r0
    /\ execAll (exampleInputs 3 EmptyString) [Settle 1 remoteOk] r0 = Some r
    /\ completedCount (shared r) = countSettled (generatedImages (app (shared r)))
    /\ map GeneratedImage.id (generatedImages (app (shared r))) = [0; 1; 2].
Proof.
  eexists. eexists. split; [reflexivity|].
  match goal with |- execAll ?inp ?evs ?r0 = Some ?r /\ _ =>
    assert (E : execAll inp evs r0 = Some r) by (vm_compute; reflexivity);
    destruct (C4_counter_and_transitions 2 exampleRandom inp idle r0 eq_refl r
                (execAll_reachable inp evs r0 r E)) as (H1 & _ & H3 & _)
  end.
  split; [exact E|]. split; [exact H1 | exact H3].
Defined.

(** C5 on the second job of three, whose call throws a value that is not an
    [Error]. *)
Lemma C5_failure_isolated_witness :
  exists r0,
    handleGenerate_upto 2 exampleRandom (exampleInputs 3 "a side profile") idle
    = Running r0
    /\ exists r' img,
         exec (exampleInputs 3 "a side profile") (Settle 1 (remoteThrows OtherValue)) r0
         = Some r'
         /\ nth_error (generatedImages (app (shared r'))) 1 = Some img
         /\ GeneratedImage.status img = Error
         /\ GeneratedImage.error img
            = Some "An unknown error occurred during generation.".
Proof.
  eexists. split; [reflexivity|].
  match goal with |- exists r' img, exec _ _ ?r0 = _ /\ _ =>
    destruct (C5_failure_isolated 2 exampleRandom (exampleInputs 3 "a side profile")
                idle r0 ltac:(lia) eq_refl r0 1 1 (Some "a side profile")
                (remoteThrows OtherValue) OtherValue
                (reach_start _ _) eq_refl eq_refl)
      as (r' & img & Hx & Hn & _ & Hst & He & _)
  end.
  exists r', img. split; [exact Hx|]. split; [exact Hn|]. split; [exact Hst | exact He].
Defined.

(** C7 on three jobs. With a blank instruction the random source yields the
    Number nearest to 0.7 first, whose floating-point product with ten is 7:
    job 0 carries entry 7 of the catalog. With [soft light] every job carries
    that text and sends it in the pose-guidance clause. *)
Lemma C7_text_mode_prompts_witness :
  exists r0,
    handleGenerate_upto 2 exampleRandom (exampleInputs 3 "  ") idle = Running r0
    /\ exampleRandom 0 = S754_finite false 6305039478318694 (-53)
    /\ nth_error (makePrompts exampleRandom (exampleInputs 3 "  ")) 0
       = Some (Some "A full-body shot in a crouching pose.")
    /\ nth_error (makePrompts exampleRandom (exampleInputs 3 "soft light")) 2
       = Some (Some "soft light")
    /\ snd (run (generatePosedVariation examplePng
                   (guidanceFor (exampleInputs 3 "soft light") (Some "soft light")))
              remoteOk)
       = [[imagePart "image/png" "AAA=";
           textPart (basePrompt +++ nl
                     +++ "**Pose Guidance:** Re-create the person in this specific pose/style: "
                     +++ dq +++ "soft light" +++ dq)]].
Proof.
  eexists. split; [reflexivity|]. split; [reflexivity|]. split; [|split].
  - destruct (C7_text_mode_prompts 2 exampleRandom (exampleInputs 3 "  ") idle _
                eq_refl eq_refl) as (_ & _ & _ & H).
    destruct (H eq_refl exampleRandom_values) as (_ & _ & H3).
    destruct (H3 0 ltac:(cbn; lia)) as (k & pose & Hk & _ & Hn & Hp & _).
    assert (E : k = 7%Z) by (vm_compute in Hk; congruence).
    rewrite E in Hn. vm_compute in Hn. congruence.
  - destruct (C7_text_mode_prompts 2 exampleRandom (exampleInputs 3 "soft light") idle _
                eq_refl eq_refl) as (_ & _ & H & _).
    exact (proj1 (H ltac:(discriminate) 2 ltac:(cbn; lia))).
  - destruct (C7_text_mode_prompts 2 exampleRandom (exampleInputs 3 "soft light") idle _
                eq_refl eq_refl) as (_ & _ & H & _).
    exact (proj2 (proj2 (H ltac:(discriminate) 2 ltac:(cbn; lia)))
             remoteOk (imagePart "image/png" "AAA=") eq_refl).
Defined.

End DispatcherClaims.

(* ================================================================== *)
(** ** Two runs, executed *)
(* ================================================================== *)

Section Scenarios.

(** Ten variations, the source's five workers, an empty instruction and a
    remote model that always answers with an image: ten jobs Done, the
    counter at ten, [isLoading] back to false. *)
Example ten_variations_all_done :
  match handleGenerate exampleRandom (exampleInputs 10 EmptyString) idle with
  | Running r0 =>
      option_map
        (fun r => (map GeneratedImage.status (generatedImages (app (shared r))),
                   completedCount (shared r), progress (app (shared r)),
                   isLoading (app (shared r)), handler r))
        (execAll (exampleInputs 10 EmptyString)
           (drive (exampleInputs 10 EmptyString) (measure r0) r0) r0)
  | Refused _ => None
  end
  = Some (repeat Done 10, 10, 10, false, HandlerReturned).
Proof. vm_compute. reflexivity. Qed.

(** Three variations where the call of job 1 throws: Done, Error, Done,
    whichever call settles first. *)
Example three_variations_one_failure :
  let inp := exampleInputs 3 "arms crossed" in
  let failing := remoteThrows (ErrorObject "quota exceeded") in
  let outcome evs :=
    match handleGenerate exampleRandom inp idle with
    | Running r0 =>
        option_map
          (fun r => map (fun img => (GeneratedImage.id img, GeneratedImage.status img,
                                     GeneratedImage.error img))
                      (generatedImages (app (shared r))))
          (execAll inp evs r0)
    | Refused _ => None
    end in
  outcome [Settle 0 remoteOk; Settle 1 failing; Settle 2 remoteOk;
           Resume 0; Resume 1; Resume 2; Join]
  = Some [(0, Done, None); (1, Error, Some "quota exceeded"); (2, Done, None)]
  /\ outcome [Settle 2 remoteOk; Resume 2; Settle 1 failing; Settle 0 remoteOk;
              Resume 0; Resume 1; Join]
     = Some [(0, Done, None); (1, Error, Some "quota exceeded"); (2, Done, None)].
Proof. split; vm_compute; reflexivity. Qed.

End Scenarios.

(* ================================================================== *)
(** ** More properties of the generation client *)
(* ================================================================== *)

Section ClientMore.

Lemma fileToGenerativePart_throws u e :
  fileToGenerativePart u = inl e -> e = InvalidInput.
Proof.
  unfold fileToGenerativePart. destruct (matchDataUrl u) as [[m p]|]; [discriminate|].
  intros H; now injection H.
Qed.

Lemma fileToGenerativePart_image u p :
  fileToGenerativePart u = inr p -> exists mime payload, p = imagePart mime payload.
Proof.
  intros H. apply fileToGenerativePart_accepts in H as (m & x & _ & _ & _ & ->). eauto.
Qed.

Lemma imagesThenText_intro images prompt :
  Forall (fun p => exists mime payload, p = imagePart mime payload) images ->
  imagesThenText (images ++ [textPart prompt]).
Proof. intros H. exists images, prompt. auto. Qed.

Lemma extractImageData_loop_absent ps :
  extractImageData_loop ps = None -> Forall (fun q => Part.inlineData q = None) ps.
Proof.
  induction ps as [|q ps IH]; cbn [extractImageData_loop]; [constructor|].
  destruct (Part.inlineData q) eqn:E; [discriminate|]. auto.
Qed.

Lemma extractImageData_loop_uri ps u :
  extractImageData_loop ps = Some u ->
  exists before part after b,
    ps = before ++ part :: after
    /\ Forall (fun q => Part.inlineData q = None) before
    /\ Part.inlineData part = Some b
    /\ u = "data:" +++ mimeType b +++ ";base64," +++ data b.
Proof.
  induction ps as [|q ps IH]; cbn [extractImageData_loop]; [discriminate|].
  destruct (Part.inlineData q) as [b|] eqn:E.
  - intros H; injection H as <-. exists [], q, ps, b. auto.
  - intros H. destruct (IH H) as (before & part & after & b & -> & Hb & Hp & Hu).
    exists (q :: before), part, after, b. auto.
Qed.

(** What [extractImageData] can return or throw. *)
Lemma extractImageData_cases response :
  (exists u, extractImageData response = inr u /\ isDataUri u
             /\ extractImageData_loop (parts response) = Some u)
  \/ (Forall (fun q => Part.inlineData q = None) (parts response)
      /\ (extractImageData response = inl (GenerationRefused (finishReason response))
          /\ finishReason response <> "STOP" /\ finishReason response <> "MAX_TOKENS"
          \/ extractImageData response = inl NoImageProduced
             /\ (finishReason response = "STOP" \/ finishReason response = "MAX_TOKENS"))).
Proof.
  unfold extractImageData.
  destruct (extractImageData_loop (parts response)) as [u|] eqn:E.
  - left. exists u. split; [reflexivity|]. split; [|reflexivity].
    apply extractImageData_loop_uri in E as (_ & _ & _ & b & _ & _ & _ & ->).
    exists (mimeType b), (data b). reflexivity.
  - right. split; [now apply extractImageData_loop_absent|].
    destruct (finishReason response =? "STOP")%string eqn:E1.
    + right. split; [reflexivity|]. left. now apply String.eqb_eq.
    + destruct (finishReason response =? "MAX_TOKENS")%string eqn:E2.
      * right. split; [reflexivity|]. right. now apply String.eqb_eq.
      * left. split; [reflexivity|]. split; now apply String.eqb_neq.
Qed.

Lemma generate_cases modelImage guidance remote :
  let r := PoseGuidance.referenceImage guidance in
  let k := PoseGuidance.sketchImage guidance in
  (run (generatePosedVariation modelImage guidance) remote = (inl InvalidInput, [])
   /\ (fileToGenerativePart modelImage = inl InvalidInput
       \/ (truthy r = true /\ fileToGenerativePart (str r) = inl InvalidInput)
       \/ (truthy r = false /\ truthy k = true
           /\ fileToGenerativePart (str k) = inl InvalidInput)))
  \/ (exists request,
        run (generatePosedVariation modelImage guidance) remote
        = (answerOf (remote request), [request])
        /\ imagesThenText request
        /\ (exists p, fileToGenerativePart modelImage = inr p)
        /\ (truthy r = true -> exists q, fileToGenerativePart (str r) = inr q)
        /\ (truthy r = false -> truthy k = true ->
            exists q, fileToGenerativePart (str k) = inr q)).
Proof.
  intros r k.
  destruct (fileToGenerativePart modelImage) as [e|p] eqn:Hp.
  { pose proof (fileToGenerativePart_throws _ _ Hp) as ->.
    left. split; [now apply generate_model_rejected | auto]. }
  pose proof (fileToGenerativePart_image _ _ Hp) as Ip.
  destruct (truthy r) eqn:Hr.
  - pose proof (generate_reference modelImage guidance remote p Hp Hr) as G. fold r in G.
    destruct (fileToGenerativePart (str r)) as [e|q] eqn:Hq.
    + pose proof (fileToGenerativePart_throws _ _ Hq) as ->. left. auto.
    + right. cbv zeta in G. eexists. split; [exact G|].
      split; [|split; [eauto|split; [eauto|discriminate]]].
      apply (imagesThenText_intro [p; q]).
      repeat constructor; eauto using fileToGenerativePart_image.
  - destruct (truthy k) eqn:Hk.
    + pose proof (generate_sketch modelImage guidance remote p Hp Hr Hk) as G. fold k in G.
      destruct (fileToGenerativePart (str k)) as [e|q] eqn:Hq.
      * pose proof (fileToGenerativePart_throws _ _ Hq) as ->. left.
        split; [exact G | right; right; auto].
      * right. cbv zeta in G. eexists. split; [exact G|].
        split; [|split; [eauto|split; [discriminate|eauto]]].
        apply (imagesThenText_intro [p; q]).
        repeat constructor; eauto using fileToGenerativePart_image.
    + pose proof (generate_text modelImage guidance remote p Hp Hr Hk) as G.
      right. cbv zeta in G. eexists. split; [exact G|].
      split; [|split; [eauto|split; discriminate]].
      apply (imagesThenText_intro [p]). repeat constructor; eauto.
Qed.

(** X1. One call of [generatePosedVariation] sends at most one request. It
    sends none exactly when an image it uses is refused (the model image, the
    reference, or the sketch when no reference is set), and then it throws
    [InvalidInput]; when it sends one, the result is what the remote call
    threw or what extraction makes of the response. *)
Theorem generatePosedVariation_one_request (modelImage : string)
  (guidance : PoseGuidance.t) (remote : Remote) :
  let r := PoseGuidance.referenceImage guidance in
  let k := PoseGuidance.sketchImage guidance in
  let result := fst (run (generatePosedVariation modelImage guidance) remote) in
  let sent := snd (run (generatePosedVariation modelImage guidance) remote) in
  length sent <= 1
  /\ (sent = [] <->
      fileToGenerativePart modelImage = inl InvalidInput
      \/ (truthy r = true /\ fileToGenerativePart (str r) = inl InvalidInput)
      \/ (truthy r = false /\ truthy k = true
          /\ fileToGenerativePart (str k) = inl InvalidInput))
  /\ (sent = [] -> result = inl InvalidInput)
  /\ (forall request, sent = [request] ->
      result = answerOf (remote request) /\ imagesThenText request).
Proof.
  intros r k result sent. subst result sent r k.
  pose proof (generate_cases modelImage guidance remote) as C. cbv zeta in C.
  destruct C as [(E & Hc)|(request & E & Hs & (p & Hp) & Hr & Hk)];
    rewrite E; cbn [fst snd length].
  - split; [lia|]. split; [tauto|]. split; [reflexivity | discriminate].
  - split; [lia|]. split; [|split; [discriminate|]].
    + split; [discriminate|]. intros [H|[[H1 H2]|[H1 [H2 H3]]]].
      * congruence.
      * destruct (Hr H1) as [q Hq]. congruence.
      * destruct (Hk H1 H2) as [q Hq]. congruence.
    + intros request' H. injection H as <-. auto.
Qed.

(** X2. What a call of [generatePosedVariation] can throw: [InvalidInput]
    with nothing sent; or, behind its one request, the value the remote call
    threw, unchanged, or [GenerationRefused] with the stop reason of a response
    without inline image, or [NoImageProduced]. What it returns is a data URI
    taken from the response to its one request. *)
Theorem generatePosedVariation_outcome (modelImage : string)
  (guidance : PoseGuidance.t) (remote : Remote) :
  let result := fst (run (generatePosedVariation modelImage guidance) remote) in
  let sent := snd (run (generatePosedVariation modelImage guidance) remote) in
  (forall e, result = inl e ->
     (e = InvalidInput /\ sent = [])
     \/ exists request, sent = [request]
         /\ (remote request = inl e
             \/ exists response, remote request = inr response
                 /\ Forall (fun q => Part.inlineData q = None) (parts response)
                 /\ (e = GenerationRefused (finishReason response)
                     /\ finishReason response <> "STOP"
                     /\ finishReason response <> "MAX_TOKENS"
                     \/ e = NoImageProduced
                        /\ (finishReason response = "STOP"
                            \/ finishReason response = "MAX_TOKENS"))))
  /\ (forall u, result = inr u ->
       isDataUri u
       /\ exists request response,
           sent = [request] /\ remote request = inr response
           /\ extractImageData response = inr u).
Proof.
  intros result sent. subst result sent.
  pose proof (generate_cases modelImage guidance remote) as C. cbv zeta in C.
  destruct C as [(E & _)|(request & E & _)]; rewrite E; cbn [fst snd].
  - split; [intros e H; injection H as <-; auto | discriminate].
  - split.
    + intros e H. right. exists request. split; [reflexivity|].
      destruct (remote request) as [e'|response] eqn:R; cbn [answerOf] in H.
      * left. congruence.
      * right. exists response. split; [reflexivity|].
        destruct (extractImageData_cases response)
          as [(u & Hu & _)|(Hn & [(Hx & H1 & H2)|(Hx & H1)])].
        -- congruence.
        -- split; [exact Hn|]. left. split; [congruence | auto].
        -- split; [exact Hn|]. right. split; [congruence | auto].
    + intros u H.
      destruct (remote request) as [e'|response] eqn:R; cbn [answerOf] in H;
        [discriminate|].
      destruct (extractImageData_cases response) as [(u' & Hu & Hd & _)|(_ & [(Hx & _)|(Hx & _)])];
        try congruence.
      assert (u' = u) as -> by congruence.
      split; [exact Hd|]. exists request, response. auto.
Qed.

(** X2 on a call whose remote call throws. *)
Lemma generatePosedVariation_outcome_witness :
  fst (run (generatePosedVariation examplePng (PoseGuidance.mk (Some "x") None None))
         (remoteThrows (ErrorObject "503 Service Unavailable")))
  = inl (ErrorObject "503 Service Unavailable")
  /\ exists request,
       snd (run (generatePosedVariation examplePng
                   (PoseGuidance.mk (Some "x") None None))
              (remoteThrows (ErrorObject "503 Service Unavailable")))
       = [request].
Proof.
  split; [reflexivity|].
  destruct (proj1 (generatePosedVariation_outcome examplePng
                     (PoseGuidance.mk (Some "x") None None)
                     (remoteThrows (ErrorObject "503 Service Unavailable")))
              (ErrorObject "503 Service Unavailable") eq_refl)
    as [[H _]|(request & Hs & _)]; [discriminate H|].
  exists request. exact Hs.
Defined.

(** X3. Round trip between the two helpers. The part that
    [fileToGenerativePart] makes of a data URL is extracted back to the same
    URL; and the data URI extracted from a response is accepted again as an
    image argument, giving the same type and payload, when the model's image
    is a PNG, JPEG or WebP whose payload has no line terminator. *)
Theorem data_url_round_trip :
  (forall u part stop,
      fileToGenerativePart u = inr part ->
      extractImageData {| parts := [part]; finishReason := stop |} = inr u)
  /\ (forall response u before part after b,
        parts response = before ++ part :: after ->
        Forall (fun q => Part.inlineData q = None) before ->
        Part.inlineData part = Some b ->
        extractImageData response = inr u ->
        In (mimeType b) imageTypes -> dotStar (data b) = true ->
        fileToGenerativePart u = inr (imagePart (mimeType b) (data b))).
Proof.
  split.
  - intros u part stop H.
    apply fileToGenerativePart_accepts in H as (m & x & _ & _ & -> & ->).
    reflexivity.
  - intros response u before part after b Hparts Hb Hp Hu Hm Hd.
    unfold extractImageData in Hu.
    rewrite Hparts, (extractImageData_loop_first before part after b Hb Hp) in Hu.
    injection Hu as <-.
    apply fileToGenerativePart_accepts. exists (mimeType b), (data b). auto.
Qed.

Lemma data_url_round_trip_witness :
  extractImageData {| parts := [imagePart "image/webp" "UklGRg=="]; finishReason := "STOP" |}
  = inr "data:image/webp;base64,UklGRg=="
  /\ fileToGenerativePart "data:image/webp;base64,UklGRg=="
     = inr (imagePart "image/webp" "UklGRg==").
Proof.
  split.
  - apply (proj1 data_url_round_trip "data:image/webp;base64,UklGRg=="
             (imagePart "image/webp" "UklGRg==") "STOP" eq_refl).
  - apply (proj2 data_url_round_trip
             {| parts := [textPart "done"; imagePart "image/webp" "UklGRg=="];
                finishReason := "STOP" |}
             "data:image/webp;base64,UklGRg=="
             [textPart "done"] (imagePart "image/webp" "UklGRg==") []
             {| data := "UklGRg=="; mimeType := "image/webp" |}
             eq_refl ltac:(repeat constructor) eq_refl eq_refl
             ltac:(cbn; auto) eq_refl).
Defined.

End ClientMore.

(* ================================================================== *)
(** ** Properties of the other functions of the service *)
(* ================================================================== *)

Section Service.

Lemma disciplined_intro (c : Client string) :
  (forall remote,
      run c remote = (inl InvalidInput, [])
      \/ exists request,
           run c remote = (answerOf (remote request), [request])
           /\ imagesThenText request) ->
  disciplined c.
Proof.
  intros H remote. destruct (H remote) as [E|(request & E & Hs)]; rewrite E;
    cbn [fst snd length].
  - split; [lia|]. split; [constructor|]. split; [reflexivity | discriminate].
  - split; [lia|]. split; [repeat constructor; exact Hs|].
    split; [discriminate|]. intros request' Hr. now injection Hr as <-.
Qed.

Lemma whenSet_unset clause : whenSet clause None = EmptyString
                             /\ whenSet clause (Some EmptyString) = EmptyString.
Proof. split; reflexivity. Qed.

Lemma whenSet_set clause t : t <> EmptyString -> whenSet clause (Some t) = clause t.
Proof.
  intros H. unfold whenSet. cbn [truthy str].
  apply String.eqb_neq in H. now rewrite H.
Qed.

Lemma append_whenSet prompt clause v :
  (if truthy v then prompt +++ clause (str v) else prompt) = prompt +++ whenSet clause v.
Proof.
  unfold whenSet. destruct (truthy v); [reflexivity | now rewrite append_nil_r].
Qed.

(** The shape shared by the functions that send one image and one text. *)
Lemma single_image_call (c : Client string) imageUrl text :
  (forall remote log,
      c remote log
      = match fileToGenerativePart imageUrl with
        | inl e => (inl e, log)
        | inr p =>
            (answerOf (remote [p; textPart text]), log ++ [[p; textPart text]])
        end) ->
  (fileToGenerativePart imageUrl = inl InvalidInput ->
   forall remote, run c remote = (inl InvalidInput, []))
  /\ (forall p, fileToGenerativePart imageUrl = inr p ->
      forall remote,
        run c remote = (answerOf (remote [p; textPart text]), [[p; textPart text]]))
  /\ disciplined c.
Proof.
  intros H. split; [|split].
  - intros E remote. unfold run. now rewrite H, E.
  - intros p E remote. unfold run. now rewrite H, E.
  - apply disciplined_intro. intros remote. unfold run. rewrite H.
    destruct (fileToGenerativePart imageUrl) as [e|p] eqn:E.
    + left. now rewrite (fileToGenerativePart_throws _ _ E).
    + right. eexists. split; [reflexivity|].
      apply (imagesThenText_intro [p]). repeat constructor.
      eauto using fileToGenerativePart_image.
Qed.

Ltac unfold_client :=
  intros remote log;
  cbv [bind lift ret callGeminiImageModel answerOf textPart];
  rewrite ?append_whenSet;
  destruct (fileToGenerativePart _) as [e|p]; [reflexivity|];
  cbn [app]; destruct (remote _); reflexivity.

Lemma extractOutfitFromImage_call imageUrl instructions remote log :
  extractOutfitFromImage imageUrl instructions remote log
  = match fileToGenerativePart imageUrl with
    | inl e => (inl e, log)
    | inr p =>
        let text := extractOutfitPrompt
                    +++ whenSet additionalInstructionsClause instructions in
        (answerOf (remote [p; textPart text]), log ++ [[p; textPart text]])
    end.
Proof. revert remote log. unfold extractOutfitFromImage. unfold_client. Qed.

Lemma fillMaskedImage_call prompt maskedImageUrl instructions remote log :
  fillMaskedImage prompt maskedImageUrl instructions remote log
  = match fileToGenerativePart maskedImageUrl with
    | inl e => (inl e, log)
    | inr p =>
        let text := fillMaskedPrompt prompt +++ whenSet refinementSuffix instructions in
        (answerOf (remote [p; textPart text]), log ++ [[p; textPart text]])
    end.
Proof. revert remote log. unfold fillMaskedImage. unfold_client. Qed.

Lemma generateCloneEffectImage_call imageUrl instructions remote log :
  generateCloneEffectImage imageUrl instructions remote log
  = match fileToGenerativePart imageUrl with
    | inl e => (inl e, log)
    | inr p =>
        let text := cloneEffectPrompt +++ whenSet refinementSuffix instructions in
        (answerOf (remote [p; textPart text]), log ++ [[p; textPart text]])
    end.
Proof. revert remote log. unfold generateCloneEffectImage. unfold_client. Qed.

Lemma removeObjectFromImage_call maskedImageUrl remote log :
  removeObjectFromImage maskedImageUrl remote log
  = match fileToGenerativePart maskedImageUrl with
    | inl e => (inl e, log)
    | inr p =>
        (answerOf (remote [p; textPart removeObjectPrompt]),
         log ++ [[p; textPart removeObjectPrompt]])
    end.
Proof. revert remote log. unfold removeObjectFromImage. unfold_client. Qed.

Lemma generateBackgroundFromConcept_call conceptImageUrl remote log :
  generateBackgroundFromConcept conceptImageUrl remote log
  = match fileToGenerativePart conceptImageUrl with
    | inl e => (inl e, log)
    | inr p =>
        (answerOf (remote [p; textPart backgroundFromConceptPrompt]),
         log ++ [[p; textPart backgroundFromConceptPrompt]])
    end.
Proof. revert remote log. unfold generateBackgroundFromConcept. unfold_client. Qed.

Lemma generateDepthMap_call imageUrl remote log :
  generateDepthMap imageUrl remote log
  = match fileToGenerativePart imageUrl with
    | inl e => (inl e, log)
    | inr p =>
        (answerOf (remote [p; textPart depthMapPrompt]),
         log ++ [[p; textPart depthMapPrompt]])
    end.
Proof. revert remote log. unfold generateDepthMap. unfold_client. Qed.

Lemma generateApparelMockup_call designUrl apparelPrompt remote log :
  generateApparelMockup designUrl apparelPrompt remote log
  = match fileToGenerativePart designUrl with
    | inl e => (inl e, log)
    | inr p =>
        (answerOf (remote [p; textPart (apparelMockupPrompt apparelPrompt)]),
         log ++ [[p; textPart (apparelMockupPrompt apparelPrompt)]])
    end.
Proof. revert remote log. unfold generateApparelMockup. unfold_client. Qed.

Lemma mapToParts_accepts imageUrls ps :
  Forall2 (fun u p => fileToGenerativePart u = inr p) imageUrls ps ->
  mapToParts imageUrls = inr ps.
Proof.
  induction 1 as [|u p us ps Hu _ IH]; cbn [mapToParts]; [reflexivity|].
  now rewrite Hu, IH.
Qed.

Lemma mapToParts_rejects imageUrls :
  Exists (fun u => fileToGenerativePart u = inl InvalidInput) imageUrls ->
  mapToParts imageUrls = inl InvalidInput.
Proof.
  induction imageUrls as [|u us IH]; intros H; [inversion H|].
  cbn [mapToParts].
  destruct (fileToGenerativePart u) as [e|p] eqn:E.
  - now rewrite (fileToGenerativePart_throws _ _ E).
  - apply Exists_cons in H as [H|H]; [congruence|]. now rewrite (IH H).
Qed.

Lemma mapToParts_cases imageUrls :
  (mapToParts imageUrls = inl InvalidInput
   /\ Exists (fun u => fileToGenerativePart u = inl InvalidInput) imageUrls)
  \/ exists ps, mapToParts imageUrls = inr ps
       /\ Forall2 (fun u p => fileToGenerativePart u = inr p) imageUrls ps.
Proof.
  induction imageUrls as [|u us IH]; cbn [mapToParts].
  - right. exists []. auto.
  - destruct (fileToGenerativePart u) as [e|p] eqn:E.
    + pose proof (fileToGenerativePart_throws _ _ E) as ->.
      left. split; [reflexivity | left; exact E].
    + destruct IH as [(-> & Hx)|(ps & -> & Hf)].
      * left. split; [reflexivity | right; exact Hx].
      * right. exists (p :: ps). split; [reflexivity | constructor; assumption].
Qed.

Lemma generateStyledImage_call prompt imageUrls additionalInstructions remote log :
  generateStyledImage prompt imageUrls additionalInstructions remote log
  = match mapToParts imageUrls with
    | inl e => (inl e, log)
    | inr ps =>
        let text := prompt +++ whenSet additionalInstructionsClause additionalInstructions in
        (answerOf (remote (ps ++ [textPart text])), log ++ [ps ++ [textPart text]])
    end.
Proof.
  unfold generateStyledImage.
  cbv [bind lift ret callGeminiImageModel answerOf textPart].
  rewrite ?append_whenSet.
  destruct (mapToParts imageUrls) as [e|ps]; [reflexivity|].
  destruct (remote _); reflexivity.
Qed.

(** X4. [generateStyledImage] converts the image URLs in order and stops at
    the first one that is refused: it then throws [InvalidInput] and sends
    nothing, whatever the other URLs are. When all are accepted it sends one
    request, the images in the order given followed by one text part, which
    is the prompt and, when the additional instructions are a non-empty
    string, the instructions clause; an empty list of images is allowed. *)
Theorem generateStyledImage_request (prompt : string) (imageUrls : list string)
  (additionalInstructions : option string) (remote : Remote) :
  let text := prompt +++ whenSet additionalInstructionsClause additionalInstructions in
  (Exists (fun u => fileToGenerativePart u = inl InvalidInput) imageUrls ->
   run (generateStyledImage prompt imageUrls additionalInstructions) remote
   = (inl InvalidInput, []))
  /\ (forall ps,
        Forall2 (fun u p => fileToGenerativePart u = inr p) imageUrls ps ->
        run (generateStyledImage prompt imageUrls additionalInstructions) remote
        = (answerOf (remote (ps ++ [textPart text])), [ps ++ [textPart text]])
        /\ length (ps ++ [textPart text]) = S (length imageUrls))
  /\ (imageUrls = [] ->
      snd (run (generateStyledImage prompt imageUrls additionalInstructions) remote)
      = [[textPart text]]).
Proof.
  intros text. unfold run. split; [|split].
  - intros H. now rewrite generateStyledImage_call, (mapToParts_rejects _ H).
  - intros ps H. rewrite generateStyledImage_call, (mapToParts_accepts _ _ H).
    split; [reflexivity|].
    rewrite length_app, (Forall2_length H). cbn [length]. lia.
  - intros ->. rewrite generateStyledImage_call. reflexivity.
Qed.

Lemma generateStyledImage_request_witness :
  run (generateStyledImage "Blend the two." [examplePng; "data:image/gif;base64,R0lG"] None)
    remoteOk
  = (inl InvalidInput, [])
  /\ snd (run (generateStyledImage "Blend the two."
                 [examplePng; dataUrlOf "image/jpeg" "BBB="] (Some " ")) remoteOk)
     = [[imagePart "image/png" "AAA="; imagePart "image/jpeg" "BBB=";
         textPart ("Blend the two." +++ additionalInstructionsClause " ")]].
Proof.
  split.
  - apply (proj1 (generateStyledImage_request "Blend the two."
                    [examplePng; "data:image/gif;base64,R0lG"] None remoteOk)).
    right. left. reflexivity.
  - destruct (proj1 (proj2 (generateStyledImage_request "Blend the two."
                              [examplePng; dataUrlOf "image/jpeg" "BBB="] (Some " ")
                              remoteOk))
                [imagePart "image/png" "AAA="; imagePart "image/jpeg" "BBB="]
                ltac:(repeat constructor)) as [H _].
    rewrite H. reflexivity.
Defined.

Lemma swapFacesInImage_call imageToModify faceToUse coords instructions remote log :
  swapFacesInImage imageToModify faceToUse coords instructions remote log
  = match fileToGenerativePart imageToModify with
    | inl e => (inl e, log)
    | inr p1 =>
        match fileToGenerativePart faceToUse with
        | inl e => (inl e, log)
        | inr p2 =>
            let text := swapFacesPrompt +++ whenSet refinementSuffix instructions in
            (answerOf (remote [p1; p2; textPart text]),
             log ++ [[p1; p2; textPart text]])
        end
    end.
Proof.
  unfold swapFacesInImage.
  cbv [bind lift ret callGeminiImageModel answerOf textPart].
  rewrite ?append_whenSet.
  destruct (fileToGenerativePart imageToModify) as [e|p1]; [reflexivity|].
  destruct (fileToGenerativePart faceToUse) as [e|p2]; [reflexivity|].
  cbn [app]. destruct (remote _); reflexivity.
Qed.

(** X5. [swapFacesInImage] sends the image to modify first and the face
    second, then the text. A refused image of either kind gives
    [InvalidInput] with nothing sent, and the coordinates of the target face
    have no effect on the request or on the result. *)
Theorem swapFacesInImage_request (imageToModify faceToUse : string)
  (targetFaceCoords : option (Q * Q)) (instructions : option string) (remote : Remote) :
  let call := swapFacesInImage imageToModify faceToUse targetFaceCoords instructions in
  let text := swapFacesPrompt +++ whenSet refinementSuffix instructions in
  (fileToGenerativePart imageToModify = inl InvalidInput
   \/ fileToGenerativePart faceToUse = inl InvalidInput ->
   run call remote = (inl InvalidInput, []))
  /\ (forall p1 p2,
        fileToGenerativePart imageToModify = inr p1 ->
        fileToGenerativePart faceToUse = inr p2 ->
        run call remote
        = (answerOf (remote [p1; p2; textPart text]), [[p1; p2; textPart text]]))
  /\ (forall other,
        run (swapFacesInImage imageToModify faceToUse other instructions) remote
        = run call remote).
Proof.
  intros call text. subst call. unfold run. split; [|split].
  - intros H. rewrite swapFacesInImage_call.
    destruct (fileToGenerativePart imageToModify) as [e|p1] eqn:E1.
    + now rewrite (fileToGenerativePart_throws _ _ E1).
    + destruct H as [H|H]; [discriminate|]. now rewrite H.
  - intros p1 p2 H1 H2. now rewrite swapFacesInImage_call, H1, H2.
  - intros other. now rewrite !swapFacesInImage_call.
Qed.

Lemma swapFacesInImage_request_witness :
  run (swapFacesInImage examplePng "face.png" (Some (1 # 2, 1 # 3)%Q) None) remoteOk
  = (inl InvalidInput, [])
  /\ snd (run (swapFacesInImage examplePng (dataUrlOf "image/jpeg" "BBB=") None
                 (Some "keep the freckles")) remoteOk)
     = [[imagePart "image/png" "AAA="; imagePart "image/jpeg" "BBB=";
         textPart (swapFacesPrompt +++ refinementSuffix "keep the freckles")]].
Proof.
  split.
  - apply (proj1 (swapFacesInImage_request examplePng "face.png"
                    (Some (1 # 2, 1 # 3)%Q) None remoteOk)).
    right. reflexivity.
  - rewrite (proj1 (proj2 (swapFacesInImage_request examplePng
                             (dataUrlOf "image/jpeg" "BBB=") None
                             (Some "keep the freckles") remoteOk))
               (imagePart "image/png" "AAA=") (imagePart "image/jpeg" "BBB=")
               eq_refl eq_refl).
    reflexivity.
Defined.

(** X6. Every function of the service that asks the image model for an
    image keeps the same discipline: at most one request per call, never a
    retry; the request is a run of inline images closed by its only text
    part; a call that sends nothing throws [InvalidInput]; a call that sends
    its request returns what the remote call threw or what extraction makes
    of the response. The two functions that take no image always send. *)
Theorem service_functions_disciplined :
  (forall modelImage guidance, disciplined (generatePosedVariation modelImage guidance))
  /\ (forall imageUrl instructions,
        disciplined (extractOutfitFromImage imageUrl instructions))
  /\ (forall prompt imageUrls additionalInstructions,
        disciplined (generateStyledImage prompt imageUrls additionalInstructions))
  /\ (forall prompt maskedImageUrl instructions,
        disciplined (fillMaskedImage prompt maskedImageUrl instructions))
  /\ (forall maskedImageUrl, disciplined (removeObjectFromImage maskedImageUrl))
  /\ (forall imageToModify faceToUse targetFaceCoords instructions,
        disciplined (swapFacesInImage imageToModify faceToUse targetFaceCoords
                       instructions))
  /\ (forall imageUrl instructions,
        disciplined (generateCloneEffectImage imageUrl instructions))
  /\ (forall conceptImageUrl, disciplined (generateBackgroundFromConcept conceptImageUrl))
  /\ (forall imageUrl, disciplined (generateDepthMap imageUrl))
  /\ (forall designUrl apparelPrompt,
        disciplined (generateApparelMockup designUrl apparelPrompt))
  /\ (forall prompt,
        disciplined (generateGraphicFromPrompt prompt)
        /\ forall remote,
             snd (run (generateGraphicFromPrompt prompt) remote)
             = [[textPart (graphicPrompt prompt)]])
  /\ (forall phrase,
        disciplined (generateTypographicIllustration phrase)
        /\ forall remote,
             snd (run (generateTypographicIllustration phrase) remote)
             = [[textPart (typographicPrompt phrase)]]).
Proof.
  repeat match goal with |- _ /\ _ => split end.
  - intros modelImage guidance. apply disciplined_intro. intros remote.
    pose proof (generate_cases modelImage guidance remote) as C. cbv zeta in C.
    destruct C as [(E & _)|(request & E & Hs & _)]; [left; exact E|].
    right. exists request. auto.
  - intros. eapply single_image_call. intros. apply extractOutfitFromImage_call.
  - intros prompt imageUrls ai. apply disciplined_intro. intros remote.
    unfold run. rewrite generateStyledImage_call.
    destruct (mapToParts_cases imageUrls) as [(-> & _)|(ps & -> & Hf)]; [left; reflexivity|].
    right. eexists. split; [reflexivity|]. apply imagesThenText_intro.
    clear - Hf. induction Hf; constructor; eauto using fileToGenerativePart_image.
  - intros. eapply single_image_call. intros. apply fillMaskedImage_call.
  - intros. eapply single_image_call. intros. apply removeObjectFromImage_call.
  - intros a b c i. apply disciplined_intro. intros remote.
    unfold run. rewrite swapFacesInImage_call.
    destruct (fileToGenerativePart a) as [e|p1] eqn:E1.
    { left. now rewrite (fileToGenerativePart_throws _ _ E1). }
    destruct (fileToGenerativePart b) as [e|p2] eqn:E2.
    { left. now rewrite (fileToGenerativePart_throws _ _ E2). }
    right. eexists. split; [reflexivity|].
    apply (imagesThenText_intro [p1; p2]).
    repeat constructor; eauto using fileToGenerativePart_image.
  - intros. eapply single_image_call. intros. apply generateCloneEffectImage_call.
  - intros. eapply single_image_call. intros. apply generateBackgroundFromConcept_call.
  - intros. eapply single_image_call. intros. apply generateDepthMap_call.
  - intros. eapply single_image_call. intros. apply generateApparelMockup_call.
  - intros prompt. split;
      [|intros remote; unfold run, generateGraphicFromPrompt;
        cbv [bind lift callGeminiImageModel]; cbn [app];
        destruct (remote _); reflexivity].
    apply disciplined_intro. intros remote. right.
    exists [textPart (graphicPrompt prompt)]. split.
    + unfold run, generateGraphicFromPrompt.
      cbv [bind lift callGeminiImageModel answerOf]. cbn [app].
      destruct (remote _); reflexivity.
    + apply (imagesThenText_intro []). constructor.
  - intros phrase. split;
      [|intros remote; unfold run, generateTypographicIllustration;
        cbv [bind lift callGeminiImageModel]; cbn [app];
        destruct (remote _); reflexivity].
    apply disciplined_intro. intros remote. right.
    exists [textPart (typographicPrompt phrase)]. split.
    + unfold run, generateTypographicIllustration.
      cbv [bind lift callGeminiImageModel answerOf]. cbn [app].
      destruct (remote _); reflexivity.
    + apply (imagesThenText_intro []). constructor.
Qed.

(** X7. The seven functions that send one image and one text throw
    [InvalidInput] and send nothing when the image is refused, and otherwise
    send exactly the image followed by the text. For the three that take
    optional instructions the text is the fixed prompt, then the instructions
    clause when the instructions are a non-empty string; the test is on the
    string as given, so instructions made of blanks are added too. *)
Theorem single_image_functions (imageUrl : string) (instructions : option string)
  (prompt : string) (remote : Remote) :
  let refused (c : Client string) := run c remote = (inl InvalidInput, []) in
  let sends (c : Client string) p text :=
    run c remote = (answerOf (remote [p; textPart text]), [[p; textPart text]]) in
  (fileToGenerativePart imageUrl = inl InvalidInput ->
   refused (extractOutfitFromImage imageUrl instructions)
   /\ refused (fillMaskedImage prompt imageUrl instructions)
   /\ refused (generateCloneEffectImage imageUrl instructions)
   /\ refused (removeObjectFromImage imageUrl)
   /\ refused (generateBackgroundFromConcept imageUrl)
   /\ refused (generateDepthMap imageUrl)
   /\ refused (generateApparelMockup imageUrl prompt))
  /\ (forall p, fileToGenerativePart imageUrl = inr p ->
      sends (extractOutfitFromImage imageUrl instructions) p
        (extractOutfitPrompt +++ whenSet additionalInstructionsClause instructions)
      /\ sends (fillMaskedImage prompt imageUrl instructions) p
           (fillMaskedPrompt prompt +++ whenSet refinementSuffix instructions)
      /\ sends (generateCloneEffectImage imageUrl instructions) p
           (cloneEffectPrompt +++ whenSet refinementSuffix instructions)
      /\ sends (removeObjectFromImage imageUrl) p removeObjectPrompt
      /\ sends (generateBackgroundFromConcept imageUrl) p backgroundFromConceptPrompt
      /\ sends (generateDepthMap imageUrl) p depthMapPrompt
      /\ sends (generateApparelMockup imageUrl prompt) p (apparelMockupPrompt prompt))
  /\ (forall clause,
        (instructions = None \/ instructions = Some EmptyString ->
         whenSet clause instructions = EmptyString)
        /\ (forall t, instructions = Some t -> t <> EmptyString ->
            whenSet clause instructions = clause t)).
Proof.
  intros refused sends. subst refused sends. cbv beta. unfold run.
  split; [|split].
  - intros E.
    rewrite extractOutfitFromImage_call, fillMaskedImage_call,
      generateCloneEffectImage_call, removeObjectFromImage_call,
      generateBackgroundFromConcept_call, generateDepthMap_call,
      generateApparelMockup_call, E.
    repeat split.
  - intros p E.
    rewrite extractOutfitFromImage_call, fillMaskedImage_call,
      generateCloneEffectImage_call, removeObjectFromImage_call,
      generateBackgroundFromConcept_call, generateDepthMap_call,
      generateApparelMockup_call, E.
    repeat split.
  - intros clause. split.
    + intros [->| ->]; apply whenSet_unset.
    + intros t -> Ht. now apply whenSet_set.
Qed.

Lemma single_image_functions_witness :
  run (generateDepthMap "") remoteOk = (inl InvalidInput, [])
  /\ snd (run (fillMaskedImage "a red door" examplePng (Some "  ")) remoteOk)
     = [[imagePart "image/png" "AAA=";
         textPart (fillMaskedPrompt "a red door" +++ refinementSuffix "  ")]].
Proof.
  split.
  - apply (proj1 (single_image_functions EmptyString None EmptyString remoteOk) eq_refl).
  - destruct (proj1 (proj2 (single_image_functions examplePng (Some "  ") "a red door"
                              remoteOk)) (imagePart "image/png" "AAA=") eq_refl)
      as (_ & H & _).
    rewrite H.
    rewrite (proj2 (proj2 (proj2 (single_image_functions examplePng (Some "  ")
                                    "a red door" remoteOk)) refinementSuffix)
               "  " eq_refl ltac:(discriminate)).
    reflexivity.
Defined.

End Service.

(* ================================================================== *)
(** ** More properties of the application *)
(* ================================================================== *)

Section Validation.

Variables (limit : nat) (random : nat -> Number) (inp : Inputs) (st : AppState).

Lemma handleGenerate_upto_running :
  truthy (modelImage inp) = true ->
  (poseGuidanceMode inp = mode_reference -> truthy (poseReferenceImage inp) = true) ->
  (poseGuidanceMode inp = mode_sketch -> truthy (poseSketchImage inp) = true) ->
  exists r0, handleGenerate_upto limit random inp st = Running r0.
Proof.
  intros Hm Hr Hs. unfold handleGenerate_upto. rewrite Hm. cbn [negb].
  destruct (poseGuidanceMode inp); cbn [PoseGuidanceMode_eqb andb].
  - destruct (launch limit 0 _). eauto.
  - rewrite (Hr eq_refl). cbn [negb]. destruct (launch limit 0 _). eauto.
  - rewrite (Hs eq_refl). cbn [negb]. destruct (launch limit 0 _). eauto.
Qed.

Lemma refused_inversion s' :
  handleGenerate_upto limit random inp st = Refused s' ->
  generatedImages s' = generatedImages st /\ isLoading s' = isLoading st
  /\ progress s' = progress st /\ error s' <> None
  /\ (truthy (modelImage inp) = false
      \/ (poseGuidanceMode inp = mode_reference
          /\ truthy (poseReferenceImage inp) = false)
      \/ (poseGuidanceMode inp = mode_sketch
          /\ truthy (poseSketchImage inp) = false)).
Proof.
  unfold handleGenerate_upto.
  destruct (truthy (modelImage inp)) eqn:Hm; cbn [negb].
  2:{ intros H; injection H as <-. cbn. repeat split; auto; discriminate. }
  destruct (poseGuidanceMode inp) eqn:Hmode; cbn [PoseGuidanceMode_eqb andb].
  + destruct (launch limit 0 _). discriminate.
  + destruct (truthy (poseReferenceImage inp)) eqn:Hr; cbn [negb].
    * destruct (launch limit 0 _). discriminate.
    * intros H; injection H as <-. cbn. repeat split; auto; discriminate.
  + destruct (truthy (poseSketchImage inp)) eqn:Hs; cbn [negb].
    * destruct (launch limit 0 _). discriminate.
    * intros H; injection H as <-. cbn. repeat split; auto; discriminate.
Qed.

(** X8. [handleGenerate] refuses to start, with one message, exactly when
    the model image is missing or empty, or the reference (the sketch) is
    missing or empty in reference (sketch) mode; the missing model image is
    reported first. A refusal only sets [error]: the gallery, [isLoading] and
    the progress stay as they were, and no job is created. *)
Theorem handleGenerate_refusal :
  (truthy (modelImage inp) = false ->
   handleGenerate_upto limit random inp st
   = Refused (setError (Some "Please upload a model image first.") st))
  /\ (truthy (modelImage inp) = true -> poseGuidanceMode inp = mode_reference ->
      truthy (poseReferenceImage inp) = false ->
      handleGenerate_upto limit random inp st
      = Refused (setError (Some "Please upload a reference image for pose extraction.")
                   st))
  /\ (truthy (modelImage inp) = true -> poseGuidanceMode inp = mode_sketch ->
      truthy (poseSketchImage inp) = false ->
      handleGenerate_upto limit random inp st
      = Refused (setError (Some "Please upload a sketch for pose guidance.") st))
  /\ (forall s', handleGenerate_upto limit random inp st = Refused s' ->
      generatedImages s' = generatedImages st /\ isLoading s' = isLoading st
      /\ progress s' = progress st /\ error s' <> None
      /\ (truthy (modelImage inp) = false
          \/ (poseGuidanceMode inp = mode_reference
              /\ truthy (poseReferenceImage inp) = false)
          \/ (poseGuidanceMode inp = mode_sketch
              /\ truthy (poseSketchImage inp) = false))).
Proof.
  unfold handleGenerate_upto. split; [|split; [|split]].
  - intros ->. reflexivity.
  - intros -> -> ->. reflexivity.
  - intros -> -> ->. reflexivity.
  - intros s'. fold (handleGenerate_upto limit random inp st). apply refused_inversion.
Qed.

End Validation.

Lemma handleGenerate_refusal_witness :
  handleGenerate exampleRandom
    {| modelImage := Some EmptyString; poseReferenceImage := None;
       poseSketchImage := None; poseGuidanceMode := mode_reference;
       numVariations := 5; customPrompt := EmptyString |}
    {| generatedImages := [GeneratedImage.mk 0 Done (Some examplePng) None];
       isLoading := false; error := None; progress := 1 |}
  = Refused
      {| generatedImages := [GeneratedImage.mk 0 Done (Some examplePng) None];
         isLoading := false; error := Some "Please upload a model image first.";
         progress := 1 |}.
Proof.
  apply (proj1 (handleGenerate_refusal concurrencyLimit exampleRandom
                  {| modelImage := Some EmptyString; poseReferenceImage := None;
                     poseSketchImage := None; poseGuidanceMode := mode_reference;
                     numVariations := 5; customPrompt := EmptyString |}
                  {| generatedImages := [GeneratedImage.mk 0 Done (Some examplePng) None];
                     isLoading := false; error := None; progress := 1 |}) eq_refl).
Defined.

Section Lifecycle.

Variables (limit : nat) (random : nat -> Number) (inp : Inputs) (st : AppState).

Lemma start_app r0 :
  handleGenerate_upto limit random inp st = Running r0 ->
  app (shared r0)
  = {| generatedImages := pendingImages (makePrompts random inp);
       isLoading := true; error := None; progress := 0 |}
  /\ completedCount (shared r0) = 0.
Proof.
  intros Hs. rewrite (start_run limit random inp st r0 Hs).
  destruct (launch limit 0 _) as [ws s1] eqn:L.
  destruct (launch_inv (makePrompts random inp) limit 0 [] _ ws s1
              (initial_inv (makePrompts random inp)) L) as (_ & _ & Ha & Hc).
  cbn [shared snd]. rewrite Ha, Hc. auto.
Qed.

Lemma guards_of_enabled :
  isGenerateDisabled inp st = false ->
  isLoading st = false /\ truthy (modelImage inp) = true
  /\ (poseGuidanceMode inp = mode_reference -> truthy (poseReferenceImage inp) = true)
  /\ (poseGuidanceMode inp = mode_sketch -> truthy (poseSketchImage inp) = true).
Proof.
  unfold isGenerateDisabled. intros H.
  apply orb_false_iff in H as [H H3]. apply orb_false_iff in H as [H H2].
  apply orb_false_iff in H as [H0 H1]. apply negb_false_iff in H1.
  split; [exact H0|]. split; [exact H1|]. split; intros Hm; rewrite Hm in *;
    cbn [PoseGuidanceMode_eqb andb] in *; now apply negb_false_iff.
Qed.

(** X9. When the Generate button of a rendering is enabled, a click starts
    a run with the values of that rendering, and the run begins from a fresh
    state whatever was shown before: the gallery holds the N pending jobs of
    this run, the error is cleared and the progress is zero. While the
    handler waits for the queue the button is disabled whatever the controls
    show, so two runs never overlap. Once the handler has returned the button
    depends on the controls alone: it is enabled exactly when they show a
    model image and the image that their mode asks for, hence enabled again
    if they were left as they were at the click. A refusal is only possible
    when the button of the rendering was disabled. *)
Theorem generate_button :
  (isGenerateDisabled inp st = false ->
   exists r0,
     handleGenerate_upto limit random inp st = Running r0
     /\ app (shared r0)
        = {| generatedImages := pendingImages (makePrompts random inp);
             isLoading := true; error := None; progress := 0 |}
     /\ forall r, reachable inp r0 r ->
          (handler r = AwaitProcessQueue ->
           forall shown, isGenerateDisabled shown (app (shared r)) = true)
          /\ (handler r = HandlerReturned ->
              (forall shown,
                  isGenerateDisabled shown (app (shared r))
                  = negb (truthy (modelImage shown))
                    || (PoseGuidanceMode_eqb (poseGuidanceMode shown) mode_reference
                        && negb (truthy (poseReferenceImage shown)))
                    || (PoseGuidanceMode_eqb (poseGuidanceMode shown) mode_sketch
                        && negb (truthy (poseSketchImage shown))))
              /\ isGenerateDisabled inp (app (shared r)) = false))
  /\ (forall s', handleGenerate_upto limit random inp st = Refused s' ->
      isGenerateDisabled inp st = true).
Proof.
  split.
  - intros He. destruct (guards_of_enabled He) as (Hl & Hm & Hr & Hs).
    destruct (handleGenerate_upto_running limit random inp st Hm Hr Hs) as [r0 H0].
    exists r0. split; [exact H0|]. split; [exact (proj1 (start_app r0 H0))|].
    intros r Hreach.
    pose proof (reachable_inv inp _ limit r0 r (start_inv limit random inp st r0 H0) Hreach)
      as (_ & _ & Hh).
    unfold HandlerInv in Hh. split; intros Hd; rewrite Hd in Hh.
    + intros shown. unfold isGenerateDisabled. now rewrite Hh.
    + destruct Hh as [Hload _]. split.
      * intros shown. unfold isGenerateDisabled. now rewrite Hload.
      * unfold isGenerateDisabled in *. rewrite Hload. rewrite Hl in He. exact He.
  - intros s' H.
    destruct (refused_inversion limit random inp st s' H) as (_ & _ & _ & _ & Hc).
    unfold isGenerateDisabled.
    destruct Hc as [Hm|[[Hmode Hr]|[Hmode Hs]]].
    + rewrite Hm. cbn. now rewrite orb_true_r.
    + rewrite Hmode, Hr. cbn. now rewrite !orb_true_r.
    + rewrite Hmode, Hs. cbn. now rewrite !orb_true_r.
Qed.

End Lifecycle.

Section Accounting.

Variables (inp : Inputs).

Lemma worker_loop_app w s wk s' :
  worker_loop w s = (wk, s') -> app s' = app s /\ completedCount s' = completedCount s.
Proof.
  unfold worker_loop, processNext_start.
  destruct (queue s) as [|[i p] rest]; cbn [length Nat.ltb Nat.leb];
    intros H; injection H as <- <-; auto.
Qed.

Lemma exec_completedCount ev r r' :
  exec inp ev r = Some r' ->
  completedCount (shared r') = completedCount (shared r) + settles [ev]
  /\ (progress (app (shared r)) = completedCount (shared r) ->
      progress (app (shared r')) = progress (app (shared r)) + settles [ev]).
Proof.
  destruct ev as [w remote|w|]; cbn [exec settles].
  - destruct (nth_error (workers r) w) as [[i p|x| |e]|]; try discriminate.
    rewrite processNext_continue_eq. intros H; injection H as <-.
    cbn [shared completedCount app progress]. split; [lia|]. intros ->. lia.
  - destruct (nth_error (workers r) w) as [[i p|[e|u]| |e]|]; try discriminate.
    + intros H; injection H as <-. cbn [shared]. split; [lia|]. intros _. lia.
    + destruct (worker_loop w (shared r)) as [wk s'] eqn:W.
      intros H; injection H as <-. cbn [shared].
      destruct (worker_loop_app _ _ _ _ W) as [-> ->]. split; [lia|]. intros _. lia.
  - destruct (handler r); try discriminate.
    destruct (firstRejected (workers r)).
    + intros H; injection H as <-. cbn [shared]. split; [lia|]. intros _. lia.
    + destruct (forallb isFulfilled (workers r)); [|discriminate].
      intros H; injection H as <-. cbn. split; [lia|]. intros _. lia.
Qed.




End Accounting.

Section RunLength.






End RunLength.

Section Progress.

(** X10. The progress never exceeds the number of jobs of the run and never
    goes back: a step of the event loop raises it by one when a client call
    settles and leaves it alone otherwise. While the handler waits, the line
    under the button reads "Generated k of n": k is the number of jobs of
    the run that are no longer pending, and n is what the select shows at
    that moment, which is the N of the run only if the select was left
    alone. Once the handler has returned the line is gone. *)
Theorem progress_line (limit : nat) (random : nat -> Number) (inp : Inputs) (st : AppState)
  (r0 : Run) :
  handleGenerate_upto limit random inp st = Running r0 ->
  forall r, reachable inp r0 r ->
    progress (app (shared r)) <= numVariations inp
    /\ (handler r = AwaitProcessQueue ->
        forall shown : Inputs,
          progressLabel shown (app (shared r))
          = Some ("Generated "
                  +++ decimal (countSettled (generatedImages (app (shared r))))
                  +++ " of " +++ decimal (numVariations shown)))
    /\ (handler r = HandlerReturned ->
        forall shown : Inputs, progressLabel shown (app (shared r)) = None)
    /\ forall ev r', exec inp ev r = Some r' ->
         progress (app (shared r')) = progress (app (shared r)) + settles [ev].
Proof.
  intros Hs r Hr.
  pose proof (reachable_inv inp _ limit r0 r (start_inv limit random inp st r0 Hs) Hr)
    as (J & _ & Hh).
  pose proof (inv_progress _ _ _ J) as Hp.
  split.
  { pose proof (inv_total _ _ _ J). pose proof (inv_bound _ _ _ J) as Hb.
    rewrite makePrompts_length in Hb. lia. }
  unfold HandlerInv in Hh. split; [|split].
  - intros Hd shown. rewrite Hd in Hh. unfold progressLabel.
    now rewrite Hh, Hp, (inv_count _ _ _ J).
  - intros Hd shown. rewrite Hd in Hh. unfold progressLabel. now rewrite (proj1 Hh).
  - intros ev r' He. exact (proj2 (exec_completedCount inp ev r r' He) Hp).
Qed.

(** X10 on a run of twelve jobs, two of them settled: with the select left
    alone the line counts to twelve, and with the select moved to 1 during
    the run it reads 2 of 1. *)
Lemma progress_line_witness :
  exists r0 r,
    handleGenerate_upto 2 exampleRandom (exampleInputs 12 EmptyString) idle = Running r0
    /\ execAll (exampleInputs 12 EmptyString)
         [Settle 1 remoteOk; Settle 0 (remoteThrows OtherValue)] r0 = Some r
    /\ progressLabel (exampleInputs 12 EmptyString) (app (shared r))
       = Some "Generated 2 of 12"
    /\ progressLabel (exampleInputs 1 EmptyString) (app (shared r))
       = Some "Generated 2 of 1".
Proof.
  eexists. eexists. split; [reflexivity|].
  match goal with |- execAll ?inp ?evs ?r0 = Some ?r /\ _ =>
    assert (E : execAll inp evs r0 = Some r) by (vm_compute; reflexivity);
    destruct (progress_line 2 exampleRandom inp idle r0 eq_refl r
                (execAll_reachable inp evs r0 r E)) as (_ & H & _)
  end.
  split; [exact E|]. split; rewrite (H eq_refl); reflexivity.
Defined.

Lemma healthy_not_fulfilled_suspended ws :
  forallb healthy ws = true -> existsb isFulfilled ws = false ->
  forallb isSuspended ws = true.
Proof.
  induction ws as [|[i p|[e|u]| |e] ws IH]; cbn; intros H1 H2; auto; discriminate.
Qed.

Lemma inFlight_all_generating ws :
  Forall (fun w => exists i p, w = AwaitGenerate i p) ws ->
  length (inFlight ws) = length ws.
Proof.
  induction 1 as [|w ws (i & p & ->) _ IH]; cbn; auto.
Qed.

(** X12. The pool is work conserving. While the queue holds a job, no worker
    has returned: each of the K workers is suspended, in a client call or
    about to take the next job. So when every worker is in a client call and
    jobs remain, exactly K calls are in flight. *)
Theorem pool_work_conserving (limit : nat) (random : nat -> Number) (inp : Inputs)
  (st : AppState) (r0 : Run) :
  handleGenerate_upto limit random inp st = Running r0 ->
  forall r, reachable inp r0 r -> queue (shared r) <> [] ->
    ~ In Fulfilled (workers r)
    /\ forallb isSuspended (workers r) = true
    /\ (Forall (fun w => exists i p, w = AwaitGenerate i p) (workers r) ->
        length (claimedNotTerminal (shared r)) = limit).
Proof.
  intros Hs r Hr Hq.
  pose proof (reachable_inv inp _ limit r0 r (start_inv limit random inp st r0 Hs) Hr)
    as (J & Hl & _).
  assert (Hf : existsb isFulfilled (workers r) = false).
  { destruct (existsb isFulfilled (workers r)) eqn:E; [|reflexivity].
    elim Hq. exact (inv_drained _ _ _ J E). }
  split; [|split].
  - intros Hin. assert (existsb isFulfilled (workers r) = true); [|congruence].
    apply existsb_exists. exists Fulfilled. auto.
  - exact (healthy_not_fulfilled_suspended _ (inv_healthy _ _ _ J) Hf).
  - intros Hall.
    rewrite (claimedNotTerminal_length _ _ _ J), (inFlight_all_generating _ Hall).
    exact Hl.
Qed.

Lemma pool_work_conserving_witness :
  exists r0 r,
    handleGenerate_upto 2 exampleRandom (exampleInputs 5 "a side profile") idle
    = Running r0
    /\ execAll (exampleInputs 5 "a side profile")
         [Settle 0 remoteOk; Resume 0; Settle 0 remoteOk] r0 = Some r
    /\ forallb isSuspended (workers r) = true.
Proof.
  eexists. eexists. split; [reflexivity|].
  match goal with |- execAll ?inp ?evs ?r0 = Some ?r /\ _ =>
    assert (E : execAll inp evs r0 = Some r) by (vm_compute; reflexivity);
    destruct (pool_work_conserving 2 exampleRandom inp idle r0 eq_refl r
                (execAll_reachable inp evs r0 r E) ltac:(discriminate)) as (_ & H & _)
  end.
  split; [exact E | exact H].
Defined.

End Progress.

Section Records.

Variables (inp : Inputs) (prompts : list (option string)) (limit : nat).

(** What a step of the event loop does to the gallery. *)
Lemma exec_images ev r r' :
  exec inp ev r = Some r' ->
  generatedImages (app (shared r'))
  = match ev with
    | Settle w remote =>
        match nth_error (workers r) w with
        | Some (AwaitGenerate i p) =>
            map (publish i (jobOutcome inp p remote)) (generatedImages (app (shared r)))
        | _ => generatedImages (app (shared r))
        end
    | _ => generatedImages (app (shared r))
    end.
Proof.
  destruct ev as [w remote|w|]; cbn [exec].
  - destruct (nth_error (workers r) w) as [[i p|x| |e]|]; try discriminate.
    rewrite processNext_continue_eq. intros H; injection H as <-. reflexivity.
  - destruct (nth_error (workers r) w) as [[i p|[e|u]| |e]|]; try discriminate.
    + intros H; injection H as <-. reflexivity.
    + destruct (worker_loop w (shared r)) as [wk s'] eqn:W.
      intros H; injection H as <-. cbn [shared].
      now rewrite (proj1 (worker_loop_app _ _ _ _ W)).
  - destruct (handler r); try discriminate.
    destruct (firstRejected (workers r)).
    + intros H; injection H as <-. reflexivity.
    + destruct (forallb isFulfilled (workers r)); [|discriminate].
      intros H; injection H as <-. reflexivity.
Qed.

Lemma generate_returns_uri modelImage guidance remote u :
  fst (run (generatePosedVariation modelImage guidance) remote) = inr u -> isDataUri u.
Proof.
  pose proof (generate_cases modelImage guidance remote) as C. cbv zeta in C.
  destruct C as [(E & _)|(request & E & _)]; rewrite E; cbn [fst]; [discriminate|].
  destruct (remote request) as [e|response]; cbn [answerOf]; [discriminate|].
  destruct (extractImageData_cases response) as [(u' & Hu & Hd & _)|(_ & [(Hx & _)|(Hx & _)])];
    congruence.
Qed.

Lemma wellFormed_publish i settled img :
  (forall u, settled = inr u -> isDataUri u) ->
  wellFormed img -> isPending img = true -> GeneratedImage.id img = i ->
  wellFormed (publish i settled img).
Proof.
  intros Hu Hw Hp Hi. apply isPending_status in Hp.
  unfold wellFormed in Hw. rewrite Hp in Hw. destruct Hw as [Hurl Herr].
  apply Nat.eqb_eq in Hi.
  destruct settled as [e|u]; cbn [publish]; unfold markError, markDone, wellFormed;
    rewrite Hi; cbn.
  - split; [exact Hurl | eauto].
  - split; [eauto | exact Herr].
Qed.

Lemma exec_wellFormed ev r r' :
  RunInv prompts limit r -> exec inp ev r = Some r' ->
  Forall wellFormed (generatedImages (app (shared r))) ->
  Forall wellFormed (generatedImages (app (shared r'))).
Proof.
  intros (I & _ & _) He Hw. rewrite (exec_images ev r r' He).
  destruct ev as [w remote|w|]; try exact Hw.
  destruct (nth_error (workers r) w) as [[i p|x| |e]|] eqn:Hn; try exact Hw.
  apply Forall_forall. intros img' Hin.
  apply in_map_iff in Hin as (img & <- & Hin).
  rewrite Forall_forall in Hw.
  destruct (Nat.eq_dec (GeneratedImage.id img) i) as [e|n].
  - apply wellFormed_publish; auto.
    + intros u. apply generate_returns_uri.
    + apply (inv_pending _ _ _ I img Hin). right. rewrite e.
      apply inFlight_In. exists p. eapply nth_error_In; eauto.
  - rewrite publish_other by exact n. auto.
Qed.

Lemma reachable_wellFormed r0 r :
  RunInv prompts limit r0 -> reachable inp r0 r ->
  Forall wellFormed (generatedImages (app (shared r0))) ->
  Forall wellFormed (generatedImages (app (shared r))).
Proof.
  intros I0 H Hw. induction H as [|r1 ev r2 Hr IH He]; [exact Hw|].
  apply (exec_wellFormed ev r1 r2); [|exact He | exact IH].
  exact (reachable_inv inp prompts limit r0 r1 I0 Hr).
Qed.

End Records.

Lemma wellFormed_pendingImages {A} (arr : list A) : Forall wellFormed (pendingImages arr).
Proof.
  unfold pendingImages. apply Forall_forall. intros img H.
  apply in_map_iff in H as (i & <- & _). split; reflexivity.
Qed.

(** X13. At every point of a run each gallery record carries the fields of
    its status and no others: a pending job has neither url nor error, a done
    job has a url, which is a data URI, and no error, a failed job has an
    error message and no url. *)
Theorem gallery_records_well_formed (limit : nat) (random : nat -> Number) (inp : Inputs)
  (st : AppState) (r0 : Run) :
  handleGenerate_upto limit random inp st = Running r0 ->
  forall r, reachable inp r0 r ->
    Forall wellFormed (generatedImages (app (shared r))).
Proof.
  intros Hs r Hr.
  apply (reachable_wellFormed inp _ limit r0 r (start_inv limit random inp st r0 Hs) Hr).
  rewrite (proj1 (start_app limit random inp st r0 Hs)). cbn [generatedImages].
  apply wellFormed_pendingImages.
Qed.

Lemma gallery_records_well_formed_witness :
  exists r0 r,
    handleGenerate_upto 2 exampleRandom (exampleInputs 3 EmptyString) idle = Running r0
    /\ execAll (exampleInputs 3 EmptyString)
         [Settle 1 remoteOk; Settle 0 (remoteThrows OtherValue)] r0 = Some r
    /\ Forall wellFormed (generatedImages (app (shared r))).
Proof.
  eexists. eexists. split; [reflexivity|].
  match goal with |- execAll ?inp ?evs ?r0 = Some ?r /\ _ =>
    assert (E : execAll inp evs r0 = Some r) by (vm_compute; reflexivity);
    pose proof (gallery_records_well_formed 2 exampleRandom inp idle r0 eq_refl r
                  (execAll_reachable inp evs r0 r E)) as H
  end.
  split; [exact E | exact H].
Defined.

Section Outcomes.

(** X14. When the client call of a job returns a url, the job becomes Done
    with exactly that url, a data URI, and no error; the records of the other
    jobs, the queue and the claims are untouched, the worker goes on to the
    next job, and the record of the job never changes again. *)
Theorem success_recorded (limit : nat) (random : nat -> Number) (inp : Inputs)
  (st : AppState) (r0 : Run) :
  handleGenerate_upto limit random inp st = Running r0 ->
  forall r w i p remote u,
    reachable inp r0 r ->
    nth_error (workers r) w = Some (AwaitGenerate i p) ->
    jobOutcome inp p remote = inr u ->
    exists r',
      exec inp (Settle w remote) r = Some r'
      /\ nth_error (generatedImages (app (shared r'))) i
         = Some (GeneratedImage.mk i Done (Some u) None)
      /\ isDataUri u
      /\ (forall k, k <> i ->
            nth_error (generatedImages (app (shared r'))) k
            = nth_error (generatedImages (app (shared r))) k)
      /\ queue (shared r') = queue (shared r)
      /\ claimed (shared r') = claimed (shared r)
      /\ nth_error (workers r') w = Some (AwaitProcessNext (inr tt))
      /\ forall r'', reachable inp r' r'' ->
           nth_error (generatedImages (app (shared r''))) i
           = Some (GeneratedImage.mk i Done (Some u) None).
Proof.
  intros Hs r w i p remote u Hr Hn Hu.
  pose proof (start_inv limit random inp st r0 Hs) as I0.
  pose proof (reachable_inv inp _ limit r0 r I0 Hr) as I.
  pose proof I as (J & _ & _).
  set (prompts := makePrompts random inp) in *.
  set (r' := {| shared := snd (processNext_continue i (inr u) (shared r));
                workers := update (workers r) w (AwaitProcessNext (inr tt));
                handler := handler r |}).
  assert (Hx : exec inp (Settle w remote) r = Some r').
  { cbn [exec]. rewrite Hn. unfold jobOutcome in Hu. rewrite Hu.
    rewrite !processNext_continue_eq. reflexivity. }
  pose proof (exec_inv inp _ limit _ r r' I Hx) as I'.
  assert (Hi : i < length prompts).
  { assert (In i (inFlight (workers r))).
    { apply inFlight_In. exists p. eapply nth_error_In; eauto. }
    pose proof (inv_inflight _ _ _ J i H). pose proof (inv_bound _ _ _ J). lia. }
  destruct (image_exists _ _ i (inv_ids _ _ _ J) Hi) as (img0 & Hin0 & Hid0).
  pose proof (image_position _ _ img0 (inv_ids _ _ _ J) Hin0) as Hpos.
  rewrite Hid0 in Hpos.
  assert (Hpend : isPending img0 = true).
  { apply (inv_pending _ _ _ J img0 Hin0). right. rewrite Hid0.
    apply inFlight_In. exists p. eapply nth_error_In; eauto. }
  assert (Hw0 : wellFormed img0).
  { pose proof (reachable_wellFormed inp _ limit r0 r I0 Hr) as W.
    rewrite (proj1 (start_app limit random inp st r0 Hs)) in W.
    specialize (W (wellFormed_pendingImages _)). rewrite Forall_forall in W. auto. }
  assert (Himgs : generatedImages (app (shared r'))
                  = map (markDone i u) (generatedImages (app (shared r)))).
  { subst r'. cbn [shared]. rewrite processNext_continue_eq. reflexivity. }
  assert (Hshape : markDone i u img0 = GeneratedImage.mk i Done (Some u) None).
  { unfold markDone. rewrite Hid0, Nat.eqb_refl.
    apply isPending_status in Hpend. unfold wellFormed in Hw0. rewrite Hpend in Hw0.
    now rewrite (proj2 Hw0). }
  assert (Himg : nth_error (generatedImages (app (shared r'))) i
                 = Some (GeneratedImage.mk i Done (Some u) None)).
  { rewrite Himgs, nth_error_map, Hpos. cbn [option_map]. now rewrite Hshape. }
  exists r'. split; [exact Hx|]. split; [exact Himg|].
  split; [exact (generate_returns_uri _ _ _ _ Hu)|]. split.
  { intros k Hki. rewrite Himgs, nth_error_map.
    destruct (nth_error (generatedImages (app (shared r))) k) as [a|] eqn:Ea;
      [|reflexivity].
    cbn [option_map]. f_equal. apply (proj1 (markDone_spec i u)).
    rewrite (image_id_at _ _ k a (inv_ids _ _ _ J) Ea). exact Hki. }
  split; [subst r'; cbn [shared]; now rewrite processNext_continue_eq|].
  split; [subst r'; cbn [shared]; now rewrite processNext_continue_eq|].
  split; [exact (nth_error_update_same _ _ _ _ Hn)|].
  intros r'' Hr''.
  apply (reachable_settled_stays inp _ limit r' r'' i _ I' Hr'' Himg). reflexivity.
Qed.

Lemma success_recorded_witness :
  exists r0 r',
    handleGenerate_upto 2 exampleRandom (exampleInputs 3 "a side profile") idle
    = Running r0
    /\ exec (exampleInputs 3 "a side profile") (Settle 1 remoteOk) r0 = Some r'
    /\ nth_error (generatedImages (app (shared r'))) 1
       = Some (GeneratedImage.mk 1 Done (Some "data:image/png;base64,QQ==") None).
Proof.
  eexists.
  match goal with |- exists r', ?H0 /\ _ =>
    assert (E0 : H0) by reflexivity
  end.
  match type of E0 with _ = Running ?r0 =>
    destruct (success_recorded 2 exampleRandom (exampleInputs 3 "a side profile") idle
                r0 E0 r0 1 1 (Some "a side profile") remoteOk
                "data:image/png;base64,QQ==" (reach_start _ _) eq_refl eq_refl)
      as (r' & Hx & Hn & _)
  end.
  exists r'. split; [exact E0|]. split; [exact Hx | exact Hn].
Defined.

Lemma reachableUnder_reachable inp outcome r0 r :
  reachableUnder inp outcome r0 r -> reachable inp r0 r.
Proof.
  induction 1 as [|r ev r' _ IH _ He]; [constructor|].
  exact (reach_step inp r0 r ev r' IH He).
Qed.

Lemma settledImage_not_pending outcome i : isPending (settledImage outcome i) = false.
Proof.
  unfold settledImage. destruct (outcome i); cbn [publish];
    unfold markError, markDone; cbn [GeneratedImage.id]; rewrite Nat.eqb_refl;
    reflexivity.
Qed.

Lemma under_gallery limit random inp st r0 outcome r :
  handleGenerate_upto limit random inp st = Running r0 ->
  reachableUnder inp outcome r0 r ->
  forall k img, nth_error (generatedImages (app (shared r))) k = Some img ->
    img = GeneratedImage.mk k Pending None None \/ img = settledImage outcome k.
Proof.
  intros Hs H.
  pose proof (start_inv limit random inp st r0 Hs) as I0.
  induction H as [|r ev r' Hr IH Ha He].
  - intros k img Hk. left.
    rewrite (proj1 (start_app limit random inp st r0 Hs)) in Hk.
    cbn [generatedImages] in Hk. unfold pendingImages in Hk.
    rewrite nth_error_map in Hk.
    destruct (nth_error (seq 0 (length (makePrompts random inp))) k) as [j|] eqn:Ej;
      [|discriminate].
    injection Hk as <-.
    assert (Hlt : k < length (makePrompts random inp)).
    { rewrite <- (length_seq (length (makePrompts random inp)) 0).
      apply nth_error_Some. congruence. }
    apply (nth_error_nth _ _ 0) in Ej. rewrite seq_nth in Ej by exact Hlt.
    cbn in Ej. now subst j.
  - pose proof (reachable_inv inp _ limit r0 r I0 (reachableUnder_reachable _ _ _ _ Hr))
      as (J & _ & _).
    intros k img' Hk. rewrite (exec_images inp ev r r' He) in Hk.
    destruct ev as [w remote|w|]; try (exact (IH k img' Hk)).
    destruct (nth_error (workers r) w) as [[i p|x| |e]|] eqn:Hn;
      try (exact (IH k img' Hk)).
    rewrite nth_error_map in Hk.
    destruct (nth_error (generatedImages (app (shared r))) k) as [img|] eqn:Ek;
      [|discriminate].
    injection Hk as <-.
    pose proof (image_id_at _ _ k img (inv_ids _ _ _ J) Ek) as Hid.
    destruct (Nat.eq_dec k i) as [->|n].
    + right. cbn [agrees] in Ha. rewrite (Ha i p Hn).
      assert (Hp : isPending img = true).
      { apply (inv_pending _ _ _ J img (nth_error_In _ _ Ek)). right. rewrite Hid.
        apply inFlight_In. exists p. eapply nth_error_In; eauto. }
      destruct (IH i img Ek) as [->| ->]; [reflexivity|].
      rewrite settledImage_not_pending in Hp. discriminate.
    + rewrite publish_other by congruence. exact (IH k img Ek).
Qed.

(** X15. The final gallery does not depend on the order in which the client
    calls settle: if every job [i] settles as [outcome i], then whatever the
    schedule, once the handler has returned the gallery is, job by job, the
    record that [outcome i] publishes. *)
Theorem final_gallery_order_independent (limit : nat) (random : nat -> Number) (inp : Inputs)
  (st : AppState) (r0 : Run) (outcome : nat -> Result string) :
  1 <= limit ->
  handleGenerate_upto limit random inp st = Running r0 ->
  forall r, reachableUnder inp outcome r0 r -> handler r = HandlerReturned ->
    generatedImages (app (shared r))
    = map (settledImage outcome) (seq 0 (numVariations inp)).
Proof.
  intros Hk Hs r Hr Hret.
  pose proof (reachable_inv inp _ limit r0 r (start_inv limit random inp st r0 Hs)
                (reachableUnder_reachable _ _ _ _ Hr)) as I.
  destruct (returned_facts _ limit r Hk I Hret) as (_ & Hlen & Hterm & _).
  rewrite makePrompts_length in Hlen.
  apply nth_error_ext. intros k.
  rewrite nth_error_map.
  destruct (nth_error (generatedImages (app (shared r))) k) as [img|] eqn:Ek.
  - assert (Hlt : k < numVariations inp).
    { rewrite <- Hlen. apply nth_error_Some. congruence. }
    rewrite nth_error_seq, (proj2 (Nat.ltb_lt _ _) Hlt). cbn [option_map Nat.add].
    f_equal.
    destruct (under_gallery limit random inp st r0 outcome r Hs Hr k img Ek) as [->| ->];
      [|reflexivity].
    rewrite Forall_forall in Hterm.
    destruct (Hterm _ (nth_error_In _ _ Ek)) as [H|H]; discriminate H.
  - apply nth_error_None in Ek.
    rewrite nth_error_seq, (proj2 (Nat.ltb_ge _ _)) by lia. reflexivity.
Qed.

End Outcomes.

Section OutcomesWitness.

(** X15 on two jobs whose calls settle in the order 1, 0, job 0 failing. *)
Lemma final_gallery_order_independent_witness :
  let outcome i := if i =? 0 then inl (ErrorObject "quota exceeded")
                   else inr "data:image/png;base64,QQ==" in
  exists r0 r,
    handleGenerate_upto 2 exampleRandom (exampleInputs 2 "a side profile") idle
    = Running r0
    /\ reachableUnder (exampleInputs 2 "a side profile") outcome r0 r
    /\ handler r = HandlerReturned
    /\ generatedImages (app (shared r))
       = [GeneratedImage.mk 0 Error None (Some "quota exceeded");
          GeneratedImage.mk 1 Done (Some "data:image/png;base64,QQ==") None].
Proof.
  intros outcome. eexists.
  match goal with |- exists r, ?H0 /\ _ =>
    assert (E0 : H0) by (vm_compute; reflexivity)
  end.
  match type of E0 with _ = Running ?r0 =>
    assert (U : exists r,
               reachableUnder (exampleInputs 2 "a side profile") outcome r0 r
               /\ handler r = HandlerReturned)
  end.
  { eexists. split.
    - eapply under_step with (ev := Join).
      1: eapply under_step with (ev := Resume 1).
      1: eapply under_step with (ev := Resume 0).
      1: eapply under_step
           with (ev := Settle 0 (remoteThrows (ErrorObject "quota exceeded"))).
      1: eapply under_step with (ev := Settle 1 remoteOk).
      1: apply under_start.
      1: (cbn [agrees]; intros i p H; vm_compute in H; injection H as <- <-;
          reflexivity).
      1: (vm_compute; reflexivity).
      1: (cbn [agrees]; intros i p H; vm_compute in H; injection H as <- <-;
          reflexivity).
      1: (vm_compute; reflexivity).
      1: exact I.
      1: (vm_compute; reflexivity).
      1: exact I.
      1: (vm_compute; reflexivity).
      1: exact I.
      vm_compute; reflexivity.
    - reflexivity. }
  destruct U as (r & Hu & Hret). exists r.
  split; [exact E0|]. split; [exact Hu|]. split; [exact Hret|].
  rewrite (final_gallery_order_independent 2 exampleRandom
             (exampleInputs 2 "a side profile") idle _ outcome
             ltac:(lia) E0 r Hu Hret).
  reflexivity.
Defined.

End OutcomesWitness.

Section GalleryView.

Lemma truthy_data_uri u : isDataUri u -> truthy (Some u) = true.
Proof. intros (m & x & ->). reflexivity. Qed.

Lemma ImageCard_wellFormed img :
  wellFormed img ->
  (GeneratedImage.status img = Pending /\ ImageCard img = [Spinner])
  \/ (GeneratedImage.status img = Error
      /\ exists m, GeneratedImage.error img = Some m
                   /\ ImageCard img = [ErrorBox (Some m)])
  \/ (GeneratedImage.status img = Done
      /\ exists u, GeneratedImage.url img = Some u /\ isDataUri u
                   /\ ImageCard img
                      = [Picture u ("Generated variation "
                                    +++ decimal (GeneratedImage.id img));
                         DownloadButton u]).
Proof.
  unfold wellFormed, ImageCard.
  destruct (GeneratedImage.status img).
  - intros _. left. auto.
  - intros [(u & Hu & Hd) _]. right. right. split; [reflexivity|].
    exists u. rewrite Hu, (truthy_data_uri u Hd). auto.
  - intros [_ (m & Hm)]. right. left. split; [reflexivity|].
    exists m. rewrite Hm. auto.
Qed.

(** X16. What the gallery shows during and after a run with at least one
    job: a grid of N cards keyed 0, 1, ..., N-1, never the placeholder, and
    every card shows exactly one thing: the spinner for a pending job, the
    error box with the job's message for a failed job, the picture with its
    download button, both on the job's data URI, for a done job. No card is
    ever empty. *)
Theorem gallery_cards (limit : nat) (random : nat -> Number) (inp : Inputs) (st : AppState)
  (r0 : Run) :
  1 <= numVariations inp ->
  handleGenerate_upto limit random inp st = Running r0 ->
  forall r, reachable inp r0 r ->
    exists cards,
      Gallery (app (shared r)) = Grid cards
      /\ map fst cards = seq 0 (numVariations inp)
      /\ forall key children, In (key, children) cards ->
           exists img,
             In img (generatedImages (app (shared r)))
             /\ GeneratedImage.id img = key
             /\ (GeneratedImage.status img = Pending /\ children = [Spinner]
                 \/ (GeneratedImage.status img = Error
                     /\ exists m, GeneratedImage.error img = Some m
                                  /\ children = [ErrorBox (Some m)])
                 \/ (GeneratedImage.status img = Done
                     /\ exists u, GeneratedImage.url img = Some u /\ isDataUri u
                                  /\ children
                                     = [Picture u ("Generated variation "
                                                   +++ decimal key);
                                        DownloadButton u])).
Proof.
  intros HN Hs r Hr.
  pose proof (reachable_inv inp _ limit r0 r (start_inv limit random inp st r0 Hs) Hr)
    as (J & _ & _).
  pose proof (inv_ids _ _ _ J) as Hi. rewrite makePrompts_length in Hi.
  pose proof (reachable_wellFormed inp _ limit r0 r (start_inv limit random inp st r0 Hs)
                Hr) as W.
  rewrite (proj1 (start_app limit random inp st r0 Hs)) in W.
  specialize (W (wellFormed_pendingImages _)). rewrite Forall_forall in W.
  exists (map (fun image => (GeneratedImage.id image, ImageCard image))
            (generatedImages (app (shared r)))).
  split; [|split].
  - unfold Gallery.
    assert (Hl : length (generatedImages (app (shared r))) = numVariations inp).
    { rewrite <- (length_map GeneratedImage.id), Hi. apply length_seq. }
    rewrite Hl. destruct (numVariations inp); [lia | reflexivity].
  - rewrite map_map. cbn [fst]. exact Hi.
  - intros key children Hin. apply in_map_iff in Hin as (img & E & Hin).
    injection E as <- <-. exists img. split; [exact Hin|]. split; [reflexivity|].
    exact (ImageCard_wellFormed img (W img Hin)).
Qed.

Lemma gallery_cards_witness :
  exists r0 r,
    handleGenerate_upto 2 exampleRandom (exampleInputs 2 "a side profile") idle
    = Running r0
    /\ execAll (exampleInputs 2 "a side profile")
         [Settle 1 remoteOk] r0 = Some r
    /\ Gallery (app (shared r))
       = Grid [(0, [Spinner]);
               (1, [Picture "data:image/png;base64,QQ==" "Generated variation 1";
                    DownloadButton "data:image/png;base64,QQ=="])].
Proof.
  eexists. eexists. split; [reflexivity|].
  match goal with |- execAll ?inp ?evs ?r0 = Some ?r /\ _ =>
    assert (E : execAll inp evs r0 = Some r) by (vm_compute; reflexivity);
    destruct (gallery_cards 2 exampleRandom inp idle r0 ltac:(cbn; lia) eq_refl r
                (execAll_reachable inp evs r0 r E)) as (cards & Hg & _)
  end.
  split; [exact E|]. rewrite Hg.
  vm_compute in Hg. injection Hg as <-. reflexivity.
Defined.

End GalleryView.

Section ImageModes.

(** X17. In reference and sketch mode the prompt list plays no part: the
    guidance passed to the client is the same for every job, so the N jobs of
    a run send N copies of one request: the model image, the guidance image
    and the fixed text of the mode with the custom prompt as optional
    refinement. No pose of the catalog is ever sent in these modes. *)
Theorem image_mode_jobs_identical (limit : nat) (random : nat -> Number) (inp : Inputs)
  (st : AppState) (r0 : Run) :
  poseGuidanceMode inp <> mode_text ->
  handleGenerate_upto limit random inp st = Running r0 ->
  let guide := match poseGuidanceMode inp with
               | mode_sketch => poseSketchImage inp
               | _ => poseReferenceImage inp
               end in
  let fixed := match poseGuidanceMode inp with
               | mode_sketch => sketchGuidance
               | _ => referenceGuidance
               end in
  (forall promptText, guidanceFor inp promptText = guidanceFor inp None)
  /\ truthy guide = true
  /\ forall pm pg promptText remote,
       fileToGenerativePart (str (modelImage inp)) = inr pm ->
       fileToGenerativePart (str guide) = inr pg ->
       snd (run (generatePosedVariation (str (modelImage inp))
                   (guidanceFor inp promptText)) remote)
       = [[pm; pg;
           textPart (basePrompt +++ fixed +++ refinementOf (Some (customPrompt inp)))]].
Proof.
  intros Hmode Hs guide fixed. subst guide fixed.
  destruct (start_guards limit random inp st r0 Hs) as (_ & Hr & Hk).
  unfold guidanceFor.
  destruct (poseGuidanceMode inp) eqn:E; [now elim Hmode| |];
    cbn [PoseGuidanceMode_eqb].
  - split; [reflexivity|]. split; [exact (Hr eq_refl)|].
    intros pm pg promptText remote Hpm Hpg.
    pose proof (generate_reference (str (modelImage inp))
                  (PoseGuidance.mk (Some (customPrompt inp)) (poseReferenceImage inp) None)
                  remote pm Hpm (Hr eq_refl)) as G.
    cbn [PoseGuidance.referenceImage PoseGuidance.text] in G. rewrite Hpg in G.
    cbv zeta in G. now rewrite G.
  - split; [reflexivity|]. split; [exact (Hk eq_refl)|].
    intros pm pg promptText remote Hpm Hpg.
    pose proof (generate_sketch (str (modelImage inp))
                  (PoseGuidance.mk (Some (customPrompt inp)) None (poseSketchImage inp))
                  remote pm Hpm eq_refl (Hk eq_refl)) as G.
    cbn [PoseGuidance.sketchImage PoseGuidance.text] in G. rewrite Hpg in G.
    cbv zeta in G. now rewrite G.
Qed.

Lemma image_mode_jobs_identical_witness :
  snd (run (generatePosedVariation examplePng
              (guidanceFor
                 {| modelImage := Some examplePng;
                    poseReferenceImage := None;
                    poseSketchImage := Some (dataUrlOf "image/webp" "CCC=");
                    poseGuidanceMode := mode_sketch;
                    numVariations := 5; customPrompt := EmptyString |}
                 (Some "A portrait taken from a side profile."))) remoteOk)
  = [[imagePart "image/png" "AAA="; imagePart "image/webp" "CCC=";
      textPart (basePrompt +++ sketchGuidance)]].
Proof.
  destruct (handleGenerate_upto 5 exampleRandom
              {| modelImage := Some examplePng;
                 poseReferenceImage := None;
                 poseSketchImage := Some (dataUrlOf "image/webp" "CCC=");
                 poseGuidanceMode := mode_sketch;
                 numVariations := 5; customPrompt := EmptyString |} idle)
    as [s|r0] eqn:E0; [vm_compute in E0; discriminate E0|].
  destruct (image_mode_jobs_identical 5 exampleRandom
              {| modelImage := Some examplePng;
                 poseReferenceImage := None;
                 poseSketchImage := Some (dataUrlOf "image/webp" "CCC=");
                 poseGuidanceMode := mode_sketch;
                 numVariations := 5; customPrompt := EmptyString |} idle r0
              ltac:(discriminate) E0) as (_ & _ & H).
  exact (H (imagePart "image/png" "AAA=") (imagePart "image/webp" "CCC=")
           (Some "A portrait taken from a side profile.") remoteOk eq_refl eq_refl).
Defined.

(** X1 on a call whose sketch is refused. *)
Lemma generatePosedVariation_one_request_witness :
  snd (run (generatePosedVariation examplePng
              (PoseGuidance.mk None None (Some "sketch.svg"))) remoteOk) = []
  /\ fst (run (generatePosedVariation examplePng
                 (PoseGuidance.mk None None (Some "sketch.svg"))) remoteOk)
     = inl InvalidInput.
Proof.
  destruct (generatePosedVariation_one_request examplePng
              (PoseGuidance.mk None None (Some "sketch.svg")) remoteOk)
    as (_ & H1 & H2 & _).
  assert (E : snd (run (generatePosedVariation examplePng
                          (PoseGuidance.mk None None (Some "sketch.svg"))) remoteOk) = []).
  { apply H1. right. right. cbn. auto. }
  split; [exact E | exact (H2 E)].
Defined.

(** X9 on a click that follows a refusal and an older run. While the
    handler waits the button is disabled; once it has returned the button is
    enabled for the controls of the click and disabled for controls whose
    model image was removed in the meantime. *)
Lemma generate_button_witness :
  exists r0 r,
    handleGenerate_upto 2 exampleRandom (exampleInputs 3 EmptyString)
      {| generatedImages := [GeneratedImage.mk 0 Done (Some examplePng) None];
         isLoading := false; error := Some "Please upload a model image first.";
         progress := 1 |}
    = Running r0
    /\ execAll (exampleInputs 3 EmptyString)
         (drive (exampleInputs 3 EmptyString) (measure r0) r0) r0 = Some r
    /\ error (app (shared r0)) = None
    /\ length (generatedImages (app (shared r0))) = 3
    /\ isGenerateDisabled (exampleInputs 3 EmptyString) (app (shared r0)) = true
    /\ handler r = HandlerReturned
    /\ isGenerateDisabled (exampleInputs 3 EmptyString) (app (shared r)) = false
    /\ isGenerateDisabled
         {| modelImage := None; poseReferenceImage := None; poseSketchImage := None;
            poseGuidanceMode := mode_text; numVariations := 3;
            customPrompt := EmptyString |}
         (app (shared r)) = true.
Proof.
  eexists. eexists. split; [reflexivity|].
  match goal with |- execAll ?inp ?evs ?r0 = Some ?r /\ _ =>
    assert (E : execAll inp evs r0 = Some r) by (vm_compute; reflexivity);
    destruct (proj1 (generate_button 2 exampleRandom inp
                       {| generatedImages :=
                            [GeneratedImage.mk 0 Done (Some examplePng) None];
                          isLoading := false;
                          error := Some "Please upload a model image first.";
                          progress := 1 |}) eq_refl) as (r0' & H0 & Ha & Hd);
    assert (Er : Running r0' = Running r0) by (rewrite <- H0; reflexivity);
    injection Er as Er; rewrite Er in Ha, Hd;
    pose proof (Hd r0 (reach_start _ _)) as (Hwait & _);
    pose proof (Hd r (execAll_reachable inp evs r0 r E)) as (_ & Hdone)
  end.
  split; [exact E|].
  split; [exact (f_equal error Ha)|].
  split; [exact (f_equal (fun a => length (generatedImages a)) Ha)|].
  split; [apply Hwait; reflexivity|].
  destruct (Hdone eq_refl) as (Hshown & Hsame).
  split; [reflexivity|]. split; [exact Hsame|].
  rewrite Hshown. reflexivity.
Defined.

(** X6 on a text-only call answered with an image. *)
Lemma service_functions_disciplined_witness :
  length (snd (run (generateGraphicFromPrompt "a fox") remoteOk)) <= 1
  /\ fst (run (generateGraphicFromPrompt "a fox") remoteOk)
     = inr "data:image/png;base64,QQ==".
Proof.
  destruct service_functions_disciplined
    as (_ & _ & _ & _ & _ & _ & _ & _ & _ & _ & H & _).
  destruct (proj1 (H "a fox") remoteOk) as (H1 & _ & _ & H4).
  split; [exact H1|]. rewrite (H4 _ eq_refl). reflexivity.
Defined.

End ImageModes.
